(** * filescanner: a shallow embedding of [filescanner.py]

    The development has four modules:
    - [Text]: the Python string operations the scanner relies on;
    - [Glob]: [fnmatch.fnmatch], the name matcher of [grep_files] and
      [find_files];
    - [Regex]: a reference semantics for the fragment of [re] made of
      literal characters, dots, alternations and groups;
    - [FileScanner]: the methods of the class [FileScanner] in source
      order and [main], then declarative readings of what they compute,
      then the properties.

    Text is modelled as [list ascii]; a character stands for the code point
    of the same number (U+0000 to U+00FF). The directory tree is read
    through a walk and a reader that are parameters of the scanner; the
    report and the configuration file live in a store keyed by path. *)

From Stdlib Require Import String Ascii List Bool Arith Lia DecimalString.
From stdpp Require Import base gmap strings.
Import ListNotations.

Local Open Scope list_scope.

Abbreviation str := (list ascii).

(** [txt "abc"] is the Python literal ['abc']. *)
Definition txt (s : string) : str := list_ascii_of_string s.

(** ** Python string primitives *)
Module Text.

Definition code (c : ascii) : nat := nat_of_ascii c.

Definition LF : ascii := "010"%char.
Definition CR : ascii := "013"%char.

Definition between (lo hi n : nat) : bool := (lo <=? n) && (n <=? hi).

(** [str.isspace] on one character, for code points below 256. *)
Definition isspace (c : ascii) : bool :=
  let n := code c in
  between 9 13 n || between 28 32 n || (n =? 133) || (n =? 160).

(** [str.lower] on one character, for code points below 256. *)
Definition lower_char (c : ascii) : ascii :=
  let n := code c in
  if between 65 90 n || (between 192 222 n && negb (n =? 215))
  then ascii_of_nat (n + 32) else c.

Definition lower (s : str) : str := map lower_char s.

Fixpoint lstrip (s : str) : str :=
  match s with
  | c :: t => if isspace c then lstrip t else s
  | [] => []
  end.

Definition rstrip (s : str) : str := rev (lstrip (rev s)).

Definition strip (s : str) : str := lstrip (rstrip s).

Fixpoint startswith (p s : str) : bool :=
  match p, s with
  | [], _ => true
  | a :: p', b :: s' => Ascii.eqb a b && startswith p' s'
  | _ :: _, [] => false
  end.

Definition endswith (p s : str) : bool := startswith (rev p) (rev s).

(** [sub in s] *)
Fixpoint contains (sub s : str) : bool :=
  startswith sub s ||
  match s with
  | [] => false
  | _ :: t => contains sub t
  end.

(** [s.replace(old, new)] for a non-empty [old] (every call site passes a
    literal): occurrences are replaced left to right, without overlap.
    [skip] counts the characters of an occurrence still to be dropped. *)
Fixpoint replace_from (skip : nat) (old new s : str) : str :=
  match s with
  | [] => []
  | c :: t =>
    match skip with
    | S k => replace_from k old new t
    | O => if startswith old s
           then new ++ replace_from (pred (length old)) old new t
           else c :: replace_from 0 old new t
    end
  end.

Definition replace (old new s : str) : str := replace_from 0 old new s.

(** [s.split(sep)] for a one-character separator. *)
Fixpoint split (sep : ascii) (s : str) : list str :=
  match s with
  | [] => [[]]
  | c :: t =>
    if Ascii.eqb c sep then [] :: split sep t
    else match split sep t with
         | h :: r => (c :: h) :: r
         | [] => [[c]]
         end
  end.

(** [sep.join(items)] *)
Fixpoint join (sep : str) (items : list str) : str :=
  match items with
  | [] => []
  | [x] => x
  | x :: rest => x ++ sep ++ join sep rest
  end.

(** [s[1:-1]] *)
Definition slice_1_m1 (s : str) : str := removelast (tl s).

(** [str(n)] for a non-negative integer. *)
Definition decimal (n : nat) : str :=
  txt (NilEmpty.string_of_uint (Nat.to_uint n)).

(** Iterating over a file opened in text mode (universal newlines): the
    terminators LF, CR and CR LF all end a line and are read as one LF;
    a last line without terminator is yielded as it is. *)
Fixpoint file_lines_from (cur : str) (s : str) : list str :=
  match s with
  | [] => match cur with [] => [] | _ => [rev cur] end
  | c :: t =>
    if Ascii.eqb c LF then rev (LF :: cur) :: file_lines_from [] t
    else if Ascii.eqb c CR then
      match t with
      | d :: _ =>
        if Ascii.eqb d LF
        then file_lines_from cur t
        else rev (LF :: cur) :: file_lines_from [] t
      | [] => [rev (LF :: cur)]
      end
    else file_lines_from (c :: cur) t
  end.

Definition file_lines (text : str) : list str := file_lines_from [] text.

End Text.

(** ** [fnmatch]: shell-style name matching

  [fnmatch.fnmatch(name, pat)] normalises the case of both arguments with
  [os.path.normcase] and then calls [fnmatch.fnmatchcase], which compiles
  the pattern ([fnmatch.translate]) and matches the whole name. *)
Module Glob.
Import Text.

Inductive platform := Posix | Windows.

Definition slash_to_backslash (c : ascii) : ascii :=
  if Ascii.eqb c "/" then "\"%char else c.

(** [os.path.normcase]: the identity in [posixpath]; in [ntpath] it turns
    every slash into a backslash and lowers the case. *)
Definition normcase (pf : platform) (s : str) : str :=
  match pf with
  | Posix => s
  | Windows => lower (map slash_to_backslash s)
  end.

(** One element of a translated pattern. A bracket expression is kept as
    its negation flag and its inclusive ranges (a single character [c] is
    the range from [c] to [c]). *)
Inductive gtok :=
| GStar
| GAny
| GLit (c : ascii)
| GSet (neg : bool) (ranges : list (ascii * ascii)).

(** The text up to the first closing bracket, and what follows it. *)
Fixpoint find_rbracket (s : str) : option (str * str) :=
  match s with
  | [] => None
  | c :: t =>
    if Ascii.eqb c "]" then Some ([], t)
    else match find_rbracket t with
         | Some (a, b) => Some (c :: a, b)
         | None => None
         end
  end.

(** The scan [translate] runs after an opening bracket: a leading [!] and
    a closing bracket right after it belong to the set. *)
Definition scan_set (r : str) : option (str * str) :=
  let '(bang, r1) :=
    match r with
    | c :: t => if Ascii.eqb c "!" then ([c], t) else ([], r)
    | [] => ([], r)
    end in
  let '(rb, r2) :=
    match r1 with
    | c :: t => if Ascii.eqb c "]" then ([c], t) else ([], r1)
    | [] => ([], r1)
    end in
  match find_rbracket r2 with
  | Some (a, b) => Some (bang ++ rb ++ a, b)
  | None => None
  end.

(** The members of a set body. A hyphen with a character on each side
    makes a range; the first character and a final hyphen are literal.
    An empty range ([z-a]) has no member, as in [translate], which deletes
    both of its ends. *)
Fixpoint set_ranges (body : str) : list (ascii * ascii) :=
  match body with
  | [] => []
  | c :: t =>
    match t with
    | h :: d :: t' =>
      if Ascii.eqb h "-" then (c, d) :: set_ranges t'
      else (c, c) :: set_ranges t
    | _ => (c, c) :: set_ranges t
    end
  end.

Definition set_tok (stuff : str) : gtok :=
  match stuff with
  | c :: body =>
    if Ascii.eqb c "!" then GSet true (set_ranges body)
    else GSet false (set_ranges stuff)
  | [] => GSet false []
  end.

(** [fnmatch.translate]; [skip] counts the characters of a bracket
    expression still to be passed over. *)
Fixpoint translate_from (skip : nat) (pat : str) : list gtok :=
  match pat with
  | [] => []
  | c :: r =>
    match skip with
    | S k => translate_from k r
    | O =>
      if Ascii.eqb c "*" then GStar :: translate_from 0 r
      else if Ascii.eqb c "?" then GAny :: translate_from 0 r
      else if Ascii.eqb c "[" then
        match scan_set r with
        | None => GLit c :: translate_from 0 r
        | Some (stuff, _) => set_tok stuff :: translate_from (S (length stuff)) r
        end
      else GLit c :: translate_from 0 r
    end
  end.

Definition translate (pat : str) : list gtok := translate_from 0 pat.

Definition in_range (x : ascii) (r : ascii * ascii) : bool :=
  between (code (fst r)) (code (snd r)) (code x).

Definition tok_ok (t : gtok) (x : ascii) : bool :=
  match t with
  | GStar => false
  | GAny => true
  | GLit c => Ascii.eqb c x
  | GSet neg ranges => xorb neg (existsb (in_range x) ranges)
  end.

(** Matching the whole name against the translated pattern. *)
Fixpoint gmatch (toks : list gtok) (s : str) : bool :=
  match toks with
  | [] => match s with [] => true | _ :: _ => false end
  | GStar :: ts =>
    (fix star (s : str) : bool :=
       gmatch ts s || match s with [] => false | _ :: s' => star s' end) s
  | t :: ts =>
    match s with
    | [] => false
    | x :: s' => tok_ok t x && gmatch ts s'
    end
  end.

Definition fnmatchcase (name pat : str) : bool := gmatch (translate pat) name.

Definition fnmatch (pf : platform) (name pat : str) : bool :=
  fnmatchcase (normcase pf name) (normcase pf pat).

End Glob.

(** ** [re]: the pattern language of keyword lists

  [grep_files] calls [re.search(pattern, line, re.IGNORECASE)], which
  either finds a match, finds none, or raises [re.error] when the pattern
  does not compile. The scanner is verified against any such function
  (it is a parameter of [FileScanner]); this module gives the reference
  semantics of the fragment made of literal characters, [.], [|] and
  groups, for the statements that depend on what a pattern means. *)
Module Regex.
Import Text.

Inductive re_result :=
| Matched
| NoMatch
| ReError (msg : str).

Inductive regex :=
| Eps
| Chr (c : ascii)
| Dot
| Seq (a b : regex)
| Alt (a b : regex).

(** Characters whose meaning lies outside the fragment. *)
Definition beyond_fragment (c : ascii) : bool :=
  existsb (Ascii.eqb c) (txt "\*+?{}[]^$").

(** A branch list under construction: the alternatives already closed
    (latest first) and the sequence being read. *)
Record frame := { alts : list regex; cur : regex }.

Definition empty_frame : frame := {| alts := []; cur := Eps |}.

Definition push_atom (f : frame) (a : regex) : frame :=
  {| alts := alts f; cur := Seq (cur f) a |}.

Definition next_branch (f : frame) : frame :=
  {| alts := cur f :: alts f; cur := Eps |}.

(** The alternation of a finished branch list, first branch first. *)
Definition close (f : frame) : regex :=
  fold_left (fun acc r => Alt r acc) (alts f) (cur f).

Inductive parsed :=
| PRegex (r : regex)
| PError (msg : str)
| PBeyond.

(** The parser: [f] is the innermost open branch list, [stack] the
    enclosing ones. *)
Fixpoint parse_from (f : frame) (stack : list frame) (s : str) : parsed :=
  match s with
  | [] =>
    match stack with
    | [] => PRegex (close f)
    | _ :: _ => PError (txt "missing ), unterminated subpattern")
    end
  | c :: t =>
    if Ascii.eqb c "(" then parse_from empty_frame (f :: stack) t
    else if Ascii.eqb c ")" then
      match stack with
      | [] => PError (txt "unbalanced parenthesis")
      | parent :: stack' => parse_from (push_atom parent (close f)) stack' t
      end
    else if Ascii.eqb c "|" then parse_from (next_branch f) stack t
    else if Ascii.eqb c "." then parse_from (push_atom f Dot) stack t
    else if beyond_fragment c then PBeyond
    else parse_from (push_atom f (Chr c)) stack t
  end.

Definition parse (pattern : str) : parsed := parse_from empty_frame [] pattern.

(** The parser state after reading [s], when reading it meets no error and
    stays in the fragment. *)
Fixpoint run_from (f : frame) (stack : list frame) (s : str)
    : option (frame * list frame) :=
  match s with
  | [] => Some (f, stack)
  | c :: t =>
    if Ascii.eqb c "(" then run_from empty_frame (f :: stack) t
    else if Ascii.eqb c ")" then
      match stack with
      | [] => None
      | parent :: stack' => run_from (push_atom parent (close f)) stack' t
      end
    else if Ascii.eqb c "|" then run_from (next_branch f) stack t
    else if Ascii.eqb c "." then run_from (push_atom f Dot) stack t
    else if beyond_fragment c then None
    else run_from (push_atom f (Chr c)) stack t
  end.

(** The branches of a branch list. *)
Definition branches (f : frame) : list regex := cur f :: alts f.

(** The same parser state with the alternatives [A] already closed at the
    outermost level. *)
Definition extend (A : list regex) (f : frame) : frame :=
  {| alts := alts f ++ A; cur := cur f |}.

Fixpoint extend_last (A : list regex) (stack : list frame) : list frame :=
  match stack with
  | [] => []
  | g :: rest =>
    match rest with
    | [] => [extend A g]
    | _ :: _ => g :: extend_last A rest
    end
  end.

Definition under (A : list regex) (f : frame) (stack : list frame)
    : frame * list frame :=
  match stack with
  | [] => (extend A f, [])
  | _ :: _ => (f, extend_last A stack)
  end.

(** Every way [r] can match at the start of [s], as the text left over.
    Characters are compared without case ([re.IGNORECASE]); [.] matches
    anything but a line feed. *)
Fixpoint rests (r : regex) (s : str) : list str :=
  match r with
  | Eps => [s]
  | Chr c =>
    match s with
    | x :: t => if Ascii.eqb (lower_char c) (lower_char x) then [t] else []
    | [] => []
    end
  | Dot =>
    match s with
    | x :: t => if Ascii.eqb x LF then [] else [t]
    | [] => []
    end
  | Seq a b => flat_map (rests b) (rests a s)
  | Alt a b => rests a s ++ rests b s
  end.

Definition match_at (r : regex) (s : str) : bool :=
  match rests r s with [] => false | _ :: _ => true end.

Fixpoint search_regex (r : regex) (s : str) : bool :=
  match_at r s ||
  match s with
  | [] => false
  | _ :: t => search_regex r t
  end.

(** [re.search(pattern, line, re.IGNORECASE)] on the fragment; [None]
    when the pattern leaves it. *)
Definition search_fragment (pattern line : str) : option re_result :=
  match parse pattern with
  | PRegex r => Some (if search_regex r line then Matched else NoMatch)
  | PError msg => Some (ReError msg)
  | PBeyond => None
  end.

(** Compiling a pattern of the fragment: the message of [re.error], or
    the search function of the compiled pattern. Patterns outside the
    fragment are not modelled; they are given an error so that the function
    is total and the scanner can be run on concrete inputs. *)
Definition fragment_compile (pattern : str) : str + (str -> bool) :=
  match parse pattern with
  | PRegex r => inr (search_regex r)
  | PError msg => inl msg
  | PBeyond => inl (txt "pattern outside the modelled fragment")
  end.

End Regex.

(** ** The scanner *)
Module FileScanner.
Import Text Glob Regex.

(** What one iteration of [os.walk(self.search_root)] does: it yields a
    directory with the names of its files, or raises. *)
Inductive walk_event :=
| Visit (root : str) (files : list str)
| WalkRaises (msg : str).

(** What opening and reading a file does: the text as [f.read()] returns
    it (decoded, undecodable bytes dropped), or an [OSError] (this includes
    [PermissionError]) after the lines in [yielded] were read; [yielded]
    is empty when [open] itself fails. *)
Inductive read_result :=
| ReadOk (text : str)
| ReadFails (yielded : list str).

Definition nonempty {A : Type} (l : list A) : bool :=
  match l with [] => false | _ :: _ => true end.

Definition quote : ascii := "034"%char.

(** A section dictionary of [parse_config]. The dictionary that exists
    before the first header starts empty, so every key can be absent. *)
Record section := {
  s_name : option str;
  s_command : option str;
  s_keywords : option (list str);
  s_extensions : option (list str);
  s_files : option (list str)
}.

(** [{}] *)
Definition empty_dict : section :=
  {| s_name := None; s_command := None; s_keywords := None;
     s_extensions := None; s_files := None |}.

(** The dictionary a header line creates. *)
Definition new_section (name : str) : section :=
  {| s_name := Some name; s_command := Some []; s_keywords := Some [];
     s_extensions := Some []; s_files := Some [] |}.

Definition has_key {A : Type} (v : option A) : bool :=
  match v with Some _ => true | None => false end.

(** Truth value of a dictionary: it has a key. *)
Definition dict_nonempty (s : section) : bool :=
  has_key (s_name s) || has_key (s_command s) || has_key (s_keywords s)
  || has_key (s_extensions s) || has_key (s_files s).

Definition set_command (s : section) (v : str) : section :=
  {| s_name := s_name s; s_command := Some v; s_keywords := s_keywords s;
     s_extensions := s_extensions s; s_files := s_files s |}.
Definition set_keywords (s : section) (v : list str) : section :=
  {| s_name := s_name s; s_command := s_command s; s_keywords := Some v;
     s_extensions := s_extensions s; s_files := s_files s |}.
Definition set_extensions (s : section) (v : list str) : section :=
  {| s_name := s_name s; s_command := s_command s; s_keywords := s_keywords s;
     s_extensions := Some v; s_files := s_files s |}.
Definition set_files (s : section) (v : list str) : section :=
  {| s_name := s_name s; s_command := s_command s; s_keywords := s_keywords s;
     s_extensions := s_extensions s; s_files := Some v |}.

(** *** Files, console and interruption

    The report and the configuration live in one store keyed by path.
    Every effect of a run is recorded in [trace], oldest first. A run is
    given a [budget] of effects; when it is used up the next effect does
    not happen and the run stops, which is how an interrupt at that point
    is modelled. *)
Inductive event :=
| EvMkdir (path : str)
| EvPrint (msg : str)
| EvRead (path : str)
| EvWrite (path text : str)
| EvAppend (path text : str).

Record world := {
  fs : gmap str str;
  section_examples : gmap str str;
  trace : list event;
  budget : nat
}.

Inductive stop :=
| Interrupted
| Raised (exc : str).

Inductive outcome (A : Type) :=
| Done (a : A) (w : world)
| Stopped (why : stop) (w : world).
Arguments Done {A} a w.
Arguments Stopped {A} why w.

Definition world_of {A : Type} (o : outcome A) : world :=
  match o with Done _ w => w | Stopped _ w => w end.

Definition M (A : Type) : Type := world -> outcome A.

Definition ret {A : Type} (a : A) : M A := fun w => Done a w.

Definition bind {A B : Type} (m : M A) (k : A -> M B) : M B :=
  fun w =>
    match m w with
    | Done a w' => k a w'
    | Stopped why w' => Stopped why w'
    end.

#[export] Instance M_ret : MRet M := @ret.
#[export] Instance M_bind : MBind M := fun A B k m => bind m k.

(** One effect: it is recorded and changes the store by [f]. *)
Definition effect (e : event) (f : gmap str str -> gmap str str) : M unit :=
  fun w =>
    match budget w with
    | O => Stopped Interrupted w
    | S n =>
      Done tt {| fs := f (fs w); section_examples := section_examples w;
                 trace := trace w ++ [e]; budget := n |}
    end.

Definition raise {A : Type} (exc : string) : M A :=
  fun w => Stopped (Raised (txt exc)) w.

(** [path.parent.mkdir(parents=True, exist_ok=True)]: no file changes. *)
Definition mkdir (path : str) : M unit := effect (EvMkdir path) id.

Definition print (msg : str) : M unit := effect (EvPrint msg) id.

(** [open(path, 'w')] followed by the writes, taken as one step. *)
Definition write_file (path text : str) : M unit :=
  effect (EvWrite path text) (fun m => <[path := text]> m).

(** [open(path, 'a')] followed by one write. *)
Definition append_file (path text : str) : M unit :=
  effect (EvAppend path text)
    (fun m => <[path := default [] (m !! path) ++ text]> m).

Definition contents (path : str) : M str :=
  fun w =>
    match fs w !! path with
    | Some text => Done text w
    | None => Stopped (Raised (txt "FileNotFoundError")) w
    end.

(** [open(path, 'r')] and reading to the end. *)
Definition read_file (path : str) : M str :=
  effect (EvRead path) id ;; contents path.

(** [self.section_examples[name] = value] *)
Definition set_example (name value : str) : M unit :=
  fun w =>
    Done tt {| fs := fs w;
               section_examples := <[name := value]> (section_examples w);
               trace := trace w; budget := budget w |}.

Definition get_examples : M (gmap str str) :=
  fun w => Done (section_examples w) w.

Fixpoint for_each {A : Type} (f : A -> M unit) (l : list A) : M unit :=
  match l with
  | [] => ret tt
  | x :: rest => f x ;; for_each f rest
  end.

Definition when (b : bool) (m : M unit) : M unit := if b then m else ret tt.

(** [d[key]] *)
Definition getitem {A : Type} (key : string) (v : option A) : M A :=
  match v with
  | Some a => ret a
  | None => raise ("KeyError: " ++ key)
  end.

(** *** Sample inputs, used to run the definitions

    [Path(root) / file] for a relative, normalised [root] on POSIX. *)
Definition posix_join (root file : str) : str := root ++ txt "/" ++ file.

Definition reader (files : list (str * read_result)) (path : str) : read_result :=
  match List.find (fun e => bool_decide (fst e = path)) files with
  | Some e => snd e
  | None => ReadFails []
  end.

(** A tree with two directories; the walk then fails. *)
Definition sample_walk : list walk_event :=
  [ Visit (txt "a") [txt "notes.txt"; txt "my_Password.txt"; txt "blank.txt"];
    Visit (txt "a/b") [txt "config.bak"; txt "locked.txt"];
    WalkRaises (txt "walk failed");
    Visit (txt "z") [txt "late.txt"] ].

Definition sample_read : str -> read_result :=
  reader
    [ (txt "a/notes.txt",
       ReadOk (txt "hello" ++ [LF] ++ txt "export TOKEN=abc  " ++ [LF] ++ txt "xyz"));
      (txt "a/my_Password.txt", ReadOk (txt "hunter2" ++ [LF]));
      (txt "a/blank.txt", ReadOk (txt "  " ++ [LF] ++ txt " "));
      (txt "a/b/config.bak", ReadFails [txt "secret=1" ++ [LF]]);
      (txt "a/b/locked.txt", ReadFails []) ].

(** A configuration with two sections. *)
Definition sample_config : str :=
  txt "# scan rules  " ++ [LF]
  ++ txt "[Secrets]" ++ [LF]
  ++ txt "Command: grep -riE KEYWORDS EXTENSIONS ." ++ [LF]
  ++ txt "Example: " ++ [LF]
  ++ txt "Keywords: secret, token" ++ [LF]
  ++ txt "Extensions: *.txt" ++ [LF]
  ++ txt "[Backups]" ++ [LF]
  ++ txt "Command: find . EXTENSIONS" ++ [LF]
  ++ txt "Example: old" ++ [LF]
  ++ txt "Extensions: *.bak" ++ [LF].

Definition sample_files : gmap str str :=
  {[ txt "scan.cfg" := sample_config ]}.

Definition sample_now (call : nat) : str := txt "2024-01-01 00:00:00".

Section Scanner.

(** The platform and the library functions the class calls. *)
Variable pf : platform.
Variable path_join : str -> str -> str.
Variable re_compile : str -> str + (str -> bool).

(** The directory tree at the time of the scan. *)
Variable walk : list walk_event.
Variable open_read : str -> read_result.

(** [self.verbose] *)
Variable verbose : bool.

Definition matches_any (file : str) (patterns : list str) : bool :=
  existsb (fnmatch pf file) patterns.

(** The message [self.log] receives in an [except Exception as e] branch,
    which only logs when [self.verbose] is set. *)
Definition logged_error (what : string) (e : option str) : list str :=
  match e with
  | Some msg => if verbose then [txt what ++ msg] else []
  | None => []
  end.

(** *** [grep_files]

    The loops append to [results] in place, so what was appended before an
    exception is kept. Each loop returns the list and the exception that
    ended it, if any. *)

(** [re.search(pattern, line, re.IGNORECASE)]: the pattern is compiled
    (the library caches compiled patterns), which raises [re.error] or
    gives the search function applied to the line. *)
Definition re_search (pattern line : str) : re_result :=
  match re_compile pattern with
  | inl msg => ReError msg
  | inr search => if search line then Matched else NoMatch
  end.

Definition grep_result (filepath : str) (line_num : nat) (line : str) : str :=
  filepath ++ txt ":" ++ decimal line_num ++ txt ":" ++ rstrip line.

Fixpoint grep_lines (pattern filepath : str) (line_num : nat)
    (lines : list str) (results : list str) : list str * option str :=
  match lines with
  | [] => (results, None)
  | line :: rest =>
    match re_search pattern line with
    | ReError msg => (results, Some msg)
    | Matched =>
      grep_lines pattern filepath (S line_num) rest
        (results ++ [grep_result filepath line_num line])
    | NoMatch => grep_lines pattern filepath (S line_num) rest results
    end
  end.

(** The [try] block around one file: an [OSError] is swallowed
    ([continue]), anything else leaves the walk. *)
Definition grep_file (pattern filepath : str) (results : list str)
    : list str * option str :=
  match open_read filepath with
  | ReadOk text => grep_lines pattern filepath 1 (file_lines text) results
  | ReadFails yielded => grep_lines pattern filepath 1 yielded results
  end.

Fixpoint grep_dir (pattern : str) (extensions : list str) (root : str)
    (files : list str) (results : list str) : list str * option str :=
  match files with
  | [] => (results, None)
  | file :: rest =>
    if nonempty extensions && negb (matches_any file extensions)
    then grep_dir pattern extensions root rest results
    else
      match grep_file pattern (path_join root file) results with
      | (results', None) => grep_dir pattern extensions root rest results'
      | (results', Some e) => (results', Some e)
      end
  end.

Fixpoint grep_walk (pattern : str) (extensions : list str)
    (events : list walk_event) (results : list str) : list str * option str :=
  match events with
  | [] => (results, None)
  | WalkRaises msg :: _ => (results, Some msg)
  | Visit root files :: rest =>
    match grep_dir pattern extensions root files results with
    | (results', None) => grep_walk pattern extensions rest results'
    | (results', Some e) => (results', Some e)
    end
  end.

(** The results, and what the call logs. *)
Definition grep_files (pattern : str) (extensions : list str)
    : list str * list str :=
  let '(results, e) := grep_walk pattern extensions walk [] in
  (results, logged_error "Error during grep: " e).

(** *** [find_files] *)

Fixpoint find_dir (patterns name_patterns : list str) (root : str)
    (files : list str) (results : list str) : list str :=
  match files with
  | [] => results
  | file :: rest =>
    let filepath := path_join root file in
    if nonempty patterns && matches_any file patterns
    then find_dir patterns name_patterns root rest (results ++ [filepath])
    else if nonempty name_patterns && matches_any file name_patterns
    then find_dir patterns name_patterns root rest (results ++ [filepath])
    else find_dir patterns name_patterns root rest results
  end.

Fixpoint find_walk (patterns name_patterns : list str)
    (events : list walk_event) (results : list str) : list str * option str :=
  match events with
  | [] => (results, None)
  | WalkRaises msg :: _ => (results, Some msg)
  | Visit root files :: rest =>
    find_walk patterns name_patterns rest
      (find_dir patterns name_patterns root files results)
  end.

Definition find_files (patterns name_patterns : list str)
    : list str * list str :=
  let '(results, e) := find_walk patterns name_patterns walk [] in
  (results, logged_error "Error during find: " e).

(** *** [find_and_cat_files] *)

Definition cat_header (filepath : str) : str :=
  txt "=== " ++ filepath ++ txt " ===".

Fixpoint cat_files (files_found : list str) (results : list str) : list str :=
  match files_found with
  | [] => results
  | filepath :: rest =>
    match open_read filepath with
    | ReadOk content =>
      if nonempty (strip content)
      then cat_files rest (results ++ [cat_header filepath; content])
      else cat_files rest results
    | ReadFails _ => cat_files rest results
    end
  end.

Definition find_and_cat_files (name_patterns : list str)
    : list str * list str :=
  let '(files_found, logged) := find_files [] name_patterns in
  (cat_files files_found [], logged).

(** *** [parse_list] *)

Definition parse_list (value : str) : list str :=
  if nonempty value then map strip (split "," value) else [].

(** *** [build_actual_command] *)

Definition name_clause (f : str) : str :=
  txt "-name " ++ [quote] ++ f ++ [quote].

Definition name_flags (items : list str) : str :=
  txt "\( " ++ join (txt " -o ") (map name_clause items) ++ txt " \)".

Definition include_flags (extensions : list str) : str :=
  join (txt " ")
    (map (fun ext => txt "--include=" ++ [quote] ++ ext ++ [quote]) extensions).

Definition build_actual_command (command : str)
    (keywords extensions files : list str) : str :=
  let c1 :=
    if nonempty keywords && contains (txt "KEYWORDS") command
    then replace (txt "KEYWORDS") (join (txt "|") keywords) command
    else command in
  let c2 :=
    if nonempty extensions && contains (txt "EXTENSIONS") c1
    then
      if contains (txt "grep") c1
      then replace (txt "EXTENSIONS") (include_flags extensions) c1
      else if contains (txt "find") c1
      then replace (txt "EXTENSIONS") (name_flags extensions) c1
      else c1
    else c1 in
  if nonempty files && contains (txt "FILES") c2
  then replace (txt "FILES") (name_flags files) c2
  else c2.

(** *** The search of [execute_section]

    The [if]/[elif] chain that picks the search, with the lines it logs. *)
Definition section_search (command : str) (keywords extensions files : list str)
    : list str * list str :=
  if contains (txt "grep") command then
    if nonempty keywords
    then grep_files (join (txt "|") keywords) extensions
    else ([], [])
  else if contains (txt "find") command && contains (txt "-exec cat") command then
    find_and_cat_files (if nonempty files then files else extensions)
  else if contains (txt "find") command then
    if nonempty extensions then find_files extensions []
    else if nonempty files then find_files [] files
    else ([], [])
  else ([], []).


(** The files and names of one run. *)
Variables config_file search_root output_file : str.

(** [datetime.now()] formatted, at its three call sites. *)
Variable now : nat -> str.

(** *** [log] *)
Definition log (message : str) : M unit :=
  when verbose (print message) ;;
  append_file output_file (message ++ [LF]).

(** *** [execute_section] *)
Definition execute_section (section_name command : str)
    (keywords extensions files : list str) : M unit :=
  log (LF :: txt "=== " ++ section_name ++ txt " ===") ;;
  set_example section_name
    (replace (txt "\\") (txt "\")
       (build_actual_command command keywords extensions files)) ;;
  when verbose
    (log (txt "Command template: " ++ command) ;;
     when (nonempty keywords)
       (log (txt "Keywords: " ++ join (txt ", ") keywords)) ;;
     when (nonempty extensions)
       (log (txt "Extensions: " ++ join (txt ", ") extensions)) ;;
     when (nonempty files)
       (log (txt "Files: " ++ join (txt ", ") files))) ;;
  let '(results, logged) := section_search command keywords extensions files in
  for_each log logged ;;
  when verbose (log (LF :: txt "> Running search...")) ;;
  if nonempty results then for_each log results
  else when verbose (log (txt "No matches found")).

(** *** [parse_config] *)

Definition is_header (line : str) : bool :=
  startswith (txt "[") line && endswith (txt "]") line.

(** One iteration of the loop over the lines: [sections] and
    [current_section] before and after. *)
Definition parse_line (st : list section * section) (raw : str)
    : list section * section :=
  let '(sections, current_section) := st in
  let line := rstrip raw in
  if negb (nonempty line) || startswith (txt "#") line then st
  else if is_header line then
    (if dict_nonempty current_section
     then sections ++ [current_section] else sections,
     new_section (slice_1_m1 line))
  else if startswith (txt "Command: ") line then
    (sections, set_command current_section (strip (skipn 9 line)))
  else if startswith (txt "Example: ") line then st
  else if startswith (txt "Keywords: ") line then
    (sections, set_keywords current_section (parse_list (skipn 10 line)))
  else if startswith (txt "Extensions: ") line then
    (sections, set_extensions current_section (parse_list (skipn 12 line)))
  else if startswith (txt "Files: ") line then
    (sections, set_files current_section (parse_list (skipn 7 line)))
  else st.

Definition parse_lines (lines : list str) : list section :=
  let '(sections, current_section) :=
    fold_left parse_line lines ([], empty_dict) in
  if dict_nonempty current_section
  then sections ++ [current_section] else sections.

Definition parse_config_text (text : str) : list section :=
  parse_lines (file_lines text).

Definition parse_config : M (list section) :=
  text ← read_file config_file;
  ret (parse_config_text text).

(** *** [update_config_file] *)

(** One iteration: [temp_config] and [current_section] before and after. *)
Definition update_line (examples : gmap str str)
    (st : list str * option str) (raw : str) : list str * option str :=
  let '(temp_config, current_section) := st in
  let line := rstrip raw in
  if is_header line then (temp_config ++ [line], Some (slice_1_m1 line))
  else if startswith (txt "Example: ") line then
    match current_section ≫= (fun name => examples !! name) with
    | Some example => (temp_config ++ [txt "Example: " ++ example], current_section)
    | None => (temp_config ++ [line], current_section)
    end
  else (temp_config ++ [line], current_section).

Definition update_lines (examples : gmap str str) (lines : list str) : list str :=
  fst (fold_left (update_line examples) lines ([], None)).

Definition update_config_text (examples : gmap str str) (text : str) : str :=
  join [LF] (update_lines examples (file_lines text)) ++ [LF].

Definition update_config_file : M unit :=
  text ← read_file config_file;
  examples ← get_examples;
  write_file config_file (update_config_text examples text).

(** *** [run] *)

Definition rule : str := repeat "="%char 40.

Definition run_section (s : section) : M unit :=
  command ← getitem "command" (s_command s);
  if nonempty command then
    name ← getitem "name" (s_name s);
    keywords ← getitem "keywords" (s_keywords s);
    extensions ← getitem "extensions" (s_extensions s);
    files ← getitem "files" (s_files s);
    execute_section name command keywords extensions files
  else ret tt.

Definition run : M unit :=
  mkdir output_file ;;
  write_file output_file
    (txt "Starting search from: " ++ search_root ++ [LF]
     ++ txt "Config: " ++ config_file ++ [LF]
     ++ txt "Started: " ++ now 0 ++ [LF]
     ++ rule ++ [LF]) ;;
  when verbose
    (print (txt "Starting search from: " ++ search_root) ;;
     print (txt "Config: " ++ config_file) ;;
     print (txt "Started: " ++ now 1) ;;
     print rule) ;;
  sections ← parse_config;
  for_each run_section sections ;;
  log (LF :: rule) ;;
  log (txt "Completed: " ++ now 2) ;;
  update_config_file ;;
  when verbose (print (txt "Config file updated with actual commands")) ;;
  print (txt "Results saved to: " ++ output_file).

(** The state of a freshly constructed scanner that may perform [n]
    effects before it is interrupted. *)
Definition init (files : gmap str str) (n : nat) : world :=
  {| fs := files; section_examples := ∅; trace := []; budget := n |}.


(** *** Declarative readings, to state what the loops compute *)

(** The (directory, file name) pairs the walk yields before it raises. *)
Fixpoint walked (events : list walk_event) : list (str * str) :=
  match events with
  | [] => []
  | WalkRaises _ :: _ => []
  | Visit root files :: rest => map (pair root) files ++ walked rest
  end.

Definition path_of (entry : str * str) : str :=
  path_join (fst entry) (snd entry).

(** Paths of the walked files whose name matches some pattern. *)
Definition found (patterns : list str) : list str :=
  map path_of
    (List.filter (fun entry => matches_any (snd entry) patterns) (walked walk)).

(** Files a content search looks into. *)
Definition candidate (extensions : list str) (entry : str * str) : bool :=
  negb (nonempty extensions) || matches_any (snd entry) extensions.

Definition lines_read (r : read_result) : list str :=
  match r with
  | ReadOk text => file_lines text
  | ReadFails yielded => yielded
  end.

Fixpoint numbered (n : nat) (lines : list str) : list (nat * str) :=
  match lines with
  | [] => []
  | line :: rest => (n, line) :: numbered (S n) rest
  end.

Definition is_matched (r : re_result) : bool :=
  match r with Matched => true | _ => false end.

(** One result per matching line of one file. *)
Definition hits (pattern filepath : str) : list str :=
  map (fun nl => grep_result filepath (fst nl) (snd nl))
    (List.filter (fun nl => is_matched (re_search pattern (snd nl)))
       (numbered 1 (lines_read (open_read filepath)))).

Definition grep_hits (pattern : str) (extensions : list str) : list str :=
  flat_map (fun entry => hits pattern (path_of entry))
    (List.filter (candidate extensions) (walked walk)).

(** What dump mode emits for one path. *)
Definition dump (filepath : str) : list str :=
  match open_read filepath with
  | ReadOk content =>
    if nonempty (strip content) then [cat_header filepath; content] else []
  | ReadFails _ => []
  end.

(** The four search modes of the specification and the marker tests that
    select them. *)
Inductive mode := ContentSearch | LocateAndDump | Locate | NoSearch.

Definition content_marker (command : str) : bool := contains (txt "grep") command.
Definition locate_marker (command : str) : bool := contains (txt "find") command.
Definition dump_marker (command : str) : bool := contains (txt "-exec cat") command.

Definition classify (command : str) : mode :=
  if content_marker command then ContentSearch
  else if locate_marker command && dump_marker command then LocateAndDump
  else if locate_marker command then Locate
  else NoSearch.

Definition search_in_mode (m : mode) (keywords extensions files : list str)
    : list str * list str :=
  match m with
  | ContentSearch =>
    if nonempty keywords
    then grep_files (join (txt "|") keywords) extensions else ([], [])
  | LocateAndDump =>
    find_and_cat_files (if nonempty files then files else extensions)
  | Locate =>
    if nonempty extensions then find_files extensions []
    else if nonempty files then find_files [] files
    else ([], [])
  | NoSearch => ([], [])
  end.

(** The section a line belongs to: the name in the last header line
    above it, if there is one. *)
Definition next_section (current_section : option str) (raw : str) : option str :=
  if is_header (rstrip raw) then Some (slice_1_m1 (rstrip raw))
  else current_section.

Definition section_before (lines : list str) (i : nat) : option str :=
  fold_left next_section (take i lines) None.

(** What the rewrite puts in place of one line. *)
Definition rewrite_line (examples : gmap str str)
    (current_section : option str) (raw : str) : str :=
  let line := rstrip raw in
  if is_header line then line
  else if startswith (txt "Example: ") line then
    match current_section ≫= (fun name => examples !! name) with
    | Some example => txt "Example: " ++ example
    | None => line
    end
  else line.

Fixpoint rewritten (examples : gmap str str) (current_section : option str)
    (lines : list str) : list str :=
  match lines with
  | [] => []
  | raw :: rest =>
    rewrite_line examples current_section raw
    :: rewritten examples (next_section current_section raw) rest
  end.

(** The names in the header lines of a configuration, in file order. *)
Definition header_names (lines : list str) : list str :=
  map slice_1_m1 (List.filter is_header (map rstrip lines)).

Definition key_line (line : str) : bool :=
  startswith (txt "Command: ") line || startswith (txt "Keywords: ") line
  || startswith (txt "Extensions: ") line || startswith (txt "Files: ") line.

(** No key line stands above the first header. *)
Fixpoint stray_free (lines : list str) : bool :=
  match lines with
  | [] => true
  | raw :: rest =>
    let line := rstrip raw in
    if is_header line then true
    else if negb (nonempty line) || startswith (txt "#") line then stray_free rest
    else if key_line line then false
    else stray_free rest
  end.

(** The events that change the configuration file. *)
Definition targets_config (e : event) : bool :=
  match e with
  | EvWrite path _ | EvAppend path _ => bool_decide (path = config_file)
  | _ => false
  end.

Definition config_writes (tr : list event) : list event :=
  List.filter targets_config tr.

Definition is_print (e : event) : bool :=
  match e with EvPrint _ => true | _ => false end.

(** What executing a parsed section records in [section_examples]; a
    section with an empty command is not executed. *)
Definition section_example (examples : gmap str str) (s : section) : gmap str str :=
  match s_command s, s_name s, s_keywords s, s_extensions s, s_files s with
  | Some command, Some name, Some keywords, Some extensions, Some files =>
    if nonempty command
    then <[name := replace (txt "\\") (txt "\")
                     (build_actual_command command keywords extensions files)]>
           examples
    else examples
  | _, _, _, _, _ => examples
  end.

Definition examples_of (sections : list section) : gmap str str :=
  fold_left section_example sections ∅.

(** The header every executed section appends to the report. *)
Definition section_header (name : str) : event :=
  EvAppend output_file ((LF :: txt "=== " ++ name ++ txt " ===") ++ [LF]).

Definition executed (s : section) : list event :=
  match s_command s, s_name s, s_keywords s, s_extensions s, s_files s with
  | Some command, Some name, Some _, Some _, Some _ =>
    if nonempty command then [section_header name] else []
  | _, _, _, _, _ => []
  end.

(** The configuration file is as it was in [files0] and nothing has been
    written to it. *)
Definition config_untouched (files0 : gmap str str) (w : world) : Prop :=
  fs w !! config_file = files0 !! config_file
  /\ config_writes (trace w) = [].

(** The configuration file was written exactly once; before that write
    every section with a command had been executed, the text written is
    the rewrite of the original text with the commands of all of them, and
    after it nothing but console output happened. *)
Definition config_rewritten_last (files0 : gmap str str) (w : world) : Prop :=
  exists cfg,
    files0 !! config_file = Some cfg
    /\ section_examples w = examples_of (parse_config_text cfg)
    /\ fs w !! config_file
       = Some (update_config_text (examples_of (parse_config_text cfg)) cfg)
    /\ exists pre post,
         trace w
         = pre ++ EvWrite config_file
                    (update_config_text (examples_of (parse_config_text cfg)) cfg)
                  :: post
         /\ config_writes pre = []
         /\ incl (flat_map executed (parse_config_text cfg)) pre
         /\ forallb is_print post = true.

(** [holds S P m Q]: started in a state satisfying [P], the computation
    [m] either finishes in a state satisfying [Q] or stops (interrupt or
    exception) in a state satisfying [S]. *)
Definition holds {A : Type} (S P : world -> Prop) (m : M A)
    (Q : A -> world -> Prop) : Prop :=
  forall w, P w ->
    match m w with
    | Done a w' => Q a w'
    | Stopped _ w' => S w'
    end.

(** The assertion that holds between the steps of a run until the rewrite:
    the configuration is untouched, [section_examples] is [examples] and
    the events of [logged] have happened. *)
Definition scanning (files0 : gmap str str) (examples : gmap str str)
    (logged : list event) (w : world) : Prop :=
  config_untouched files0 w
  /\ section_examples w = examples
  /\ incl logged (trace w).

(** One result per line read from a file. *)
Definition all_lines (filepath : str) : list str :=
  map (fun nl => grep_result filepath (fst nl) (snd nl))
    (numbered 1 (lines_read (open_read filepath))).

(** The textual sign of an empty alternative in [kw1|kw2|...]. *)
Definition has_empty_alternative (pattern : str) : Prop :=
  pattern = [] \/ startswith (txt "|") pattern = true
  \/ endswith (txt "|") pattern = true \/ contains (txt "||") pattern = true.

(** A computation is quiet when it keeps the scanning state whatever has
    been recorded so far. *)
Definition quiet_run (files0 : gmap str str) {A : Type} (m : M A) : Prop :=
  forall examples logged,
    holds (config_untouched files0) (scanning files0 examples logged)
      m (fun _ => scanning files0 examples logged).

(** The pattern compiles: searching with it never raises [re.error]. *)
Definition compiles (pattern : str) : Prop :=
  forall line msg, re_search pattern line <> ReError msg.

(** A line without its line feed, the text a result would carry if only
    the newline were stripped. *)
Definition without_newline (line : str) : str :=
  match rev line with
  | c :: r => if Ascii.eqb c LF then rev r else line
  | [] => []
  end.

(** [finishes c P m]: started in a state satisfying [P] with a budget of
    at least [c] effects, the computation [m] runs to its end, and uses at
    most [c] effects. *)
Definition finishes {A : Type} (c : nat) (P : world -> Prop) (m : M A) : Prop :=
  forall w, P w -> c <= budget w ->
    exists a w', m w = Done a w' /\ budget w <= budget w' + c.

(** A section dictionary with all five keys. *)
Definition complete (s : section) : bool :=
  has_key (s_name s) && has_key (s_command s) && has_key (s_keywords s)
  && has_key (s_extensions s) && has_key (s_files s).

(** A bound on the effects of executing one section: two per logged line. *)
Definition section_cost (s : section) : nat :=
  match s_command s, s_keywords s, s_extensions s, s_files s with
  | Some command, Some keywords, Some extensions, Some files =>
    let '(results, logged) := section_search command keywords extensions files in
    14 + 2 * length logged + 2 * length results
  | _, _, _, _ => 0
  end.

Definition run_cost (sections : list section) : nat :=
  15 + list_sum (map section_cost sections).

(** The steps of a run that keep the configuration untouched. *)
Definition keeps_untouched (files0 : gmap str str) {A : Type} (m : M A) : Prop :=
  holds (config_untouched files0) (config_untouched files0) m
    (fun _ => config_untouched files0).

(** *** Readings of name patterns *)

(** A character that [fnmatch.translate] takes literally. *)
Definition plain_char (c : ascii) : bool :=
  negb (Ascii.eqb c "*" || Ascii.eqb c "?" || Ascii.eqb c "[").

(** A name pattern without wildcard or bracket. *)
Definition plain (s : str) : bool := forallb plain_char s.

(** *** Readings of the errors a search logs *)

(** The exception that ends the walk, if it raises. *)
Fixpoint walk_error (events : list walk_event) : option str :=
  match events with
  | [] => None
  | WalkRaises msg :: _ => Some msg
  | Visit _ _ :: rest => walk_error rest
  end.

(** A candidate file of a content search from which a line is read. *)
Definition reads_a_line (extensions : list str) (entry : str * str) : bool :=
  candidate extensions entry
  && nonempty (lines_read (open_read (path_of entry))).

(** The exception that ends a content search whose pattern does not
    compile: [msg], raised at the first line read, unless the walk raises
    before any line is read. *)
Fixpoint broken_search_error (msg : str) (extensions : list str)
    (events : list walk_event) : option str :=
  match events with
  | [] => None
  | WalkRaises walk_msg :: _ => Some walk_msg
  | Visit root files :: rest =>
    if existsb (reads_a_line extensions) (map (pair root) files)
    then Some msg
    else broken_search_error msg extensions rest
  end.

(** *** Readings of configuration lines *)

(** A text without line terminator. *)
Definition newline_free (s : str) : bool :=
  forallb (fun c => negb (Ascii.eqb c LF || Ascii.eqb c CR)) s.

(** A line [parse_config] passes over: blank, a comment, or neither a
    header nor a key line (an [Example: ] line is one of these). *)
Definition passed_over (raw : str) : bool :=
  let line := rstrip raw in
  negb (nonempty line) || startswith (txt "#") line
  || negb (is_header line) && negb (key_line line).

(** No text of a section record holds a line terminator. *)
Definition clean_section (s : section) : bool :=
  from_option newline_free true (s_name s)
  && from_option newline_free true (s_command s)
  && from_option (forallb newline_free) true (s_keywords s)
  && from_option (forallb newline_free) true (s_extensions s)
  && from_option (forallb newline_free) true (s_files s).

(** *** Readings of a run *)

(** [kept Inv m]: the assertion [Inv] holds after [m] when it held
    before, whether [m] finishes or stops. *)
Definition kept (Inv : world -> Prop) {A : Type} (m : M A) : Prop :=
  holds Inv Inv m (fun _ => Inv).

(** The events that concern the report, the configuration file or the
    console. *)
Definition own_event (e : event) : bool :=
  match e with
  | EvMkdir path => bool_decide (path = output_file)
  | EvPrint _ => true
  | EvRead path => bool_decide (path = config_file)
  | EvWrite path _ =>
    bool_decide (path = output_file) || bool_decide (path = config_file)
  | EvAppend path _ => bool_decide (path = output_file)
  end.

(** Nothing but such events has happened, and every file other than the
    report and the configuration is as it was in [files0]. *)
Definition touched_own_files_only (files0 : gmap str str) (w : world) : Prop :=
  forallb own_event (trace w) = true
  /\ forall path,
       path <> output_file -> path <> config_file ->
       fs w !! path = files0 !! path.

(** What has been printed. *)
Definition printed (w : world) : list event := List.filter is_print (trace w).

(** *** Readings of the report *)

(** The lines [execute_section] logs, in the order it logs them. *)
Definition section_log (section_name command : str)
    (keywords extensions files : list str) : list str :=
  let '(results, logged) := section_search command keywords extensions files in
  [LF :: txt "=== " ++ section_name ++ txt " ==="]
  ++ (if verbose
      then [txt "Command template: " ++ command]
           ++ (if nonempty keywords
               then [txt "Keywords: " ++ join (txt ", ") keywords] else [])
           ++ (if nonempty extensions
               then [txt "Extensions: " ++ join (txt ", ") extensions] else [])
           ++ (if nonempty files
               then [txt "Files: " ++ join (txt ", ") files] else [])
      else [])
  ++ logged
  ++ (if verbose then [LF :: txt "> Running search..."] else [])
  ++ (if nonempty results then results
      else if verbose then [txt "No matches found"] else []).

(** The lines a section record adds to the report: none when its command
    is empty. *)
Definition section_report (s : section) : list str :=
  match s_command s, s_name s, s_keywords s, s_extensions s, s_files s with
  | Some command, Some name, Some keywords, Some extensions, Some files =>
    if nonempty command
    then section_log name command keywords extensions files else []
  | _, _, _, _, _ => []
  end.

(** The four lines [run] writes when it creates the report. *)
Definition report_header : str :=
  txt "Starting search from: " ++ search_root ++ [LF]
  ++ txt "Config: " ++ config_file ++ [LF]
  ++ txt "Started: " ++ now 0 ++ [LF]
  ++ rule ++ [LF].

(** [log] ends every message with a line feed. *)
Definition report_lines (messages : list str) : str :=
  concat (map (fun message => message ++ [LF]) messages).

(** Everything a run over the configuration text [cfg] logs. *)
Definition planned_lines (cfg : str) : list str :=
  flat_map section_report (parse_config_text cfg)
  ++ [LF :: rule; txt "Completed: " ++ now 2].

(** The report holds the header and the lines of [done]. *)
Definition report_is (done : list str) (w : world) : Prop :=
  fs w !! output_file = Some (report_header ++ report_lines done).

Definition scanning_report (files0 : gmap str str) (done : list str)
    (w : world) : Prop :=
  report_is done w /\ fs w !! config_file = files0 !! config_file.

(** The report holds the header and the first lines of [total]. *)
Definition cut_short (total : list str) (w : world) : Prop :=
  exists done, done `prefix_of` total /\ report_is done w.

(** [writes files0 total m l]: [m] adds the lines [l] to the report and
    leaves the configuration alone; when it stops, the report holds some
    of the first lines of [total]. *)
Definition writes (files0 : gmap str str) (total : list str) {A : Type}
    (m : M A) (l : list str) : Prop :=
  forall done,
    (done ++ l) `prefix_of` total ->
    holds (cut_short total) (scanning_report files0 done) m
      (fun _ => scanning_report files0 (done ++ l)).

(** The name and the resolved command [execute_section] records for a
    section record that [run] executes. *)
Definition recorded (s : section) : option (str * str) :=
  match s_command s, s_name s, s_keywords s, s_extensions s, s_files s with
  | Some command, Some name, Some keywords, Some extensions, Some files =>
    if nonempty command
    then Some (name,
               replace (txt "\\") (txt "\")
                 (build_actual_command command keywords extensions files))
    else None
  | _, _, _, _, _ => None
  end.

(** The command recorded for the section, when it is named [name]. *)
Definition recorded_for (name : str) (s : section) : option str :=
  match recorded s with
  | Some (n, example) => if bool_decide (n = name) then Some example else None
  | None => None
  end.

(** A record that [run] cannot execute: it has no name, and its command
    is missing or not empty, so reading one of the two keys fails. *)
Definition nameless (s : section) : Prop :=
  s_name s = None
  /\ dict_nonempty s = true
  /\ (s_command s = None
      \/ exists command, s_command s = Some command /\ nonempty command = true).

(** The state of the parser once a key line has been read above the first
    header: the nameless record is the current one or the first one. *)
Definition nameless_first (st : list section * section) : Prop :=
  (fst st = [] /\ nameless (snd st))
  \/ exists s rest, fst st = s :: rest /\ nameless s.

(** *** [main]

    [main] is modelled from the parsed arguments on: [args.config],
    [args.root], [args.output] and [args.verbose] are the parameters
    [config_file], [search_root], [output_file] and [verbose] of the
    scanner. The value of [main] is the exit status of the program: 1
    where the source calls [sys.exit(1)], 0 where [main] returns. An
    interrupt that is not caught shows as a stopped computation. *)

(** [Path(args.root).exists()] and [Path(args.root).is_dir()]. *)
Variables root_exists root_is_dir : bool.

(** [str(e)] for an exception [e] of the run. *)
Variable str_of_exception : str -> str.

(** [Path(args.config).exists()]: the store has the file. *)
Definition config_exists : M bool :=
  fun w => Done (has_key (fs w !! config_file)) w.

(** The [print] of the [except KeyboardInterrupt] clause. The interrupt
    has been delivered when the clause runs, so the budget plays no part. *)
Definition print_interrupted (msg : str) : M unit :=
  fun w =>
    Done tt {| fs := fs w; section_examples := section_examples w;
               trace := trace w ++ [EvPrint msg]; budget := budget w |}.

Definition main : M nat :=
  if negb root_exists then
    print (txt "Error: Search root directory does not exist: " ++ search_root) ;;
    ret 1
  else if negb root_is_dir then
    print (txt "Error: Search root is not a directory: " ++ search_root) ;;
    ret 1
  else
    present ← config_exists;
    if negb present then
      print (txt "Config file not found: " ++ config_file) ;;
      print (txt "Run 'python filescanner.py --help' for usage information") ;;
      ret 1
    else
      fun w =>
        match run w with
        | Done _ w' => Done 0 w'
        | Stopped Interrupted w' =>
          (print_interrupted (LF :: LF :: txt "Scan interrupted by user") ;;
           ret 1) w'
        | Stopped (Raised exc) w' =>
          (print (LF :: txt "Error during scan: " ++ str_of_exception exc) ;;
           ret 1) w'
        end.

(** A header line and the lines below it up to the next header. *)
Definition is_block (b : str * list str) : bool :=
  is_header (rstrip (fst b))
  && forallb (fun raw => negb (is_header (rstrip raw))) (snd b).

(** The record of one block: the lines below the header, read one after
    the other into the record the header creates. *)
Definition block_record (b : str * list str) : section :=
  snd (fold_left parse_line (snd b)
         ([], new_section (slice_1_m1 (rstrip (fst b))))).

(** *** Readings of keywords *)

(** A character that stands for itself in a pattern: it is none of the
    characters with a meaning in the fragment or beyond it. *)
Definition literal_char (c : ascii) : bool :=
  negb (existsb (Ascii.eqb c) (txt "()|.") || beyond_fragment c).

(** A keyword that is searched for as it is written. *)
Definition literal (k : str) : bool := forallb literal_char k.

(** The keyword occurs in the line, letters compared without case. *)
Definition occurs_in (line k : str) : bool := contains (lower k) (lower line).

(** The expression a literal keyword is parsed to. *)
Definition chars (k : str) : regex :=
  fold_left (fun r c => Seq r (Chr c)) k Eps.

(** ** Properties *)

(** *** Mode selection *)

(** C4: the search [execute_section] runs is the one of exactly one of the
    four modes, chosen by testing the content-search marker first, then
    the locate marker together with the dump marker, then the locate
    marker alone; a template with both the content-search and the locate
    marker is searched in content-search mode. *)
Theorem section_search_by_mode :
  forall command keywords extensions files,
    section_search command keywords extensions files
    = search_in_mode (classify command) keywords extensions files
    /\ (classify command = ContentSearch <-> content_marker command = true)
    /\ (classify command = LocateAndDump <->
        content_marker command = false /\ locate_marker command = true
        /\ dump_marker command = true)
    /\ (classify command = Locate <->
        content_marker command = false /\ locate_marker command = true
        /\ dump_marker command = false)
    /\ (classify command = NoSearch <->
        content_marker command = false /\ locate_marker command = false)
    /\ (content_marker command = true -> locate_marker command = true ->
        section_search command keywords extensions files
        = if nonempty keywords
          then grep_files (join (txt "|") keywords) extensions else ([], [])).
Proof.
  intros command keywords extensions files.
  unfold section_search, classify, content_marker, locate_marker, dump_marker.
  destruct (contains (txt "grep") command) eqn:Hg;
    destruct (contains (txt "find") command) eqn:Hf;
    destruct (contains (txt "-exec cat") command) eqn:Hc;
    cbn [andb search_in_mode];
    repeat split; intros; try discriminate; try reflexivity;
    repeat match goal with H : _ /\ _ |- _ => destruct H end;
    try discriminate.
Qed.

(** *** What the loops compute *)

Lemma matches_any_guard (file : str) (patterns : list str) :
  nonempty patterns && matches_any file patterns = matches_any file patterns.
Proof. destruct patterns; reflexivity. Qed.

Lemma find_dir_spec patterns name_patterns root files results :
  find_dir patterns name_patterns root files results
  = results ++ map (path_join root)
      (List.filter (fun file => matches_any file patterns
                                || matches_any file name_patterns) files).
Proof.
  revert results. induction files as [|file rest IH]; intros results; cbn.
  - now rewrite app_nil_r.
  - rewrite !matches_any_guard.
    destruct (matches_any file patterns); cbn.
    + rewrite IH, <- app_assoc. reflexivity.
    + destruct (matches_any file name_patterns); cbn.
      * rewrite IH, <- app_assoc. reflexivity.
      * apply IH.
Qed.

Lemma filter_map_pair {A B : Type} (f : B -> bool) (a : A) (l : list B) :
  List.filter (fun e : A * B => f (snd e)) (map (pair a) l)
  = map (pair a) (List.filter f l).
Proof.
  induction l as [|x l IH]; cbn; [reflexivity|].
  destruct (f x); cbn; now rewrite IH.
Qed.

Lemma find_walk_spec patterns name_patterns events results :
  fst (find_walk patterns name_patterns events results)
  = results ++ map path_of
      (List.filter (fun entry => matches_any (snd entry) patterns
                                 || matches_any (snd entry) name_patterns)
         (walked events)).
Proof.
  revert results. induction events as [|ev rest IH]; intros results; cbn.
  - now rewrite app_nil_r.
  - destruct ev as [root files|msg]; cbn.
    + rewrite IH, find_dir_spec, List.filter_app, map_app, <- app_assoc.
      do 2 f_equal.
      rewrite (filter_map_pair
                 (fun file => matches_any file patterns
                              || matches_any file name_patterns)).
      rewrite map_map. reflexivity.
    + now rewrite app_nil_r.
Qed.

Lemma fst_find_files patterns name_patterns :
  fst (find_files patterns name_patterns)
  = map path_of
      (List.filter (fun entry => matches_any (snd entry) patterns
                                 || matches_any (snd entry) name_patterns)
         (walked walk)).
Proof.
  unfold find_files.
  pose proof (find_walk_spec patterns name_patterns walk []) as H.
  destruct (find_walk patterns name_patterns walk []) as [results e].
  exact H.
Qed.

Lemma fst_find_files_names name_patterns :
  fst (find_files [] name_patterns) = found name_patterns.
Proof. rewrite fst_find_files. reflexivity. Qed.

Lemma fst_find_files_patterns patterns :
  fst (find_files patterns []) = found patterns.
Proof.
  rewrite fst_find_files. unfold found. f_equal.
  apply List.filter_ext. intros entry. cbn. now rewrite orb_false_r.
Qed.

Lemma cat_files_spec files_found results :
  cat_files files_found results = results ++ flat_map dump files_found.
Proof.
  revert results.
  induction files_found as [|filepath rest IH]; intros results; cbn.
  - now rewrite app_nil_r.
  - unfold dump at 1. destruct (open_read filepath) as [content|yielded].
    + destruct (nonempty (strip content)).
      * rewrite IH, <- app_assoc. reflexivity.
      * apply IH.
    + apply IH.
Qed.

Lemma fst_find_and_cat_files name_patterns :
  fst (find_and_cat_files name_patterns) = flat_map dump (found name_patterns).
Proof.
  unfold find_and_cat_files.
  pose proof (fst_find_files_names name_patterns) as H.
  destruct (find_files [] name_patterns) as [files_found logged].
  cbn in *. subst. apply (cat_files_spec _ []).
Qed.

Lemma grep_lines_spec pattern filepath :
  compiles pattern ->
  forall lines line_num results,
    grep_lines pattern filepath line_num lines results
    = (results ++
         map (fun nl => grep_result filepath (fst nl) (snd nl))
           (List.filter (fun nl => is_matched (re_search pattern (snd nl)))
              (numbered line_num lines)),
       None).
Proof.
  intros Hc. induction lines as [|line rest IH]; intros line_num results; cbn.
  - now rewrite app_nil_r.
  - destruct (re_search pattern line) as [| |msg] eqn:Hs; cbn.
    + rewrite IH, <- app_assoc. reflexivity.
    + apply IH.
    + exfalso. exact (Hc _ _ Hs).
Qed.

Lemma grep_file_spec pattern filepath results :
  compiles pattern ->
  grep_file pattern filepath results = (results ++ hits pattern filepath, None).
Proof.
  intros Hc. unfold grep_file, hits.
  destruct (open_read filepath); apply grep_lines_spec; assumption.
Qed.

Lemma grep_dir_spec pattern extensions root :
  compiles pattern ->
  forall files results,
    grep_dir pattern extensions root files results
    = (results ++
         flat_map (fun entry => hits pattern (path_of entry))
           (List.filter (candidate extensions) (map (pair root) files)),
       None).
Proof.
  intros Hc. induction files as [|file rest IH]; intros results; cbn.
  - now rewrite app_nil_r.
  - unfold candidate at 1. cbn [snd].
    destruct (nonempty extensions); cbn [negb andb orb].
    + destruct (matches_any file extensions); cbn [negb].
      * rewrite grep_file_spec by assumption.
        rewrite IH. cbn. now rewrite <- app_assoc.
      * apply IH.
    + rewrite grep_file_spec by assumption.
      rewrite IH. cbn. now rewrite <- app_assoc.
Qed.

Lemma grep_walk_spec pattern extensions :
  compiles pattern ->
  forall events results,
    fst (grep_walk pattern extensions events results)
    = results ++
        flat_map (fun entry => hits pattern (path_of entry))
          (List.filter (candidate extensions) (walked events)).
Proof.
  intros Hc. induction events as [|ev rest IH]; intros results; cbn.
  - now rewrite app_nil_r.
  - destruct ev as [root files|msg]; cbn.
    + rewrite grep_dir_spec by assumption.
      rewrite IH, List.filter_app, flat_map_app, <- app_assoc. reflexivity.
    + now rewrite app_nil_r.
Qed.

Lemma fst_grep_files pattern extensions :
  compiles pattern ->
  fst (grep_files pattern extensions) = grep_hits pattern extensions.
Proof.
  intros Hc. unfold grep_files.
  pose proof (grep_walk_spec pattern extensions Hc walk []) as H.
  destruct (grep_walk pattern extensions walk []) as [results e].
  exact H.
Qed.

(** The content search, when the pattern does not compile: the first
    search raises, nothing is appended. *)
Lemma grep_lines_error pattern filepath msg :
  re_compile pattern = inl msg ->
  forall lines line_num results,
    exists e, grep_lines pattern filepath line_num lines results = (results, e).
Proof.
  intros H lines line_num results. destruct lines as [|line rest]; cbn [grep_lines].
  - now exists None.
  - unfold re_search. rewrite H. now exists (Some msg).
Qed.

Lemma grep_dir_error pattern extensions root msg :
  re_compile pattern = inl msg ->
  forall files results,
    fst (grep_dir pattern extensions root files results) = results.
Proof.
  intros H. induction files as [|file rest IH]; intros results; cbn [grep_dir];
    [reflexivity|].
  destruct (nonempty extensions && negb (matches_any file extensions));
    [apply IH|].
  unfold grep_file.
  destruct (open_read (path_join root file)) as [text|yielded].
  - destruct (grep_lines_error pattern (path_join root file) msg H
                (file_lines text) 1 results) as [[e|] ->]; [reflexivity|apply IH].
  - destruct (grep_lines_error pattern (path_join root file) msg H
                yielded 1 results) as [[e|] ->]; [reflexivity|apply IH].
Qed.

Lemma grep_walk_error pattern extensions msg :
  re_compile pattern = inl msg ->
  forall events results,
    fst (grep_walk pattern extensions events results) = results.
Proof.
  intros H. induction events as [|ev rest IH]; intros results; cbn [grep_walk];
    [reflexivity|].
  destruct ev as [root files|msg']; [|reflexivity].
  pose proof (grep_dir_error pattern extensions root msg H files results) as Hd.
  destruct (grep_dir pattern extensions root files results) as [r [e|]];
    cbn in Hd; subst r; [reflexivity|apply IH].
Qed.

Lemma hits_error pattern filepath msg :
  re_compile pattern = inl msg -> hits pattern filepath = [].
Proof.
  intros H. unfold hits.
  induction (numbered 1 (lines_read (open_read filepath))) as [|nl l IH];
    cbn; [reflexivity|].
  unfold re_search at 1. rewrite H. exact IH.
Qed.

Lemma compiles_inr pattern search :
  re_compile pattern = inr search -> compiles pattern.
Proof.
  intros H line msg. unfold re_search. rewrite H.
  destruct (search line); discriminate.
Qed.

Lemma fst_grep_files_hits pattern extensions :
  fst (grep_files pattern extensions) = grep_hits pattern extensions.
Proof.
  destruct (re_compile pattern) as [msg|search] eqn:H.
  - unfold grep_files.
    pose proof (grep_walk_error pattern extensions msg H walk []) as Hw.
    destruct (grep_walk pattern extensions walk []) as [results e].
    cbn in Hw |- *. subst results. unfold grep_hits.
    induction (List.filter (candidate extensions) (walked walk)) as [|entry l IH];
      cbn; [reflexivity|].
    now rewrite (hits_error pattern (path_of entry) msg H).
  - apply fst_grep_files. eapply compiles_inr, H.
Qed.

(** *** Locate mode *)

(** C2 (amended): in locate mode with [extensions] empty and [files]
    non-empty, the results are the paths of the walked files whose name
    matches at least one of the [files] patterns, in walk order: such a
    file is emitted once each time the walk yields it, however many
    patterns match it, and nothing is removed from the list afterwards. *)
Theorem locate_by_files_emits_each_match_once :
  forall command keywords files,
    content_marker command = false ->
    locate_marker command = true ->
    dump_marker command = false ->
    files <> [] ->
    fst (section_search command keywords [] files) = found files
    /\ length (fst (section_search command keywords [] files))
       = length (List.filter (fun entry => matches_any (snd entry) files)
                   (walked walk)).
Proof.
  intros command keywords files Hg Hf Hc Hne.
  assert (fst (section_search command keywords [] files) = found files) as E.
  { unfold section_search.
    unfold content_marker, locate_marker, dump_marker in *.
    rewrite Hg, Hf, Hc. cbn.
    destruct files as [|f fs']; [congruence|]. cbn [nonempty].
    apply fst_find_files_names. }
  split; [exact E|].
  rewrite E. unfold found. apply length_map.
Qed.

(** *** Content search *)


(** *** Dump mode *)

(** C7: in locate-and-dump mode the name patterns are [files] when that
    list is non-empty and [extensions] otherwise; every matched file whose
    content is not empty after trimming contributes the header line
    [=== path ===] followed by its raw content, and a matched file whose
    trimmed content is empty contributes nothing. *)
Theorem dump_mode_results :
  forall command keywords extensions files,
    content_marker command = false ->
    locate_marker command = true ->
    dump_marker command = true ->
    fst (section_search command keywords extensions files)
    = flat_map dump (found (if nonempty files then files else extensions))
    /\ (forall filepath content,
          open_read filepath = ReadOk content ->
          (strip content <> [] ->
           dump filepath = [txt "=== " ++ filepath ++ txt " ==="; content])
          /\ (strip content = [] -> dump filepath = [])).
Proof.
  intros command keywords extensions files Hg Hf Hc.
  unfold content_marker, locate_marker, dump_marker in *.
  split.
  - unfold section_search. rewrite Hg, Hf, Hc. cbn.
    apply fst_find_and_cat_files.
  - intros filepath content Hr. unfold dump. rewrite Hr.
    split; intros Hs.
    + destruct (strip content); [congruence|reflexivity].
    + rewrite Hs. reflexivity.
Qed.

(** *** Errors *)

Lemma grep_walk_raises pattern extensions msg post :
  forall pre results,
    fst (grep_walk pattern extensions (pre ++ WalkRaises msg :: post) results)
    = fst (grep_walk pattern extensions pre results).
Proof.
  induction pre as [|ev pre IH]; intros results; cbn; [reflexivity|].
  destruct ev as [root files|msg']; [|reflexivity].
  destruct (grep_dir pattern extensions root files results) as [r [e|]];
    [reflexivity|apply IH].
Qed.

Lemma find_walk_raises patterns name_patterns msg post :
  forall pre results,
    fst (find_walk patterns name_patterns (pre ++ WalkRaises msg :: post) results)
    = fst (find_walk patterns name_patterns pre results).
Proof.
  induction pre as [|ev pre IH]; intros results; cbn; [reflexivity|].
  destruct ev as [root files|msg']; [apply IH|reflexivity].
Qed.

(** C9: when opening or reading a file raises a permission or I/O error,
    content search keeps what the lines read so far produced and goes on
    with the next file of the directory, and dump mode goes on with the
    next path, so only that file is skipped; when the traversal itself
    raises, the walk ends and the search functions return the results
    collected before that point. *)
Theorem io_errors_skip_the_file_only :
  forall pattern extensions root file rest results yielded,
    open_read (path_join root file) = ReadFails yielded ->
    (yielded = [] ->
     grep_dir pattern extensions root (file :: rest) results
     = grep_dir pattern extensions root rest results)
    /\ (compiles pattern ->
        grep_dir pattern extensions root (file :: rest) results
        = grep_dir pattern extensions root rest
            (results ++
               if candidate extensions (root, file)
               then hits pattern (path_join root file) else []))
    /\ (forall paths collected,
          cat_files (path_join root file :: paths) collected
          = cat_files paths collected)
    /\ (forall pre msg post collected,
          fst (grep_walk pattern extensions (pre ++ WalkRaises msg :: post) collected)
          = fst (grep_walk pattern extensions pre collected))
    /\ (forall patterns name_patterns pre msg post collected,
          fst (find_walk patterns name_patterns (pre ++ WalkRaises msg :: post) collected)
          = fst (find_walk patterns name_patterns pre collected)).
Proof.
  intros pattern extensions root file rest results yielded Hr.
  repeat split.
  - intros ->. cbn. unfold grep_file. rewrite Hr. cbn.
    destruct (nonempty extensions && negb (matches_any file extensions));
      reflexivity.
  - intros Hc. cbn. unfold candidate. cbn [snd].
    destruct (nonempty extensions); cbn [negb andb orb].
    + destruct (matches_any file extensions); cbn [negb].
      * now rewrite grep_file_spec.
      * now rewrite app_nil_r.
    + now rewrite grep_file_spec.
  - intros paths collected. cbn. rewrite Hr. reflexivity.
  - intros. apply grep_walk_raises.
  - intros. apply find_walk_raises.
Qed.

(** *** Rewriting the configuration *)

Lemma update_lines_fold examples :
  forall lines temp_config current_section,
    fold_left (update_line examples) lines (temp_config, current_section)
    = (temp_config ++ rewritten examples current_section lines,
       fold_left next_section lines current_section).
Proof.
  induction lines as [|raw rest IH]; intros temp_config current_section.
  - cbn. now rewrite app_nil_r.
  - cbn [fold_left rewritten].
    unfold update_line at 2. unfold rewrite_line, next_section.
    destruct (is_header (rstrip raw)).
    + rewrite IH, <- app_assoc. reflexivity.
    + destruct (startswith (txt "Example: ") (rstrip raw)).
      * destruct (current_section ≫= (fun name => examples !! name));
          rewrite IH, <- app_assoc; reflexivity.
      * rewrite IH, <- app_assoc. reflexivity.
Qed.

Lemma update_lines_rewritten examples lines :
  update_lines examples lines = rewritten examples None lines.
Proof. unfold update_lines. now rewrite update_lines_fold. Qed.

Lemma rewritten_lookup examples :
  forall (lines : list str) current_section (i : nat) (raw : str),
    lines !! i = Some raw ->
    rewritten examples current_section lines !! i
    = Some (rewrite_line examples
              (fold_left next_section (take i lines) current_section) raw).
Proof.
  induction lines as [|l rest IH]; intros current_section i raw Hi.
  - discriminate.
  - destruct i as [|i]; cbn in *.
    + congruence.
    + apply IH. exact Hi.
Qed.

Lemma length_rewritten examples :
  forall lines current_section,
    length (rewritten examples current_section lines) = length lines.
Proof. induction lines; intros; cbn; auto. Qed.

Lemma rstrip_clean_line raw :
  rstrip (without_newline raw) = without_newline raw ->
  rstrip raw = without_newline raw.
Proof.
  unfold without_newline, rstrip.
  destruct (rev raw) as [|c r] eqn:E; [reflexivity|].
  destruct (Ascii.eqb c LF) eqn:Hc; [|now rewrite E].
  apply Ascii.eqb_eq in Hc. subst c. rewrite rev_involutive.
  intros H. cbn [lstrip]. exact H.
Qed.


(** *** Parsing the configuration *)

Lemma is_header_not_skipped line :
  is_header line = true ->
  negb (nonempty line) || startswith (txt "#") line = false.
Proof.
  unfold is_header. intros H. apply andb_true_iff in H as [H _].
  destruct line as [|c t]; [discriminate H|].
  change (txt "[") with ["["%char] in H. change (txt "#") with ["#"%char].
  cbn [startswith nonempty negb orb] in *.
  rewrite andb_true_r in *. apply Ascii.eqb_eq in H. now subst c.
Qed.

Lemma parse_line_header sections current_section raw :
  is_header (rstrip raw) = true ->
  parse_line (sections, current_section) raw
  = (if dict_nonempty current_section
     then sections ++ [current_section] else sections,
     new_section (slice_1_m1 (rstrip raw))).
Proof.
  intros Hh. unfold parse_line.
  rewrite (is_header_not_skipped _ Hh), Hh. reflexivity.
Qed.

Lemma parse_line_inside sections current_section raw :
  is_header (rstrip raw) = false ->
  exists current_section',
    parse_line (sections, current_section) raw = (sections, current_section')
    /\ s_name current_section' = s_name current_section.
Proof.
  intros Hh. unfold parse_line. rewrite Hh.
  repeat match goal with
         | |- context [if ?b then _ else _] => destruct b
         end; eexists; split; reflexivity.
Qed.

Lemma parse_fold_named :
  forall lines sections current_section name,
    s_name current_section = Some name ->
    exists sections' current_section' name',
      fold_left parse_line lines (sections, current_section)
      = (sections', current_section')
      /\ s_name current_section' = Some name'
      /\ map s_name (sections' ++ [current_section'])
         = map s_name sections ++ Some name :: map Some (header_names lines).
Proof.
  induction lines as [|raw rest IH]; intros sections current_section name Hn.
  - exists sections, current_section, name. cbn.
    rewrite map_app. cbn. rewrite Hn. auto.
  - cbn [fold_left]. unfold header_names. cbn [map List.filter].
    destruct (is_header (rstrip raw)) eqn:Hh.
    + rewrite (parse_line_header _ _ _ Hh).
      assert (dict_nonempty current_section = true) as ->.
      { unfold dict_nonempty. rewrite Hn. reflexivity. }
      destruct (IH (sections ++ [current_section])
                   (new_section (slice_1_m1 (rstrip raw)))
                   (slice_1_m1 (rstrip raw)) eq_refl)
        as (s' & c' & n' & Hf & Hn' & Hm).
      exists s', c', n'. repeat split; try assumption.
      rewrite Hm, map_app. cbn. rewrite Hn, <- app_assoc. reflexivity.
    + destruct (parse_line_inside sections current_section raw Hh)
        as (c1 & Hp & Hn1).
      rewrite Hp. apply IH. congruence.
Qed.

Lemma parse_fold_stray_free :
  forall lines,
    stray_free lines = true ->
    let '(sections, current_section) :=
      fold_left parse_line lines ([], empty_dict) in
    map s_name (if dict_nonempty current_section
                then sections ++ [current_section] else sections)
    = map Some (header_names lines).
Proof.
  induction lines as [|raw rest IH]; intros Hs; [reflexivity|].
  cbn [fold_left]. cbn [stray_free] in Hs.
  unfold header_names. cbn [map List.filter].
  destruct (is_header (rstrip raw)) eqn:Hh.
  - rewrite (parse_line_header _ _ _ Hh).
    change (dict_nonempty empty_dict) with false. cbn iota.
    destruct (parse_fold_named rest [] (new_section (slice_1_m1 (rstrip raw)))
                (slice_1_m1 (rstrip raw)) eq_refl)
      as (s' & c' & n' & Hf & Hn' & Hm).
    rewrite Hf.
    assert (dict_nonempty c' = true) as ->.
    { unfold dict_nonempty. rewrite Hn'. reflexivity. }
    exact Hm.
  - assert (parse_line ([], empty_dict) raw = ([], empty_dict)) as ->.
    { unfold parse_line. rewrite Hh.
      destruct (negb (nonempty (rstrip raw))
                || startswith (txt "#") (rstrip raw)); [reflexivity|].
      unfold key_line in Hs.
      destruct (startswith (txt "Command: ") (rstrip raw)); [discriminate|].
      destruct (startswith (txt "Example: ") (rstrip raw)); [reflexivity|].
      destruct (startswith (txt "Keywords: ") (rstrip raw)); [discriminate|].
      destruct (startswith (txt "Extensions: ") (rstrip raw)); [discriminate|].
      destruct (startswith (txt "Files: ") (rstrip raw)); [discriminate|].
      reflexivity. }
    apply IH.
    destruct (negb (nonempty (rstrip raw))
              || startswith (txt "#") (rstrip raw)); [assumption|].
    destruct (key_line (rstrip raw)); [discriminate|assumption].
Qed.

(** When no key line stands above the first header, parsing yields one
    record per header line, named after it, in file order; the last
    section is emitted at the end of the input. *)
Lemma parse_lines_one_record_per_header lines :
  stray_free lines = true ->
  map s_name (parse_lines lines) = map Some (header_names lines)
  /\ length (parse_lines lines) = length (header_names lines).
Proof.
  intros Hs.
  assert (map s_name (parse_lines lines) = map Some (header_names lines)) as E.
  { unfold parse_lines. pose proof (parse_fold_stray_free lines Hs) as H.
    destruct (fold_left parse_line lines ([], empty_dict)) as [sections c].
    exact H. }
  split; [exact E|].
  apply (f_equal (@length _)) in E. now rewrite !length_map in E.
Qed.

Lemma parse_line_complete sections current_section raw :
  forallb complete sections = true -> complete current_section = true ->
  forallb complete (fst (parse_line (sections, current_section) raw)) = true
  /\ complete (snd (parse_line (sections, current_section) raw)) = true.
Proof.
  intros Hs Hc. unfold parse_line.
  assert (dict_nonempty current_section = true) as Hd.
  { unfold complete in Hc. unfold dict_nonempty.
    destruct (s_name current_section); [reflexivity|discriminate]. }
  assert (forall v, complete (set_command current_section v) = true) as H1.
  { intros v. unfold complete in *. cbn.
    destruct (s_name current_section), (s_command current_section),
      (s_keywords current_section), (s_extensions current_section),
      (s_files current_section); try discriminate; reflexivity. }
  assert (forall v, complete (set_keywords current_section v) = true) as H2.
  { intros v. unfold complete in *. cbn.
    destruct (s_name current_section), (s_command current_section),
      (s_keywords current_section), (s_extensions current_section),
      (s_files current_section); try discriminate; reflexivity. }
  assert (forall v, complete (set_extensions current_section v) = true) as H3.
  { intros v. unfold complete in *. cbn.
    destruct (s_name current_section), (s_command current_section),
      (s_keywords current_section), (s_extensions current_section),
      (s_files current_section); try discriminate; reflexivity. }
  assert (forall v, complete (set_files current_section v) = true) as H4.
  { intros v. unfold complete in *. cbn.
    destruct (s_name current_section), (s_command current_section),
      (s_keywords current_section), (s_extensions current_section),
      (s_files current_section); try discriminate; reflexivity. }
  rewrite Hd.
  repeat match goal with
         | |- context [if ?b then _ else _] => destruct b
         end; cbn [fst snd]; split; auto.
  rewrite forallb_app, Hs. cbn. now rewrite Hc.
Qed.

Lemma parse_fold_complete :
  forall lines sections current_section,
    forallb complete sections = true -> complete current_section = true ->
    forallb complete (fst (fold_left parse_line lines (sections, current_section)))
    = true
    /\ complete (snd (fold_left parse_line lines (sections, current_section)))
       = true.
Proof.
  induction lines as [|raw rest IH]; intros sections current_section Hs Hc;
    cbn [fold_left]; [auto|].
  destruct (parse_line_complete sections current_section raw Hs Hc) as [H1 H2].
  destruct (parse_line (sections, current_section) raw) as [s' c'].
  now apply IH.
Qed.

(** When no key line stands above the first header, every record has all
    five keys. *)
Lemma parse_lines_complete lines :
  stray_free lines = true -> forallb complete (parse_lines lines) = true.
Proof.
  unfold parse_lines.
  induction lines as [|raw rest IH]; intros Hs; [reflexivity|].
  cbn [fold_left]. cbn [stray_free] in Hs.
  destruct (is_header (rstrip raw)) eqn:Hh.
  - rewrite (parse_line_header _ _ _ Hh).
    change (dict_nonempty empty_dict) with false. cbn iota.
    destruct (parse_fold_complete rest [] (new_section (slice_1_m1 (rstrip raw)))
                eq_refl eq_refl) as [H1 H2].
    destruct (fold_left parse_line rest
                ([], new_section (slice_1_m1 (rstrip raw)))) as [s' c'].
    cbn [fst snd] in *.
    destruct (dict_nonempty c'); [|exact H1].
    rewrite forallb_app, H1. cbn. now rewrite H2.
  - assert (parse_line ([], empty_dict) raw = ([], empty_dict)) as ->.
    { unfold parse_line. rewrite Hh.
      destruct (negb (nonempty (rstrip raw))
                || startswith (txt "#") (rstrip raw)); [reflexivity|].
      unfold key_line in Hs.
      destruct (startswith (txt "Command: ") (rstrip raw)); [discriminate|].
      destruct (startswith (txt "Example: ") (rstrip raw)); [reflexivity|].
      destruct (startswith (txt "Keywords: ") (rstrip raw)); [discriminate|].
      destruct (startswith (txt "Extensions: ") (rstrip raw)); [discriminate|].
      destruct (startswith (txt "Files: ") (rstrip raw)); [discriminate|].
      reflexivity. }
    apply IH.
    destruct (negb (nonempty (rstrip raw))
              || startswith (txt "#") (rstrip raw)); [assumption|].
    destruct (key_line (rstrip raw)); [discriminate|assumption].
Qed.

(** *** The run and the configuration file *)

Lemma holds_ret {A : Type} (S P : world -> Prop) (a : A) (Q : A -> world -> Prop) :
  (forall w, P w -> Q a w) -> holds S P (ret a) Q.
Proof. intros H w Hw. cbn. auto. Qed.

Lemma holds_bind {A B : Type} (S P : world -> Prop) (m : M A) (k : A -> M B)
    (Q : A -> world -> Prop) (R : B -> world -> Prop) :
  holds S P m Q -> (forall a, holds S (Q a) (k a) R) -> holds S P (m ≫= k) R.
Proof.
  intros Hm Hk w Hw. unfold mbind, M_bind, bind.
  specialize (Hm w Hw). destruct (m w) as [a w'|why w'].
  - apply Hk. exact Hm.
  - exact Hm.
Qed.

Lemma holds_weaken {A : Type} (S S' P P' : world -> Prop) (m : M A)
    (Q Q' : A -> world -> Prop) :
  holds S P m Q ->
  (forall w, P' w -> P w) -> (forall a w, Q a w -> Q' a w) ->
  (forall w, S w -> S' w) ->
  holds S' P' m Q'.
Proof.
  intros H HP HQ HS w Hw. specialize (H w (HP w Hw)).
  destruct (m w); auto.
Qed.

Lemma holds_when (S P : world -> Prop) (b : bool) (m : M unit) :
  holds S P m (fun _ => P) -> holds S P (when b m) (fun _ => P).
Proof. intros H. destruct b; [exact H|]. apply holds_ret. auto. Qed.

Lemma holds_for_each {A : Type} (S P : world -> Prop) (f : A -> M unit) (l : list A) :
  (forall x, holds S P (f x) (fun _ => P)) ->
  holds S P (for_each f l) (fun _ => P).
Proof.
  intros H. induction l as [|x rest IH]; cbn [for_each].
  - apply holds_ret. auto.
  - eapply holds_bind; [apply H|]. intros ?. exact IH.
Qed.

Lemma config_writes_snoc tr e :
  config_writes tr = [] -> targets_config e = false ->
  config_writes (tr ++ [e]) = [].
Proof.
  intros Ht He. unfold config_writes in *.
  rewrite List.filter_app, Ht. cbn. now rewrite He.
Qed.

Section Interrupts.

(** The report is not written to the configuration file's path. *)
Hypothesis distinct_paths : output_file <> config_file.

Variable files0 : gmap str str.

Lemma scanning_untouched examples logged w :
  scanning files0 examples logged w -> config_untouched files0 w.
Proof. intros [H _]. exact H. Qed.

(** An effect that leaves the configuration file alone keeps the run in
    its scanning state and is recorded. *)
Lemma effect_scanning examples logged e f :
  targets_config e = false ->
  (forall m : gmap str str, f m !! config_file = m !! config_file) ->
  holds (config_untouched files0) (scanning files0 examples logged)
    (effect e f) (fun _ => scanning files0 examples (e :: logged)).
Proof.
  intros He Hf w ((Hfs & Htr) & Hex & Hin). unfold effect.
  destruct (budget w) as [|n]; [split; assumption|].
  repeat split; cbn.
  - rewrite Hf. exact Hfs.
  - apply config_writes_snoc; assumption.
  - exact Hex.
  - intros x [<-|Hx]; apply in_or_app; [right; now left|left; now apply Hin].
Qed.

Local Abbreviation quiet := (quiet_run files0).

Lemma quiet_effect e f :
  targets_config e = false ->
  (forall m : gmap str str, f m !! config_file = m !! config_file) ->
  quiet (effect e f).
Proof.
  intros He Hf examples logged.
  eapply holds_weaken; [apply (effect_scanning examples logged e f He Hf)|..]; auto.
  intros _ w (H1 & H2 & H3). split; [exact H1|split; [exact H2|]].
  eapply incl_tran; [|exact H3]. apply incl_tl, incl_refl.
Qed.

Lemma quiet_print msg : quiet (print msg).
Proof. apply quiet_effect; reflexivity. Qed.

Lemma quiet_mkdir path : quiet (mkdir path).
Proof. apply quiet_effect; reflexivity. Qed.

Lemma report_event_safe (e : event) path text :
  e = EvWrite path text \/ e = EvAppend path text ->
  path = output_file -> targets_config e = false.
Proof.
  intros [->| ->] ->; cbn; apply bool_decide_eq_false; exact distinct_paths.
Qed.

Lemma quiet_write_report text : quiet (write_file output_file text).
Proof.
  apply quiet_effect.
  - eapply report_event_safe; eauto.
  - intros m. apply lookup_insert_ne. exact distinct_paths.
Qed.

Lemma quiet_bind {A B : Type} (m : M A) (k : A -> M B) :
  quiet m -> (forall a, quiet (k a)) -> quiet (m ≫= k).
Proof.
  intros Hm Hk examples logged.
  eapply holds_bind; [apply Hm|]. intros a. apply Hk.
Qed.

Lemma quiet_when b (m : M unit) : quiet m -> quiet (when b m).
Proof. intros H examples logged. apply holds_when, H. Qed.

Lemma quiet_for_each {A : Type} (f : A -> M unit) (l : list A) :
  (forall x, quiet (f x)) -> quiet (for_each f l).
Proof. intros H examples logged. apply holds_for_each. intros x. apply H. Qed.

Lemma quiet_ret {A : Type} (a : A) : quiet (ret a).
Proof. intros examples logged. apply holds_ret. auto. Qed.

(** [log] appends to the report and is recorded. *)
Lemma log_scanning examples logged message :
  holds (config_untouched files0) (scanning files0 examples logged)
    (log message)
    (fun _ => scanning files0 examples
                (EvAppend output_file (message ++ [LF]) :: logged)).
Proof.
  unfold log. eapply holds_bind.
  - apply quiet_when, quiet_print.
  - intros ?; cbn beta. apply effect_scanning.
    + eapply report_event_safe; eauto.
    + intros m. apply lookup_insert_ne. exact distinct_paths.
Qed.

Lemma quiet_log message : quiet (log message).
Proof.
  intros examples logged.
  eapply holds_weaken; [apply (log_scanning examples logged message)|..]; auto.
  intros _ w (H1 & H2 & H3). split; [exact H1|split; [exact H2|]].
  eapply incl_tran; [|exact H3]. apply incl_tl, incl_refl.
Qed.

Ltac quiet_steps :=
  repeat first
    [ apply quiet_log | apply quiet_print | apply quiet_ret
    | apply quiet_when | apply quiet_for_each; intros ?
    | apply quiet_bind; [|intros ?; cbn beta] ].

Lemma execute_section_scanning examples logged name command keywords extensions files :
  holds (config_untouched files0) (scanning files0 examples logged)
    (execute_section name command keywords extensions files)
    (fun _ => scanning files0
                (<[name := replace (txt "\\") (txt "\")
                             (build_actual_command command keywords extensions files)]>
                   examples)
                (section_header name :: logged)).
Proof.
  unfold execute_section.
  eapply holds_bind; [apply log_scanning|]. intros ?; cbn beta.
  eapply holds_bind.
  { intros w ((Hfs & Htr) & Hex & Hin). cbn.
    instantiate (1 := fun _ => scanning files0 _ (section_header name :: logged)).
    cbn. repeat split; cbn; try assumption. now rewrite Hex. }
  intros ?; cbn beta.
  eapply holds_bind.
  { quiet_steps. }
  intros ?; cbn beta.
  destruct (section_search command keywords extensions files) as [results logged'].
  eapply holds_bind; [apply quiet_for_each; intros; apply quiet_log|]. intros ?; cbn beta.
  eapply holds_bind; [apply quiet_when, quiet_log|]. intros ?; cbn beta.
  destruct (nonempty results).
  - apply quiet_for_each. intros. apply quiet_log.
  - apply quiet_when, quiet_log.
Qed.

Lemma scanning_incl examples logged logged' w :
  incl logged' logged ->
  scanning files0 examples logged w -> scanning files0 examples logged' w.
Proof.
  intros Hi (H1 & H2 & H3). split; [exact H1|split; [exact H2|]].
  eapply incl_tran; eassumption.
Qed.

Lemma holds_pure {A : Type} (S P : world -> Prop) (phi : Prop) (m : M A)
    (Q : A -> world -> Prop) :
  (phi -> holds S P m Q) -> holds S (fun w => P w /\ phi) m Q.
Proof. intros H w [Hw Hphi]. apply H; assumption. Qed.

Lemma getitem_scanning {A : Type} examples logged key (v : option A) :
  holds (config_untouched files0) (scanning files0 examples logged)
    (getitem key v)
    (fun a w => scanning files0 examples logged w /\ v = Some a).
Proof.
  intros w Hw. destruct v as [a|]; cbn.
  - split; [exact Hw|reflexivity].
  - eapply scanning_untouched, Hw.
Qed.

Lemma run_section_scanning examples logged s :
  holds (config_untouched files0) (scanning files0 examples logged)
    (run_section s)
    (fun _ => scanning files0 (section_example examples s)
                (executed s ++ logged)).
Proof.
  unfold run_section, section_example, executed.
  eapply holds_bind; [apply getitem_scanning|].
  intros command; cbn beta. apply holds_pure. intros ->.
  destruct (nonempty command) eqn:Hc.
  - eapply holds_bind; [apply getitem_scanning|].
    intros name; cbn beta. apply holds_pure. intros ->.
    eapply holds_bind; [apply getitem_scanning|].
    intros keywords; cbn beta. apply holds_pure. intros ->.
    eapply holds_bind; [apply getitem_scanning|].
    intros extensions; cbn beta. apply holds_pure. intros ->.
    eapply holds_bind; [apply getitem_scanning|].
    intros files; cbn beta. apply holds_pure. intros ->.
    apply execute_section_scanning.
  - apply holds_ret. intros w Hw.
    destruct (s_name s), (s_keywords s), (s_extensions s), (s_files s);
      cbv beta iota; try rewrite Hc; exact Hw.
Qed.

Lemma run_sections_scanning sections :
  forall examples logged,
    holds (config_untouched files0) (scanning files0 examples logged)
      (for_each run_section sections)
      (fun _ => scanning files0 (fold_left section_example sections examples)
                  (flat_map executed sections ++ logged)).
Proof.
  induction sections as [|s rest IH]; intros examples logged; cbn [for_each].
  - apply holds_ret. auto.
  - eapply holds_bind; [apply run_section_scanning|].
    intros ?; cbn beta.
    eapply holds_weaken;
      [apply (IH (section_example examples s) (executed s ++ logged))
      |auto| |auto].
    intros ? w; cbn beta. cbn [fold_left flat_map]. apply scanning_incl.
    intros x Hx. rewrite <- app_assoc in Hx.
    apply in_app_or in Hx as [Hx|Hx]; apply in_or_app.
    + right. apply in_or_app. now left.
    + apply in_app_or in Hx as [Hx|Hx]; [now left|].
      right. apply in_or_app. now right.
Qed.

Lemma read_config_scanning examples logged :
  holds (config_untouched files0) (scanning files0 examples logged)
    (read_file config_file)
    (fun text w => scanning files0 examples logged w
                   /\ files0 !! config_file = Some text).
Proof.
  unfold read_file. eapply holds_bind.
  - apply (quiet_effect (EvRead config_file) id); reflexivity.
  - intros ?; cbn beta. intros w Hw. unfold contents.
    destruct (fs w !! config_file) as [text|] eqn:E.
    + split; [exact Hw|]. destruct Hw as ((Hfs & _) & _). congruence.
    + eapply scanning_untouched, Hw.
Qed.

Lemma parse_config_scanning examples logged :
  holds (config_untouched files0) (scanning files0 examples logged)
    parse_config
    (fun sections w =>
       scanning files0 examples logged w
       /\ exists cfg, files0 !! config_file = Some cfg
                      /\ sections = parse_config_text cfg).
Proof.
  unfold parse_config. eapply holds_bind; [apply read_config_scanning|].
  intros text; cbn beta. apply holds_ret.
  intros w [Hw Hc]. split; [exact Hw|]. exists text. auto.
Qed.

Lemma update_config_file_rewrites cfg logged :
  files0 !! config_file = Some cfg ->
  incl (flat_map executed (parse_config_text cfg)) logged ->
  holds (config_untouched files0)
    (scanning files0 (examples_of (parse_config_text cfg)) logged)
    update_config_file
    (fun _ => config_rewritten_last files0).
Proof.
  intros Hcfg Hlog. unfold update_config_file.
  eapply holds_bind; [apply read_config_scanning|].
  intros text; cbn beta. apply holds_pure. intros Ht.
  assert (text = cfg) as -> by congruence.
  intros w ((Hfs & Htr) & Hex & Hin).
  unfold mbind, M_bind, bind, get_examples, write_file, effect.
  destruct (budget w) as [|n]; [split; assumption|].
  exists cfg. rewrite Hex. cbn.
  repeat split; try assumption.
  - apply lookup_insert_eq.
  - exists (trace w), []. repeat split; try assumption.
    eapply incl_tran; eassumption.
Qed.

Lemma print_after_rewrite msg :
  holds (config_rewritten_last files0) (config_rewritten_last files0)
    (print msg) (fun _ => config_rewritten_last files0).
Proof.
  intros w Hw. unfold print, effect.
  destruct (budget w) as [|n]; [exact Hw|].
  destruct Hw as (cfg & Hcfg & Hex & Hfs & pre & post & Htr & Hpre & Hin & Hpost).
  exists cfg. cbn. repeat split; try assumption.
  exists pre, (post ++ [EvPrint msg]). repeat split; try assumption.
  - rewrite Htr, <- app_assoc. reflexivity.
  - rewrite forallb_app, Hpost. reflexivity.
Qed.

Lemma finishes_ret {A : Type} c P (a : A) : finishes c P (ret a).
Proof. intros w _ _. exists a, w. split; [reflexivity|lia]. Qed.

Lemma finishes_weaken {A : Type} c c' (P P' : world -> Prop) (m : M A) :
  finishes c P m -> c <= c' -> (forall w, P' w -> P w) -> finishes c' P' m.
Proof.
  intros H Hc HP w Hw Hb.
  destruct (H w (HP w Hw) ltac:(lia)) as (a & w' & E & Hb').
  exists a, w'. split; [exact E|lia].
Qed.

Lemma finishes_le {A : Type} c c' (P : world -> Prop) (m : M A) :
  finishes c P m -> c <= c' -> finishes c' P m.
Proof. intros H Hc. eapply finishes_weaken; eauto. Qed.

Lemma finishes_bind {A B : Type} c1 c2 (S P : world -> Prop)
    (Q : A -> world -> Prop) (m : M A) (k : A -> M B) :
  finishes c1 P m -> holds S P m Q ->
  (forall a, finishes c2 (Q a) (k a)) ->
  finishes (c1 + c2) P (m ≫= k).
Proof.
  intros Hm Hh Hk w Hw Hb.
  destruct (Hm w Hw ltac:(lia)) as (a & w' & E & Hb').
  specialize (Hh w Hw). rewrite E in Hh.
  destruct (Hk a w' Hh ltac:(lia)) as (b & w'' & E' & Hb'').
  exists b, w''. unfold mbind, M_bind, bind. rewrite E.
  split; [exact E'|lia].
Qed.

Lemma finishes_effect P e f : finishes 1 P (effect e f).
Proof.
  intros w _ Hb. unfold effect.
  destruct (budget w) as [|n] eqn:E; [lia|].
  eexists tt, _. split; [reflexivity|]. cbn. lia.
Qed.

Lemma finishes_when c P b (m : M unit) : finishes c P m -> finishes c P (when b m).
Proof. intros H. destruct b; [exact H|apply finishes_ret]. Qed.

Lemma holds_trivial {A : Type} P (m : M A) :
  holds (fun _ => True) P m (fun _ _ => True).
Proof. intros w _. destruct (m w); exact I. Qed.

Local Abbreviation keeps := (keeps_untouched files0).

Lemma keeps_scanning {A : Type} (m : M A) :
  (forall examples logged, exists examples' logged',
      holds (config_untouched files0) (scanning files0 examples logged) m
        (fun _ => scanning files0 examples' logged')) ->
  keeps m.
Proof.
  intros H w Hw.
  destruct (H (section_examples w) []) as (examples' & logged' & Hm).
  specialize (Hm w (conj Hw (conj eq_refl (incl_nil_l _)))).
  destruct (m w); [eapply scanning_untouched|]; exact Hm.
Qed.

Lemma keeps_quiet {A : Type} (m : M A) : quiet m -> keeps m.
Proof. intros H. apply keeps_scanning. intros X T. exists X, T. apply H. Qed.

Lemma finishes_step {A B : Type} c1 c2 (m : M A) (k : A -> M B) :
  finishes c1 (config_untouched files0) m -> keeps m ->
  (forall a, finishes c2 (config_untouched files0) (k a)) ->
  finishes (c1 + c2) (config_untouched files0) (m ≫= k).
Proof. intros Hm Hk Hc. eapply finishes_bind; eassumption. Qed.

Lemma finishes_log message :
  finishes 2 (config_untouched files0) (log message).
Proof.
  unfold log. apply (finishes_step 1 1).
  - apply finishes_when, finishes_effect.
  - apply keeps_quiet, quiet_when, quiet_print.
  - intros ?. apply finishes_effect.
Qed.

Lemma finishes_logs (messages : list str) :
  finishes (2 * length messages) (config_untouched files0)
    (for_each log messages).
Proof.
  induction messages as [|message rest IH]; cbn [for_each].
  - apply finishes_ret.
  - apply (finishes_le (2 + 2 * length rest)); [|cbn [length]; lia].
    apply finishes_step; [apply finishes_log|apply keeps_quiet, quiet_log|].
    intros ?. exact IH.
Qed.

Lemma finishes_when_log b message :
  finishes 2 (config_untouched files0) (when b (log message)).
Proof. apply finishes_when, finishes_log. Qed.

Lemma keeps_when_log b message : keeps (when b (log message)).
Proof. apply keeps_quiet, quiet_when, quiet_log. Qed.

Lemma finishes_execute_section name command keywords extensions files :
  finishes
    (14 + 2 * length (snd (section_search command keywords extensions files))
     + 2 * length (fst (section_search command keywords extensions files)))
    (config_untouched files0)
    (execute_section name command keywords extensions files).
Proof.
  unfold execute_section.
  destruct (section_search command keywords extensions files)
    as [results logged] eqn:Hs.
  cbn [fst snd].
  apply (finishes_le (2 + (0 + (8 + (2 * length logged + (2 + (2 * length results + 2))))))); [|lia].
  apply finishes_step; [apply finishes_log|apply keeps_quiet, quiet_log|].
  intros ?; cbn beta.
  apply finishes_step.
  { intros w _ _. eexists tt, _. split; [reflexivity|]. cbn. lia. }
  { intros w Hw. exact Hw. }
  intros ?; cbn beta.
  apply finishes_step.
  { apply finishes_when.
    apply (finishes_step 2 6); [apply finishes_log|apply keeps_quiet, quiet_log|].
    intros ?; cbn beta.
    apply (finishes_step 2 4); [apply finishes_when_log|apply keeps_when_log|].
    intros ?; cbn beta.
    apply (finishes_step 2 2); [apply finishes_when_log|apply keeps_when_log|].
    intros ?; cbn beta. apply finishes_when_log. }
  { apply keeps_quiet. quiet_steps. }
  intros ?; cbn beta.
  apply finishes_step;
    [apply finishes_logs
    |apply keeps_quiet, quiet_for_each; intros ?; apply quiet_log|].
  intros ?; cbn beta.
  apply finishes_step; [apply finishes_when_log|apply keeps_when_log|].
  intros ?; cbn beta.
  destruct (nonempty results).
  - eapply finishes_le; [apply finishes_logs|lia].
  - eapply finishes_le; [apply finishes_when_log|lia].
Qed.

Lemma keeps_run_section s : keeps (run_section s).
Proof.
  apply keeps_scanning. intros X T. eexists _, _. apply run_section_scanning.
Qed.

Lemma finishes_run_section s :
  complete s = true ->
  finishes (section_cost s) (config_untouched files0) (run_section s).
Proof.
  unfold complete, run_section, section_cost. intros Hc.
  destruct (s_name s) as [name|]; [|discriminate].
  destruct (s_command s) as [command|]; [|discriminate].
  destruct (s_keywords s) as [keywords|]; [|discriminate].
  destruct (s_extensions s) as [extensions|]; [|discriminate].
  destruct (s_files s) as [files|]; [|discriminate].
  cbn [getitem].
  change (finishes
            (let '(results, logged) :=
               section_search command keywords extensions files in
             14 + 2 * length logged + 2 * length results)
            (config_untouched files0)
            (if nonempty command
             then execute_section name command keywords extensions files
             else ret tt)).
  pose proof (finishes_execute_section name command keywords extensions files) as H.
  destruct (section_search command keywords extensions files) as [results logged].
  cbn [fst snd] in H.
  destruct (nonempty command); [exact H|apply finishes_ret].
Qed.

Lemma finishes_run_sections sections :
  forallb complete sections = true ->
  finishes (list_sum (map section_cost sections)) (config_untouched files0)
    (for_each run_section sections).
Proof.
  induction sections as [|s rest IH]; intros Hc; cbn [for_each map list_sum].
  - apply finishes_ret.
  - cbn [forallb] in Hc. apply andb_true_iff in Hc as [Hs Hrest].
    apply finishes_step;
      [now apply finishes_run_section|apply keeps_run_section|].
    intros ?. now apply IH.
Qed.

Lemma finishes_read_config cfg :
  files0 !! config_file = Some cfg ->
  finishes 1 (config_untouched files0) (read_file config_file).
Proof.
  intros Hcfg w Hw Hb. unfold read_file, mbind, M_bind, bind, effect.
  destruct (budget w) as [|n] eqn:E; [lia|].
  unfold contents. cbn. destruct Hw as [Hfs _]. rewrite Hfs, Hcfg.
  eexists cfg, _. split; [reflexivity|]. cbn. lia.
Qed.

Lemma finishes_run cfg :
  files0 !! config_file = Some cfg ->
  forallb complete (parse_config_text cfg) = true ->
  finishes (run_cost (parse_config_text cfg)) (config_untouched files0) run.
Proof.
  intros Hcfg Hc. unfold run, run_cost.
  apply (finishes_le (1 + (1 + (4 + (1 + (list_sum (map section_cost (parse_config_text cfg))
                              + (2 + (2 + (2 + (1 + 1)))))))))); [|lia].
  apply finishes_step; [apply finishes_effect|apply keeps_quiet, quiet_mkdir|].
  intros ?; cbn beta.
  apply finishes_step;
    [apply finishes_effect|apply keeps_quiet, quiet_write_report|].
  intros ?; cbn beta.
  apply finishes_step.
  { apply finishes_when.
    apply (finishes_step 1 3);
      [apply finishes_effect|apply keeps_quiet, quiet_print|].
    intros ?; cbn beta.
    apply (finishes_step 1 2);
      [apply finishes_effect|apply keeps_quiet, quiet_print|].
    intros ?; cbn beta.
    apply (finishes_step 1 1);
      [apply finishes_effect|apply keeps_quiet, quiet_print|].
    intros ?; cbn beta. apply finishes_effect. }
  { apply keeps_quiet. quiet_steps. }
  intros ?; cbn beta.
  eapply finishes_bind with
    (Q := fun sections w => config_untouched files0 w
                            /\ sections = parse_config_text cfg).
  { unfold parse_config.
    apply (finishes_le (1 + 0)); [|lia].
    eapply finishes_bind;
      [apply (finishes_read_config cfg Hcfg)|apply holds_trivial|].
    intros text. apply finishes_ret. }
  { intros w Hw.
    pose proof (parse_config_scanning (section_examples w) [] w
                  (conj Hw (conj eq_refl (incl_nil_l _)))) as H.
    destruct (parse_config w) as [sections w'|why w'].
    - destruct H as [Hs (cfg' & Hcfg' & ->)].
      split; [eapply scanning_untouched, Hs|congruence].
    - exact H. }
  intros sections. intros w [Hw ->]. revert w Hw.
  change (finishes
            (list_sum (map section_cost (parse_config_text cfg))
             + (2 + (2 + (2 + (1 + 1)))))
            (config_untouched files0)
            (for_each run_section (parse_config_text cfg) ≫= fun _ =>
             log (LF :: rule) ≫= fun _ =>
             log (txt "Completed: " ++ now 2) ≫= fun _ =>
             update_config_file ≫= fun _ =>
             when verbose (print (txt "Config file updated with actual commands"))
             ≫= fun _ => print (txt "Results saved to: " ++ output_file))).
  apply finishes_step;
    [now apply finishes_run_sections
    |apply keeps_scanning; intros X T; eexists _, _;
     apply run_sections_scanning|].
  intros ?; cbn beta.
  apply finishes_step; [apply finishes_log|apply keeps_quiet, quiet_log|].
  intros ?; cbn beta.
  apply finishes_step; [apply finishes_log|apply keeps_quiet, quiet_log|].
  intros ?; cbn beta.
  eapply finishes_bind with (Q := fun _ _ => True).
  { unfold update_config_file.
    eapply finishes_bind with
      (c1 := 1) (c2 := 1) (Q := fun _ _ => True);
      [apply (finishes_read_config cfg Hcfg)|apply holds_trivial|].
    intros text w _ Hb.
    unfold mbind, M_bind, bind, get_examples, write_file, effect.
    destruct (budget w) as [|n] eqn:E; [lia|].
    eexists tt, _. split; [reflexivity|]. cbn. lia. }
  { apply holds_trivial. }
  intros ?; cbn beta.
  eapply finishes_bind with (Q := fun _ _ => True);
    [apply finishes_when, finishes_effect|apply holds_trivial|].
  intros ?; cbn beta. apply finishes_effect.
Qed.


End Interrupts.

(** *** Keyword lists with an empty element *)

Lemma parse_from_app k :
  forall f stack rest f' stack',
    run_from f stack k = Some (f', stack') ->
    parse_from f stack (k ++ rest) = parse_from f' stack' rest.
Proof.
  induction k as [|c t IH]; intros f stack rest f' stack' H; cbn [run_from] in H.
  - now inversion H.
  - cbn [app parse_from].
    destruct (Ascii.eqb c "("); [now apply IH|].
    destruct (Ascii.eqb c ")").
    { destruct stack as [|parent stack0]; [discriminate|now apply IH]. }
    destruct (Ascii.eqb c "|"); [now apply IH|].
    destruct (Ascii.eqb c "."); [now apply IH|].
    destruct (beyond_fragment c); [discriminate|now apply IH].
Qed.

Lemma parse_from_run k :
  forall f stack r,
    parse_from f stack k = PRegex r ->
    exists f', run_from f stack k = Some (f', []) /\ r = close f'.
Proof.
  induction k as [|c t IH]; intros f stack r H; cbn [run_from parse_from] in H |- *.
  - destruct stack; [|discriminate]. inversion H. eauto.
  - destruct (Ascii.eqb c "("); [now apply IH|].
    destruct (Ascii.eqb c ")").
    { destruct stack as [|parent stack0]; [discriminate|now apply IH]. }
    destruct (Ascii.eqb c "|"); [now apply IH|].
    destruct (Ascii.eqb c "."); [now apply IH|].
    destruct (beyond_fragment c); [discriminate|now apply IH].
Qed.

Lemma under_push_atom A f stack a :
  under A (push_atom f a) stack
  = (push_atom (fst (under A f stack)) a, snd (under A f stack)).
Proof. destruct stack; reflexivity. Qed.

Lemma under_next_branch A f stack :
  under A (next_branch f) stack
  = (next_branch (fst (under A f stack)), snd (under A f stack)).
Proof. destruct stack; reflexivity. Qed.

Lemma under_open A f stack :
  under A empty_frame (f :: stack)
  = (empty_frame, fst (under A f stack) :: snd (under A f stack)).
Proof. destruct stack; reflexivity. Qed.

Lemma under_close A f parent stack a :
  exists p' s',
    snd (under A f (parent :: stack)) = p' :: s'
    /\ fst (under A f (parent :: stack)) = f
    /\ under A (push_atom parent a) stack = (push_atom p' a, s').
Proof.
  destruct stack as [|g rest].
  - exists (extend A parent), []. repeat split.
  - exists parent, (extend_last A (g :: rest)). repeat split.
Qed.

(** Reading [k] below alternatives that are already closed goes through
    the same states. *)
Lemma run_from_under A k :
  forall f stack f' stack',
    run_from f stack k = Some (f', stack') ->
    run_from (fst (under A f stack)) (snd (under A f stack)) k
    = Some (under A f' stack').
Proof.
  induction k as [|c t IH]; intros f stack f' stack' H; cbn [run_from] in H |- *.
  - inversion H. now destruct (under A f' stack').
  - destruct (Ascii.eqb c "(").
    { specialize (IH _ _ _ _ H). now rewrite under_open in IH. }
    destruct (Ascii.eqb c ")").
    { destruct stack as [|parent stack0]; [discriminate|].
      specialize (IH _ _ _ _ H).
      destruct (under_close A f parent stack0 (close f)) as (p' & s' & E1 & E2 & E3).
      rewrite E1, E2. now rewrite E3 in IH. }
    destruct (Ascii.eqb c "|").
    { specialize (IH _ _ _ _ H). now rewrite under_next_branch in IH. }
    destruct (Ascii.eqb c ".").
    { specialize (IH _ _ _ _ H). now rewrite under_push_atom in IH. }
    destruct (beyond_fragment c); [discriminate|].
    specialize (IH _ _ _ _ H). now rewrite under_push_atom in IH.
Qed.

(** The alternation of keywords that each compile on their own compiles
    to a branch list that holds the empty branch of an empty keyword. *)
Lemma parse_alternation keywords :
  keywords <> [] ->
  (forall k, In k keywords -> exists r, parse k = PRegex r) ->
  forall A,
    exists F,
      parse_from (extend A empty_frame) [] (join (txt "|") keywords)
      = PRegex (close F)
      /\ incl A (branches F)
      /\ (In [] keywords -> In Eps (branches F)).
Proof.
  induction keywords as [|k rest IH]; intros Hne Hok A; [congruence|].
  destruct (Hok k (or_introl eq_refl)) as [r Hr].
  destruct (parse_from_run k _ _ _ Hr) as (f' & Hrun & _).
  pose proof (run_from_under A k _ _ _ _ Hrun) as Hu. cbn in Hu.
  assert (k = [] -> cur f' = Eps) as Hempty.
  { intros ->. cbn in Hrun. now inversion Hrun. }
  destruct rest as [|k2 rest'].
  - exists (extend A f'). cbn [join].
    pose proof (parse_from_app k _ _ [] _ _ Hu) as E.
    rewrite List.app_nil_r in E. rewrite E.
    repeat split.
    + intros x Hx. right. cbn. apply in_or_app. now right.
    + intros [Hk|[]]. left. cbn. now apply Hempty.
  - destruct (IH ltac:(discriminate)
                 (fun k' Hk' => Hok k' (or_intror Hk'))
                 (cur f' :: alts f' ++ A)) as (F & HF & HA & HE).
    exists F. cbn [join].
    rewrite (parse_from_app k _ _ _ _ _ Hu).
    change (txt "|" ++ join (txt "|") (k2 :: rest'))
      with ("|"%char :: join (txt "|") (k2 :: rest')).
    cbn [parse_from Ascii.eqb Bool.eqb].
    change (next_branch (extend A f'))
      with (extend (cur f' :: alts f' ++ A) empty_frame).
    repeat split.
    + exact HF.
    + intros x Hx. apply HA. right. apply in_or_app. now right.
    + intros [Hk|Hin]; [|now apply HE].
      apply HA. left. now apply Hempty.
Qed.

Lemma rests_close_branch s :
  forall branch_list acc,
    (rests acc s <> [] \/ exists r, In r branch_list /\ rests r s <> []) ->
    rests (fold_left (fun acc r => Alt r acc) branch_list acc) s <> [].
Proof.
  induction branch_list as [|a rest IH]; intros acc H; cbn.
  - destruct H as [H|(r & [] & _)]. exact H.
  - apply IH. destruct H as [H|(r & [<-|Hin] & Hr)].
    + left. cbn. intros E. apply app_eq_nil in E as [_ E]. auto.
    + left. cbn. intros E. apply app_eq_nil in E as [E _]. auto.
    + right. eauto.
Qed.

Lemma search_regex_empty_branch F line :
  In Eps (branches F) -> search_regex (close F) line = true.
Proof.
  intros H.
  assert (rests (close F) line <> []) as Hr.
  { apply rests_close_branch. destruct H as [H|H].
    - left. rewrite H. discriminate.
    - right. exists Eps. split; [exact H|discriminate]. }
  destruct line; cbn; unfold match_at;
    destruct (rests (close F) _); try congruence; reflexivity.
Qed.

Lemma startswith_split p s :
  startswith p s = true -> exists t, s = p ++ t.
Proof.
  revert s. induction p as [|a p IH]; intros s H; cbn in *.
  - now exists s.
  - destruct s as [|b s]; [discriminate|].
    apply andb_true_iff in H as [Hab Hp].
    apply Ascii.eqb_eq in Hab. subst b.
    destruct (IH s Hp) as [t ->]. now exists t.
Qed.

Lemma startswith_app p t : startswith p (p ++ t) = true.
Proof.
  induction p as [|a p IH]; cbn; [reflexivity|].
  now rewrite Ascii.eqb_refl, IH.
Qed.

Lemma endswith_app p s : endswith p (s ++ p) = true.
Proof. unfold endswith. rewrite rev_app_distr. apply startswith_app. Qed.

Lemma endswith_split p s :
  endswith p s = true -> exists t, s = t ++ p.
Proof.
  unfold endswith. intros H.
  destruct (startswith_split _ _ H) as [t Ht].
  exists (rev t). rewrite <- (rev_involutive s), Ht, rev_app_distr.
  now rewrite rev_involutive.
Qed.

Lemma contains_prefix sub s : startswith sub s = true -> contains sub s = true.
Proof. intros H. destruct s; cbn; rewrite H; reflexivity. Qed.

Lemma contains_app_r sub a b :
  contains sub b = true -> contains sub (a ++ b) = true.
Proof.
  intros H. induction a as [|c a IH]; cbn; [exact H|].
  rewrite IH. apply orb_true_r.
Qed.

Lemma split_not_nil sep s : split sep s <> [].
Proof.
  destruct s as [|c t]; cbn; [discriminate|].
  destruct (Ascii.eqb c sep); [discriminate|].
  destruct (split sep t); discriminate.
Qed.

Lemma split_snoc sep s : split sep (s ++ [sep]) = split sep s ++ [[]].
Proof.
  induction s as [|c t IH]; cbn.
  - now rewrite Ascii.eqb_refl.
  - rewrite IH. destruct (Ascii.eqb c sep); [reflexivity|].
    pose proof (split_not_nil sep t) as Hn.
    destruct (split sep t); [congruence|reflexivity].
Qed.

Lemma split_double sep s :
  contains [sep; sep] s = true -> In [] (tl (split sep s)).
Proof.
  induction s as [|c t IH]; intros H.
  - discriminate.
  - cbn [contains] in H. apply orb_true_iff in H as [H|H].
    + destruct (startswith_split _ _ H) as [u Hu].
      cbn in Hu. inversion Hu; subst. cbn.
      rewrite !Ascii.eqb_refl. cbn. now left.
    + specialize (IH H). cbn [split].
      destruct (Ascii.eqb c sep).
      * cbn. destruct (split sep t); [contradiction|now right].
      * destruct (split sep t); [contradiction|exact IH].
Qed.

Lemma parse_list_empty_element value :
  startswith (txt ",") value = true \/ endswith (txt ",") value = true
  \/ contains (txt ",,") value = true ->
  In [] (parse_list value).
Proof.
  intros H. unfold parse_list.
  assert (In [] (split "," value)) as Hin.
  { destruct H as [H|[H|H]].
    - destruct (startswith_split _ _ H) as [t ->]. cbn. now left.
    - destruct (endswith_split _ _ H) as [t ->].
      change (txt ",") with [","%char]. rewrite split_snoc.
      apply in_or_app. right. now left.
    - apply (split_double ","%char) in H.
      destruct (split "," value); [contradiction|now right]. }
  destruct value as [|c t].
  - destruct H as [H|[H|H]]; discriminate H.
  - cbn [nonempty]. change [] with (strip []). now apply in_map.
Qed.

Lemma join_empty_alternative keywords :
  In [] keywords -> has_empty_alternative (join (txt "|") keywords).
Proof.
  unfold has_empty_alternative.
  induction keywords as [|k rest IH]; intros Hin; [contradiction|].
  destruct rest as [|k2 rest'].
  - destruct Hin as [->|[]]. now left.
  - change (join (txt "|") (k :: k2 :: rest'))
      with (k ++ txt "|" ++ join (txt "|") (k2 :: rest')).
    set (J := join (txt "|") (k2 :: rest')) in *.
    destruct Hin as [->|Hin].
    + right. left. reflexivity.
    + right. right. destruct (IH Hin) as [E|[E|[E|E]]].
      * left. rewrite E, List.app_nil_r. apply endswith_app.
      * right. destruct (startswith_split _ _ E) as [u ->].
        apply contains_app_r, contains_prefix.
        change (txt "|" ++ txt "|" ++ u) with (txt "||" ++ u).
        apply startswith_app.
      * left. destruct (endswith_split _ _ E) as [u ->].
        rewrite !app_assoc. apply endswith_app.
      * right. rewrite app_assoc. now apply contains_app_r.
Qed.

Lemma filter_all {A : Type} (f : A -> bool) (l : list A) :
  (forall x, f x = true) -> List.filter f l = l.
Proof.
  intros H. induction l as [|x l IH]; cbn; [reflexivity|].
  now rewrite H, IH.
Qed.

Section Fragment.

(** The search function agrees with the reference semantics on the
    patterns of the fragment. *)
Hypothesis re_search_on_fragment :
  forall pattern line o,
    search_fragment pattern line = Some o -> re_search pattern line = o.


End Fragment.

(** *** Name patterns without brackets *)

Lemma translate_from_plain lit rest :
  plain lit = true ->
  translate_from 0 (lit ++ rest) = map GLit lit ++ translate_from 0 rest.
Proof.
  induction lit as [|c t IH]; intros H; [reflexivity|].
  cbn [plain forallb] in H. apply andb_true_iff in H as [Hc Ht].
  unfold plain_char in Hc. apply negb_true_iff in Hc.
  apply orb_false_iff in Hc as [Hc H3]. apply orb_false_iff in Hc as [H1 H2].
  cbn [app translate_from map]. rewrite H1, H2, H3. f_equal. now apply IH.
Qed.

Lemma translate_plain lit : plain lit = true -> translate lit = map GLit lit.
Proof.
  intros H. unfold translate.
  rewrite <- (app_nil_r lit) at 1. rewrite (translate_from_plain lit [] H).
  apply app_nil_r.
Qed.

Lemma gmatch_star ts s :
  gmatch (GStar :: ts) s
  = gmatch ts s
    || match s with [] => false | _ :: s' => gmatch (GStar :: ts) s' end.
Proof. destruct s; reflexivity. Qed.

Lemma gmatch_star_only s : gmatch [GStar] s = true.
Proof.
  induction s as [|c s IH]; [reflexivity|].
  rewrite gmatch_star, IH. apply orb_true_r.
Qed.

Lemma gmatch_literal_prefix lit ts :
  forall s,
    gmatch (map GLit lit ++ ts) s
    = startswith lit s && gmatch ts (skipn (length lit) s).
Proof.
  induction lit as [|c t IH]; intros s; [reflexivity|].
  destruct s as [|x s]; [reflexivity|].
  cbn [map app gmatch tok_ok startswith length skipn].
  rewrite IH. apply andb_assoc.
Qed.

Lemma gmatch_literal lit :
  forall s, gmatch (map GLit lit) s = bool_decide (s = lit).
Proof.
  induction lit as [|c t IH]; intros [|x s]; cbn [map gmatch tok_ok].
  - reflexivity.
  - symmetry. now apply bool_decide_eq_false.
  - symmetry. now apply bool_decide_eq_false.
  - rewrite IH. destruct (Ascii.eqb_spec c x) as [->|Hne]; cbn [andb].
    + apply bool_decide_ext. split; [now intros ->|now inversion 1].
    + symmetry. apply bool_decide_eq_false. intros E. inversion E. congruence.
Qed.

Lemma endswith_cons p c s :
  endswith p (c :: s) = bool_decide (c :: s = p) || endswith p s.
Proof.
  apply eq_true_iff_eq. rewrite orb_true_iff, bool_decide_eq_true. split.
  - intros H. destruct (endswith_split _ _ H) as [[|d t] Ht].
    + left. exact Ht.
    + right. cbn in Ht. inversion Ht; subst. apply endswith_app.
  - intros [<-|H].
    + apply (endswith_app _ []).
    + destruct (endswith_split _ _ H) as [t ->].
      apply (endswith_app p (c :: t)).
Qed.

Lemma gmatch_star_literal lit :
  forall s, gmatch (GStar :: map GLit lit) s = endswith lit s.
Proof.
  induction s as [|c s IH].
  - rewrite gmatch_star, gmatch_literal, orb_false_r.
    unfold endswith. cbn [rev].
    destruct lit as [|a t]; [reflexivity|].
    rewrite bool_decide_eq_false_2 by discriminate.
    destruct (rev (a :: t)) eqn:E; [|reflexivity].
    apply (f_equal (@length _)) in E. rewrite length_rev in E. discriminate.
  - rewrite gmatch_star, gmatch_literal, IH. symmetry. apply endswith_cons.
Qed.

Lemma gmatch_star_literal_star lit :
  forall s, gmatch (GStar :: map GLit lit ++ [GStar]) s = contains lit s.
Proof.
  induction s as [|c s IH].
  - rewrite gmatch_star, gmatch_literal_prefix, gmatch_star_only.
    cbn [contains]. now rewrite andb_true_r.
  - rewrite gmatch_star, gmatch_literal_prefix, gmatch_star_only, IH.
    cbn [contains]. now rewrite andb_true_r.
Qed.

Lemma plain_char_normcase (c : ascii) :
  plain_char (lower_char (slash_to_backslash c)) = plain_char c.
Proof. destruct c as [[] [] [] [] [] [] [] []]; reflexivity. Qed.

Lemma plain_normcase (s : str) : plain (normcase pf s) = plain s.
Proof.
  destruct pf; [reflexivity|]. unfold normcase, lower.
  induction s as [|c s IH]; [reflexivity|].
  cbn [map plain forallb]. rewrite plain_char_normcase. f_equal. exact IH.
Qed.

Lemma normcase_app (a b : str) :
  normcase pf (a ++ b) = normcase pf a ++ normcase pf b.
Proof.
  destruct pf; [reflexivity|]. unfold normcase, lower. now rewrite !map_app.
Qed.

Lemma normcase_star : normcase pf (txt "*") = txt "*".
Proof. destruct pf; reflexivity. Qed.

(** X1: a name pattern without [*], [?] and [[] matches a file exactly
    when the file name and the pattern are equal after [os.path.normcase]
    (equal as they stand on POSIX), so a list of such patterns selects the
    files named by one of them. *)
Theorem plain_pattern_matches_equal_names :
  forall file names,
    forallb plain names = true ->
    matches_any file names
    = existsb (fun name => bool_decide (normcase pf file = normcase pf name))
        names.
Proof.
  intros file names. unfold matches_any.
  induction names as [|name rest IH]; intros H; [reflexivity|].
  cbn [forallb] in H. apply andb_true_iff in H as [Hn Hrest].
  cbn [existsb]. rewrite (IH Hrest). f_equal.
  unfold fnmatch, fnmatchcase.
  rewrite translate_plain by now rewrite plain_normcase.
  apply gmatch_literal.
Qed.

(** X2: a pattern made of [*] and a suffix without [*], [?] and [[] (as
    in [Extensions: *.txt]) matches a file exactly when the file name ends
    with the suffix, both taken after [os.path.normcase]; the part of the
    name before the suffix may be empty. *)
Theorem star_suffix_pattern_matches_endings :
  forall file suffixes,
    forallb plain suffixes = true ->
    matches_any file (map (app (txt "*")) suffixes)
    = existsb (fun suffix => endswith (normcase pf suffix) (normcase pf file))
        suffixes.
Proof.
  intros file suffixes. unfold matches_any.
  induction suffixes as [|suffix rest IH]; intros H; [reflexivity|].
  cbn [forallb] in H. apply andb_true_iff in H as [Hn Hrest].
  cbn [map existsb]. rewrite (IH Hrest). f_equal.
  unfold fnmatch, fnmatchcase, translate.
  rewrite normcase_app, normcase_star.
  change (translate_from 0 (txt "*" ++ normcase pf suffix))
    with (GStar :: translate (normcase pf suffix)).
  rewrite translate_plain by now rewrite plain_normcase.
  apply gmatch_star_literal.
Qed.

(** X3: a pattern made of a word without [*], [?] and [[] between two
    [*] (as in [Files: *password*]) matches a file exactly when the file
    name contains the word, both taken after [os.path.normcase]. *)
Theorem star_word_star_pattern_matches_substrings :
  forall file words,
    forallb plain words = true ->
    matches_any file (map (fun word => txt "*" ++ word ++ txt "*") words)
    = existsb (fun word => contains (normcase pf word) (normcase pf file))
        words.
Proof.
  intros file words. unfold matches_any.
  induction words as [|word rest IH]; intros H; [reflexivity|].
  cbn [forallb] in H. apply andb_true_iff in H as [Hn Hrest].
  cbn [map existsb]. rewrite (IH Hrest). f_equal.
  unfold fnmatch, fnmatchcase, translate.
  rewrite !normcase_app, normcase_star.
  change (translate_from 0 (txt "*" ++ normcase pf word ++ txt "*"))
    with (GStar :: translate_from 0 (normcase pf word ++ txt "*")).
  rewrite translate_from_plain by now rewrite plain_normcase.
  apply gmatch_star_literal_star.
Qed.

(** *** Trimming and comma-separated lists *)

Lemma lstrip_app a b :
  lstrip (a ++ b) = match lstrip a with [] => lstrip b | r => r ++ b end.
Proof.
  induction a as [|c a IH]; [reflexivity|].
  cbn [app lstrip]. destruct (isspace c); [exact IH|reflexivity].
Qed.

(** [rstrip] seen from the front of the text. *)
Lemma rstrip_cons c t :
  rstrip (c :: t)
  = match rstrip t with
    | [] => if isspace c then [] else [c]
    | r => c :: r
    end.
Proof.
  unfold rstrip. cbn [rev]. rewrite lstrip_app.
  destruct (lstrip (rev t)) as [|d r] eqn:E.
  - cbn. destruct (isspace c); reflexivity.
  - rewrite rev_app_distr. cbn [rev app].
    destruct (rev r ++ [d]) eqn:E'; [|reflexivity].
    destruct (rev r); discriminate.
Qed.

Lemma lstrip_idem s : lstrip (lstrip s) = lstrip s.
Proof.
  induction s as [|c t IH]; [reflexivity|].
  cbn [lstrip]. destruct (isspace c) eqn:E; [exact IH|].
  cbn [lstrip]. now rewrite E.
Qed.

Lemma rstrip_idem s : rstrip (rstrip s) = rstrip s.
Proof. unfold rstrip. now rewrite rev_involutive, lstrip_idem. Qed.

Lemma rstrip_lstrip s : rstrip (lstrip s) = lstrip (rstrip s).
Proof.
  induction s as [|c t IH]; [reflexivity|].
  rewrite rstrip_cons. cbn [lstrip].
  destruct (isspace c) eqn:E.
  - rewrite IH. destruct (rstrip t); [reflexivity|]. cbn [lstrip]. now rewrite E.
  - rewrite rstrip_cons.
    destruct (rstrip t); rewrite ?E; cbn [lstrip]; now rewrite E.
Qed.

Lemma strip_idem s : strip (strip s) = strip s.
Proof.
  unfold strip. now rewrite rstrip_lstrip, lstrip_idem, rstrip_idem.
Qed.

Lemma in_lstrip c s : In c (lstrip s) -> In c s.
Proof.
  induction s as [|d t IH]; [auto|].
  cbn [lstrip]. destruct (isspace d); [|auto]. intros H. right. auto.
Qed.

Lemma in_rstrip c s : In c (rstrip s) -> In c s.
Proof.
  unfold rstrip. intros H. apply in_rev in H. apply in_lstrip in H.
  now apply in_rev.
Qed.

Lemma in_strip c s : In c (strip s) -> In c s.
Proof. intros H. apply in_rstrip, in_lstrip, H. Qed.

Lemma split_length sep s :
  length (split sep s) = S (count_occ ascii_dec s sep).
Proof.
  induction s as [|c t IH]; [reflexivity|].
  cbn [split count_occ].
  destruct (Ascii.eqb_spec c sep) as [->|Hne].
  - destruct (ascii_dec sep sep); [|congruence]. cbn [length]. now rewrite IH.
  - destruct (ascii_dec c sep); [congruence|].
    pose proof (split_not_nil sep t) as Hn.
    destruct (split sep t) as [|h r]; [congruence|exact IH].
Qed.

Lemma split_without_sep sep s :
  Forall (fun piece => ~ In sep piece) (split sep s).
Proof.
  induction s as [|c t IH]; cbn [split].
  - constructor; [intros []|constructor].
  - destruct (Ascii.eqb_spec c sep) as [->|Hne].
    + constructor; [intros []|exact IH].
    + destruct (split sep t) as [|h r].
      * constructor; [|constructor]. intros [E|[]]. congruence.
      * inversion IH; subst. constructor; [|assumption].
        intros [E|Hin]; [congruence|contradiction].
Qed.

(** X4: [parse_list] gives no item for an empty value and otherwise one
    item more than the value has commas; every item is trimmed (trimming
    it again changes nothing) and holds no comma. *)
Theorem parse_list_items_are_trimmed_pieces :
  forall value,
    length (parse_list value)
    = (if nonempty value then S (count_occ ascii_dec value ","%char) else 0)
    /\ Forall (fun item => strip item = item /\ ~ In ","%char item)
         (parse_list value).
Proof.
  intros value. unfold parse_list.
  destruct (nonempty value); [|split; [reflexivity|constructor]].
  split; [now rewrite length_map, split_length|].
  apply List.Forall_forall. intros item Hin.
  apply in_map_iff in Hin as (piece & <- & Hp).
  split; [apply strip_idem|]. intros Hc.
  pose proof (split_without_sep ","%char value) as Hf.
  rewrite List.Forall_forall in Hf. apply (Hf piece Hp). now apply in_strip.
Qed.

Lemma split_app_sep sep x r :
  ~ In sep x -> split sep (x ++ sep :: r) = x :: split sep r.
Proof.
  induction x as [|c x IH]; intros Hx; cbn [app split].
  - now rewrite Ascii.eqb_refl.
  - destruct (Ascii.eqb_spec c sep) as [->|Hne]; [exfalso; apply Hx; now left|].
    rewrite IH; [reflexivity|]. intros Hin. apply Hx. now right.
Qed.

Lemma split_one_piece sep x : ~ In sep x -> split sep x = [x].
Proof.
  induction x as [|c x IH]; intros Hx; cbn [split]; [reflexivity|].
  destruct (Ascii.eqb_spec c sep) as [->|Hne]; [exfalso; apply Hx; now left|].
  rewrite IH; [reflexivity|]. intros Hin. apply Hx. now right.
Qed.

Lemma split_join_comma_space x rest :
  Forall (fun item => ~ In ","%char item) (x :: rest) ->
  split "," (join (txt ", ") (x :: rest)) = x :: map (cons " "%char) rest.
Proof.
  revert x. induction rest as [|y rest IH]; intros x H.
  - cbn [join map]. apply split_one_piece. now inversion H.
  - change (join (txt ", ") (x :: y :: rest))
      with (x ++ ","%char :: " "%char :: join (txt ", ") (y :: rest)).
    inversion H as [|? ? Hx Hrest]; subst.
    rewrite (split_app_sep _ _ _ Hx). f_equal.
    cbn [split]. change (Ascii.eqb " " ",") with false. cbn iota.
    now rewrite (IH y Hrest).
Qed.

Lemma strip_leading_space y : strip (" "%char :: y) = strip y.
Proof.
  unfold strip. rewrite rstrip_cons.
  destruct (rstrip y); reflexivity.
Qed.

(** X5: a list of trimmed, comma-free items joined with a comma and a
    space, as [execute_section] logs [keywords], [extensions] and [files],
    is read back by [parse_list] as the same list; the one exception is the
    list whose only item is the empty string, which is joined to the empty
    value and read back as the empty list. *)
Theorem parse_list_reads_back_a_joined_list :
  forall items,
    Forall (fun item => strip item = item /\ ~ In ","%char item) items ->
    (items <> [[]] -> parse_list (join (txt ", ") items) = items)
    /\ (items = [[]] -> parse_list (join (txt ", ") items) = []).
Proof.
  intros items H. split; [|intros ->; reflexivity].
  intros Hne. destruct items as [|x rest]; [reflexivity|].
  unfold parse_list.
  assert (nonempty (join (txt ", ") (x :: rest)) = true) as ->.
  { destruct rest as [|y rest].
    - cbn [join]. destruct x; [congruence|reflexivity].
    - change (join (txt ", ") (x :: y :: rest))
        with (x ++ ","%char :: " "%char :: join (txt ", ") (y :: rest)).
      destruct x; reflexivity. }
  rewrite split_join_comma_space.
  - inversion H as [|? ? [Hx _] Hrest]; subst.
    cbn [map]. rewrite Hx. f_equal.
    rewrite map_map. clear Hne H Hx.
    induction rest as [|y rest IH]; [reflexivity|].
    inversion Hrest as [|? ? [Hy _] Hrest']; subst.
    cbn [map]. rewrite strip_leading_space, Hy. f_equal. now apply IH.
  - apply List.Forall_forall. intros item Hin.
    rewrite List.Forall_forall in H. now apply H.
Qed.

(** *** What a search logs *)

Lemma snd_find_walk patterns name_patterns :
  forall events results,
    snd (find_walk patterns name_patterns events results) = walk_error events.
Proof.
  induction events as [|ev rest IH]; intros results; [reflexivity|].
  destruct ev as [root files|msg]; cbn [find_walk walk_error];
    [apply IH|reflexivity].
Qed.

Lemma snd_grep_walk pattern extensions :
  compiles pattern ->
  forall events results,
    snd (grep_walk pattern extensions events results) = walk_error events.
Proof.
  intros Hc. induction events as [|ev rest IH]; intros results; [reflexivity|].
  destruct ev as [root files|msg]; cbn [grep_walk walk_error]; [|reflexivity].
  rewrite grep_dir_spec by assumption. apply IH.
Qed.

Lemma snd_find_files patterns name_patterns :
  snd (find_files patterns name_patterns)
  = logged_error "Error during find: " (walk_error walk).
Proof.
  unfold find_files.
  pose proof (snd_find_walk patterns name_patterns walk []) as H.
  destruct (find_walk patterns name_patterns walk []) as [results e].
  cbn [snd] in *. now subst.
Qed.

(** X6: an exception raised by the directory walk ends the search, and the
    search logs it as one line, [Error during find: ] or
    [Error during grep: ] followed by the message, when [verbose] is set
    and logs nothing otherwise; a dump search logs it as an error of find.
    A walk that does not raise logs nothing. For the content search this
    holds when the pattern compiles. *)
Theorem walk_error_is_logged_only_when_verbose :
  forall pattern patterns name_patterns extensions,
    snd (find_files patterns name_patterns)
    = match walk_error walk with
      | Some msg => if verbose then [txt "Error during find: " ++ msg] else []
      | None => []
      end
    /\ snd (find_and_cat_files name_patterns)
       = snd (find_files [] name_patterns)
    /\ (compiles pattern ->
        snd (grep_files pattern extensions)
        = match walk_error walk with
          | Some msg => if verbose then [txt "Error during grep: " ++ msg] else []
          | None => []
          end).
Proof.
  intros pattern patterns name_patterns extensions.
  split; [apply snd_find_files|]. split.
  - unfold find_and_cat_files.
    destruct (find_files [] name_patterns) as [files_found logged]. reflexivity.
  - intros Hc. unfold grep_files.
    pose proof (snd_grep_walk pattern extensions Hc walk []) as H.
    destruct (grep_walk pattern extensions walk []) as [results e].
    cbn [snd] in *. now subst.
Qed.

Lemma grep_lines_broken pattern filepath msg :
  re_compile pattern = inl msg ->
  forall lines line_num results,
    grep_lines pattern filepath line_num lines results
    = (results, if nonempty lines then Some msg else None).
Proof.
  intros H lines line_num results. destruct lines as [|line rest]; [reflexivity|].
  cbn [grep_lines nonempty]. unfold re_search. now rewrite H.
Qed.

Lemma grep_dir_broken pattern extensions root msg :
  re_compile pattern = inl msg ->
  forall files results,
    grep_dir pattern extensions root files results
    = (results,
       if existsb (reads_a_line extensions) (map (pair root) files)
       then Some msg else None).
Proof.
  intros H. induction files as [|file rest IH]; intros results; [reflexivity|].
  cbn [grep_dir map existsb]. unfold reads_a_line at 1, candidate, path_of.
  cbn [fst snd].
  destruct (nonempty extensions); cbn [negb andb orb].
  - destruct (matches_any file extensions); cbn [negb andb]; [|apply IH].
    unfold grep_file, lines_read.
    destruct (open_read (path_join root file)) as [text|yielded];
      rewrite (grep_lines_broken _ _ _ H).
    + destruct (nonempty (file_lines text)); [reflexivity|apply IH].
    + destruct (nonempty yielded); [reflexivity|apply IH].
  - unfold grep_file, lines_read.
    destruct (open_read (path_join root file)) as [text|yielded];
      rewrite (grep_lines_broken _ _ _ H).
    + destruct (nonempty (file_lines text)); [reflexivity|apply IH].
    + destruct (nonempty yielded); [reflexivity|apply IH].
Qed.

(** X7: a content search whose pattern does not compile gives no result.
    The error is raised when the first line of a candidate file is read
    and ends the search, which logs it when [verbose] is set; when the
    walk raises before any line is read, that exception is the one logged,
    and when no candidate file yields a line, nothing is logged at all. *)
Theorem broken_pattern_gives_no_result :
  forall pattern msg extensions,
    re_compile pattern = inl msg ->
    grep_files pattern extensions
    = ([], match broken_search_error msg extensions walk with
           | Some e => if verbose then [txt "Error during grep: " ++ e] else []
           | None => []
           end).
Proof.
  intros pattern msg extensions H. unfold grep_files.
  assert (forall events results,
             grep_walk pattern extensions events results
             = (results, broken_search_error msg extensions events)) as Hw.
  { induction events as [|ev rest IH]; intros results; [reflexivity|].
    destruct ev as [root files|walk_msg];
      cbn [grep_walk broken_search_error]; [|reflexivity].
    rewrite (grep_dir_broken _ _ _ _ H).
    destruct (existsb (reads_a_line extensions) (map (pair root) files));
      [reflexivity|apply IH]. }
  rewrite Hw. reflexivity.
Qed.

(** X8: in locate mode a non-empty [extensions] list decides the search
    alone: the results are the walked files whose name matches one of its
    patterns, whatever [files] holds; [files] is looked at only when
    [extensions] is empty, and with both lists empty nothing is searched. *)
Theorem locate_mode_prefers_extensions :
  forall command keywords extensions files,
    content_marker command = false ->
    locate_marker command = true ->
    dump_marker command = false ->
    (extensions <> [] ->
     section_search command keywords extensions files
     = section_search command keywords extensions []
     /\ fst (section_search command keywords extensions files)
        = found extensions)
    /\ (extensions = [] -> files = [] ->
        section_search command keywords extensions files = ([], [])).
Proof.
  intros command keywords extensions files Hg Hf Hc.
  unfold content_marker, locate_marker, dump_marker in *.
  unfold section_search. rewrite Hg, Hf, Hc. cbn [andb].
  split.
  - intros Hne. destruct extensions as [|e es]; [congruence|].
    cbn [nonempty]. split; [reflexivity|apply fst_find_files_patterns].
  - intros -> ->. reflexivity.
Qed.

(** *** Lines of a configuration *)

Lemma newline_free_incl (a b : str) :
  (forall c, In c a -> In c b) -> newline_free b = true -> newline_free a = true.
Proof.
  unfold newline_free. rewrite !forallb_forall. intros Hab Hb c Hc. auto.
Qed.

Lemma newline_free_app (a b : str) :
  newline_free (a ++ b) = newline_free a && newline_free b.
Proof. apply forallb_app. Qed.

Lemma rstrip_snoc_space s c : isspace c = true -> rstrip (s ++ [c]) = rstrip s.
Proof.
  intros H. unfold rstrip. rewrite rev_app_distr. cbn [rev app lstrip].
  now rewrite H.
Qed.

Lemma rstrip_line_feed s : rstrip (s ++ [LF]) = rstrip s.
Proof. now apply rstrip_snoc_space. Qed.

Lemma newline_free_rstrip s : newline_free s = true -> newline_free (rstrip s) = true.
Proof. apply newline_free_incl. intros c. apply in_rstrip. Qed.

Lemma file_lines_from_line l :
  newline_free l = true ->
  forall cur rest,
    file_lines_from cur (l ++ LF :: rest)
    = (rev cur ++ l ++ [LF]) :: file_lines_from [] rest.
Proof.
  induction l as [|c l IH]; intros Hl cur rest.
  - cbn [app file_lines_from]. rewrite Ascii.eqb_refl. reflexivity.
  - cbn [newline_free forallb] in Hl. apply andb_true_iff in Hl as [Hc Hl].
    apply negb_true_iff, orb_false_iff in Hc as [H1 H2].
    cbn [app file_lines_from]. rewrite H1, H2, (IH Hl).
    cbn [rev]. now rewrite <- app_assoc.
Qed.

(** Reading back what [update_config_file] writes. *)
Lemma file_lines_join ls :
  Forall (fun l => newline_free l = true) ls ->
  file_lines (join [LF] ls ++ [LF])
  = match ls with [] => [[LF]] | _ :: _ => map (fun l => l ++ [LF]) ls end.
Proof.
  unfold file_lines. destruct ls as [|l ls]; [reflexivity|].
  revert l. induction ls as [|l2 ls IH]; intros l H.
  - cbn [join map]. inversion H; subst.
    now rewrite file_lines_from_line.
  - change (join [LF] (l :: l2 :: ls) ++ [LF])
      with ((l ++ [LF] ++ join [LF] (l2 :: ls)) ++ [LF]).
    rewrite <- !app_assoc. cbn [app].
    inversion H as [|? ? Hl Hrest]; subst.
    rewrite (file_lines_from_line l Hl). cbn [rev app map].
    f_equal. now apply IH.
Qed.

Lemma file_lines_from_clean :
  forall s cur,
    newline_free cur = true ->
    Forall (fun raw => newline_free (rstrip raw) = true) (file_lines_from cur s).
Proof.
  assert (forall cur, newline_free cur = true ->
                      newline_free (rstrip (rev (LF :: cur))) = true) as Hend.
  { intros cur Hc. cbn [rev]. rewrite rstrip_line_feed.
    apply newline_free_rstrip.
    eapply newline_free_incl; [|exact Hc]. intros c Hin. now apply in_rev. }
  induction s as [|c t IH]; intros cur Hc; cbn [file_lines_from].
  - destruct cur as [|d cur]; constructor; [|constructor].
    apply newline_free_rstrip.
    eapply newline_free_incl; [|exact Hc]. intros c Hin. now apply in_rev.
  - destruct (Ascii.eqb c LF) eqn:E1.
    { constructor; [now apply Hend|now apply IH]. }
    destruct (Ascii.eqb c CR) eqn:E2.
    { destruct t as [|d t'].
      - constructor; [now apply Hend|constructor].
      - destruct (Ascii.eqb d LF); [now apply IH|].
        constructor; [now apply Hend|now apply IH]. }
    apply IH. cbn [newline_free forallb]. rewrite E1, E2. exact Hc.
Qed.

Lemma file_lines_clean text :
  Forall (fun raw => newline_free (rstrip raw) = true) (file_lines text).
Proof. now apply file_lines_from_clean. Qed.

(** [parse_config] looks at a line through [rstrip] only. *)
Lemma parse_line_rstrip st raw raw' :
  rstrip raw = rstrip raw' -> parse_line st raw = parse_line st raw'.
Proof. intros H. unfold parse_line. destruct st. now rewrite H. Qed.

Lemma parse_line_passed_over st raw :
  passed_over raw = true -> parse_line st raw = st.
Proof.
  unfold passed_over, parse_line, key_line. destruct st as [sections c].
  intros H.
  destruct (negb (nonempty (rstrip raw)) || startswith (txt "#") (rstrip raw));
    [reflexivity|].
  cbn [orb] in H. apply andb_true_iff in H as [H1 H2].
  apply negb_true_iff in H1, H2. rewrite H1.
  apply orb_false_iff in H2 as [H2 H5]. apply orb_false_iff in H2 as [H2 H4].
  apply orb_false_iff in H2 as [H2 H3].
  rewrite H2, H3, H4, H5. now destruct (startswith (txt "Example: ") (rstrip raw)).
Qed.

(** X9: the configuration parser passes over blank lines, comment lines
    and every line that is neither a section header nor one of the four
    key lines (among them the [Example: ] lines and key lines that are
    indented): removing all such lines from a configuration does not
    change the sections parsed from it. *)
Theorem parse_config_passes_over_other_lines :
  forall lines,
    parse_lines lines
    = parse_lines (List.filter (fun raw => negb (passed_over raw)) lines).
Proof.
  intros lines. unfold parse_lines.
  assert (forall st,
             fold_left parse_line lines st
             = fold_left parse_line
                 (List.filter (fun raw => negb (passed_over raw)) lines) st) as H.
  { induction lines as [|raw rest IH]; intros st; [reflexivity|].
    cbn [fold_left List.filter].
    destruct (passed_over raw) eqn:E; cbn [negb fold_left].
    - rewrite (parse_line_passed_over st raw E). apply IH.
    - apply IH. }
  now rewrite H.
Qed.

(** Trailing whitespace is stripped no further than a character that is
    not whitespace. *)
Lemma rstrip_after_nonspace a c b :
  isspace c = false -> rstrip ((a ++ [c]) ++ b) = (a ++ [c]) ++ rstrip b.
Proof.
  intros Hc. induction a as [|d a IH].
  - cbn [app]. rewrite rstrip_cons, Hc. now destruct (rstrip b).
  - cbn [app] in *. rewrite rstrip_cons, IH.
    now destruct a.
Qed.

Lemma rstrip_example_line v :
  rstrip (txt "Example: " ++ v) = txt "Example:" ++ rstrip (" "%char :: v).
Proof.
  change (txt "Example: " ++ v)
    with ((txt "Example" ++ [":"%char]) ++ " "%char :: v).
  now rewrite rstrip_after_nonspace.
Qed.

Lemma parse_line_example_like st raw r :
  rstrip raw = txt "Example:" ++ r -> parse_line st raw = st.
Proof.
  intros H. unfold parse_line, is_header. destruct st as [sections c].
  rewrite H.
  change (txt "Example:" ++ r)
    with ("E"%char :: "x"%char :: "a"%char :: txt "mple:" ++ r).
  set (rest := txt "mple:" ++ r).
  now destruct (startswith (txt "Example: ")
                  ("E"%char :: "x"%char :: "a"%char :: rest)).
Qed.

Lemma parse_line_rewritten examples current_section st raw :
  parse_line st (rewrite_line examples current_section raw ++ [LF])
  = parse_line st raw.
Proof.
  assert (parse_line st (rstrip raw ++ [LF]) = parse_line st raw) as Hsame.
  { apply parse_line_rstrip. now rewrite rstrip_line_feed, rstrip_idem. }
  unfold rewrite_line.
  destruct (is_header (rstrip raw)) eqn:Hh; [exact Hsame|].
  destruct (startswith (txt "Example: ") (rstrip raw)) eqn:He; [|exact Hsame].
  destruct (current_section ≫= (fun name => examples !! name)) as [v|];
    [|exact Hsame].
  destruct (startswith_split _ _ He) as [t Ht].
  rewrite (parse_line_example_like st raw (" "%char :: t)) by exact Ht.
  apply (parse_line_example_like st _ (rstrip (" "%char :: v))).
  now rewrite rstrip_line_feed, rstrip_example_line.
Qed.

Lemma parse_fold_rewritten examples :
  forall lines current_section st,
    fold_left parse_line
      (map (fun l => l ++ [LF]) (rewritten examples current_section lines)) st
    = fold_left parse_line lines st.
Proof.
  induction lines as [|raw rest IH]; intros current_section st; [reflexivity|].
  cbn [rewritten map fold_left]. now rewrite parse_line_rewritten, IH.
Qed.

Lemma newline_free_rewrite_line examples current_section raw :
  (forall name v, examples !! name = Some v -> newline_free v = true) ->
  newline_free (rstrip raw) = true ->
  newline_free (rewrite_line examples current_section raw) = true.
Proof.
  intros Hex Hraw. unfold rewrite_line.
  destruct (is_header (rstrip raw)); [exact Hraw|].
  destruct (startswith (txt "Example: ") (rstrip raw)); [|exact Hraw].
  destruct (current_section ≫= (fun name => examples !! name)) as [v|] eqn:E;
    [|exact Hraw].
  destruct current_section as [name|]; [|discriminate E]. cbn in E.
  rewrite newline_free_app, (Hex name v E). reflexivity.
Qed.

Lemma newline_free_rewritten examples :
  (forall name v, examples !! name = Some v -> newline_free v = true) ->
  forall lines current_section,
    Forall (fun raw => newline_free (rstrip raw) = true) lines ->
    Forall (fun l => newline_free l = true)
      (rewritten examples current_section lines).
Proof.
  intros Hex. induction lines as [|raw rest IH]; intros current_section H;
    cbn [rewritten]; [constructor|].
  inversion H; subst. constructor.
  - now apply newline_free_rewrite_line.
  - now apply IH.
Qed.

Lemma parse_config_text_rewritten examples text :
  (forall name v, examples !! name = Some v -> newline_free v = true) ->
  parse_config_text (update_config_text examples text) = parse_config_text text.
Proof.
  intros Hex. unfold parse_config_text, update_config_text.
  rewrite update_lines_rewritten, file_lines_join
    by (apply newline_free_rewritten; [exact Hex|apply file_lines_clean]).
  unfold parse_lines.
  destruct (file_lines text) as [|raw rest] eqn:E; [reflexivity|].
  cbn [rewritten].
  change (rewrite_line examples None raw
          :: rewritten examples (next_section None raw) rest)
    with (rewritten examples None (raw :: rest)).
  now rewrite parse_fold_rewritten.
Qed.

Lemma in_removelast {A : Type} (x : A) (l : list A) :
  In x (removelast l) -> In x l.
Proof.
  induction l as [|a l IH]; [auto|].
  cbn [removelast]. destruct l as [|b l]; [intros []|].
  intros [->|H]; [now left|right; now apply IH].
Qed.

Lemma in_slice_1_m1 c s : In c (slice_1_m1 s) -> In c s.
Proof.
  unfold slice_1_m1. intros H. apply in_removelast in H.
  destruct s; [exact H|now right].
Qed.

Lemma in_skipn_of {A : Type} (x : A) n (l : list A) : In x (skipn n l) -> In x l.
Proof.
  intros H. rewrite <- (firstn_skipn n l). apply in_or_app. now right.
Qed.

Lemma in_split_piece sep c :
  forall s piece, In piece (split sep s) -> In c piece -> In c s.
Proof.
  induction s as [|d t IH]; intros piece Hp Hc; cbn [split] in Hp.
  - destruct Hp as [<-|[]]. exact Hc.
  - destruct (Ascii.eqb d sep).
    + destruct Hp as [<-|Hp]; [destruct Hc|]. right. now apply (IH piece).
    + destruct (split sep t) as [|h r] eqn:E.
      * destruct Hp as [<-|[]]. destruct Hc as [->|[]]. now left.
      * destruct Hp as [<-|Hp].
        -- destruct Hc as [->|Hc]; [now left|].
           right. apply (IH h); [now left|exact Hc].
        -- right. apply (IH piece); [now right|exact Hc].
Qed.

Lemma newline_free_parse_list value :
  newline_free value = true -> forallb newline_free (parse_list value) = true.
Proof.
  intros H. unfold parse_list. destruct (nonempty value); [|reflexivity].
  apply forallb_forall. intros item Hin.
  apply in_map_iff in Hin as (piece & <- & Hp).
  eapply newline_free_incl; [|exact H].
  intros c Hc. apply in_strip in Hc. now apply (in_split_piece ","%char c value piece).
Qed.

Lemma parse_line_clean sections current_section raw :
  newline_free (rstrip raw) = true ->
  forallb clean_section sections = true ->
  clean_section current_section = true ->
  forallb clean_section (fst (parse_line (sections, current_section) raw)) = true
  /\ clean_section (snd (parse_line (sections, current_section) raw)) = true.
Proof.
  intros Hraw Hs Hc. unfold parse_line.
  assert (forall n, newline_free (skipn n (rstrip raw)) = true) as Hskip.
  { intros n. eapply newline_free_incl; [|exact Hraw].
    intros c. apply in_skipn_of. }
  assert (forall n, newline_free (strip (skipn n (rstrip raw))) = true) as Hstrip.
  { intros n. eapply newline_free_incl; [|exact (Hskip n)].
    intros c. apply in_strip. }
  assert (newline_free (slice_1_m1 (rstrip raw)) = true) as Hname.
  { eapply newline_free_incl; [|exact Hraw]. intros c. apply in_slice_1_m1. }
  unfold clean_section in Hc.
  apply andb_true_iff in Hc as [Hc H5]. apply andb_true_iff in Hc as [Hc H4].
  apply andb_true_iff in Hc as [Hc H3]. apply andb_true_iff in Hc as [H1 H2].
  repeat match goal with
         | |- context [if ?b then _ else _] => destruct b
         end; cbn [fst snd]; split; try assumption;
    try (rewrite forallb_app, Hs; cbn [forallb]; rewrite andb_true_r);
    unfold clean_section; cbn [s_name s_command s_keywords s_extensions s_files
                                 new_section set_command set_keywords
                                 set_extensions set_files from_option forallb];
    rewrite ?H1, ?H2, ?H3, ?H4, ?H5, ?Hname, ?Hstrip,
      ?(newline_free_parse_list _ (Hskip _)); reflexivity.
Qed.

Lemma parse_lines_clean lines :
  Forall (fun raw => newline_free (rstrip raw) = true) lines ->
  forallb clean_section (parse_lines lines) = true.
Proof.
  intros H. unfold parse_lines.
  assert (forall sections current_section,
             forallb clean_section sections = true ->
             clean_section current_section = true ->
             forallb clean_section
               (fst (fold_left parse_line lines (sections, current_section)))
             = true
             /\ clean_section
                  (snd (fold_left parse_line lines (sections, current_section)))
                = true) as Hfold.
  { induction H as [|raw rest Hraw Hrest IH]; intros sections c Hs Hc;
      cbn [fold_left]; [auto|].
    destruct (parse_line_clean sections c raw Hraw Hs Hc) as [H1 H2].
    destruct (parse_line (sections, c) raw) as [s' c']. now apply IH. }
  destruct (Hfold [] empty_dict eq_refl eq_refl) as [H1 H2].
  destruct (fold_left parse_line lines ([], empty_dict)) as [sections c].
  cbn [fst snd] in *.
  destruct (dict_nonempty c); [|exact H1].
  rewrite forallb_app, H1. cbn. now rewrite H2.
Qed.

Lemma newline_free_replace_from old new :
  newline_free new = true ->
  forall s skip,
    newline_free s = true -> newline_free (replace_from skip old new s) = true.
Proof.
  intros Hnew. induction s as [|c t IH]; intros skip Hs; [reflexivity|].
  cbn [newline_free forallb] in Hs. apply andb_true_iff in Hs as [Hc Ht].
  cbn [replace_from]. destruct skip as [|k]; [|now apply IH].
  destruct (startswith old (c :: t)).
  - rewrite newline_free_app, Hnew. now apply IH.
  - cbn [newline_free forallb]. rewrite Hc. now apply IH.
Qed.

Lemma newline_free_replace old new s :
  newline_free new = true -> newline_free s = true ->
  newline_free (replace old new s) = true.
Proof. intros Hn Hs. now apply newline_free_replace_from. Qed.

Lemma newline_free_join sep items :
  newline_free sep = true -> forallb newline_free items = true ->
  newline_free (join sep items) = true.
Proof.
  intros Hsep. induction items as [|x rest IH]; intros H; [reflexivity|].
  cbn [forallb] in H. apply andb_true_iff in H as [Hx Hrest].
  cbn [join]. destruct rest as [|y rest']; [exact Hx|].
  rewrite !newline_free_app, Hx, Hsep. now apply IH.
Qed.

Lemma newline_free_name_flags items :
  forallb newline_free items = true -> newline_free (name_flags items) = true.
Proof.
  intros H. unfold name_flags. rewrite !newline_free_app.
  rewrite newline_free_join; [reflexivity|reflexivity|].
  rewrite forallb_forall in *. intros clause Hin.
  apply in_map_iff in Hin as (f & <- & Hf).
  unfold name_clause. rewrite !newline_free_app, (H f Hf). reflexivity.
Qed.

Lemma newline_free_include_flags items :
  forallb newline_free items = true -> newline_free (include_flags items) = true.
Proof.
  intros H. unfold include_flags.
  rewrite newline_free_join; [reflexivity|reflexivity|].
  rewrite forallb_forall in *. intros flag Hin.
  apply in_map_iff in Hin as (f & <- & Hf).
  rewrite !newline_free_app, (H f Hf). reflexivity.
Qed.

Lemma newline_free_build_actual_command command keywords extensions files :
  newline_free command = true ->
  forallb newline_free keywords = true ->
  forallb newline_free extensions = true ->
  forallb newline_free files = true ->
  newline_free (build_actual_command command keywords extensions files) = true.
Proof.
  intros Hc Hk He Hf. unfold build_actual_command.
  repeat match goal with
         | |- context [if ?b then _ else _] => destruct b
         end;
    repeat first
      [ assumption
      | apply newline_free_replace
      | apply newline_free_name_flags
      | apply newline_free_include_flags
      | apply newline_free_join; [reflexivity|] ].
Qed.

Lemma newline_free_section_example examples s :
  clean_section s = true ->
  (forall name v, examples !! name = Some v -> newline_free v = true) ->
  forall name v,
    section_example examples s !! name = Some v -> newline_free v = true.
Proof.
  intros Hs Hex name v. unfold section_example, clean_section in *.
  destruct (s_command s) as [command|]; [|apply Hex].
  destruct (s_name s) as [sname|]; [|apply Hex].
  destruct (s_keywords s) as [keywords|]; [|apply Hex].
  destruct (s_extensions s) as [extensions|]; [|apply Hex].
  destruct (s_files s) as [files|]; [|apply Hex].
  cbn [from_option] in Hs.
  apply andb_true_iff in Hs as [Hs H5]. apply andb_true_iff in Hs as [Hs H4].
  apply andb_true_iff in Hs as [Hs H3]. apply andb_true_iff in Hs as [H1 H2].
  destruct (nonempty command); [|apply Hex].
  intros H. apply lookup_insert_Some in H as [[_ <-]|[_ H]]; [|now apply (Hex name)].
  apply newline_free_replace; [reflexivity|].
  now apply newline_free_build_actual_command.
Qed.

Lemma newline_free_examples_of sections :
  forallb clean_section sections = true ->
  forall name v, examples_of sections !! name = Some v -> newline_free v = true.
Proof.
  unfold examples_of.
  assert (forall examples,
             (forall name v, examples !! name = Some v -> newline_free v = true) ->
             forallb clean_section sections = true ->
             forall name v,
               fold_left section_example sections examples !! name = Some v ->
               newline_free v = true) as H.
  { induction sections as [|s rest IH]; intros examples Hex Hs; [exact Hex|].
    cbn [forallb] in Hs. apply andb_true_iff in Hs as [H1 H2].
    cbn [fold_left]. apply IH; [|exact H2].
    now apply newline_free_section_example. }
  intros Hs. apply H; [|exact Hs].
  intros name v E. rewrite lookup_empty in E. discriminate.
Qed.

(** X10: the rewrite at the end of a run does not change what the parser
    reads. For any resolved commands without line terminator, and so for
    the commands a run records from the configuration itself, the
    rewritten text parses to the same section records as the original
    text. *)
Theorem rewritten_configuration_parses_the_same :
  forall text,
    (forall examples,
        (forall name v, examples !! name = Some v -> newline_free v = true) ->
        parse_config_text (update_config_text examples text)
        = parse_config_text text)
    /\ parse_config_text
         (update_config_text (examples_of (parse_config_text text)) text)
       = parse_config_text text.
Proof.
  intros text. split; [intros examples; apply parse_config_text_rewritten|].
  apply parse_config_text_rewritten, newline_free_examples_of.
  apply parse_lines_clean, file_lines_clean.
Qed.

Lemma rewrite_line_again examples current_section raw :
  (forall name v, examples !! name = Some v -> rstrip v <> []) ->
  rewrite_line examples current_section
    (rewrite_line examples current_section raw ++ [LF])
  = rewrite_line examples current_section raw
  /\ next_section current_section
       (rewrite_line examples current_section raw ++ [LF])
     = next_section current_section raw.
Proof.
  intros Hex.
  assert (rstrip (rstrip raw ++ [LF]) = rstrip raw) as Hsame
    by now rewrite rstrip_line_feed, rstrip_idem.
  unfold rewrite_line at 2 4.
  destruct (is_header (rstrip raw)) eqn:Hh.
  { unfold rewrite_line, next_section. now rewrite Hsame, Hh. }
  destruct (startswith (txt "Example: ") (rstrip raw)) eqn:He.
  2:{ unfold rewrite_line, next_section. now rewrite Hsame, Hh, He. }
  destruct (current_section ≫= (fun name => examples !! name)) as [v|] eqn:E.
  2:{ unfold rewrite_line, next_section. now rewrite Hsame, Hh, He, E. }
  assert (rstrip v <> []) as Hv.
  { destruct current_section as [name|]; [|discriminate E]. now apply (Hex name). }
  assert (rstrip ((txt "Example: " ++ v) ++ [LF])
          = txt "Example: " ++ rstrip v) as Hl.
  { rewrite rstrip_line_feed, rstrip_example_line, rstrip_cons.
    now destruct (rstrip v). }
  assert (is_header (txt "Example: " ++ rstrip v) = false) as Hh' by reflexivity.
  unfold rewrite_line, next_section.
  rewrite Hl, Hh', Hh, startswith_app, E, ?He. now split.
Qed.

Lemma rewritten_again examples :
  (forall name v, examples !! name = Some v -> rstrip v <> []) ->
  forall lines current_section,
    rewritten examples current_section
      (map (fun l => l ++ [LF]) (rewritten examples current_section lines))
    = rewritten examples current_section lines.
Proof.
  intros Hex. induction lines as [|raw rest IH]; intros current_section;
    [reflexivity|].
  cbn [rewritten map].
  destruct (rewrite_line_again examples current_section raw Hex) as [-> ->].
  now rewrite IH.
Qed.

(** X11: rewriting a configuration that was just rewritten with the same
    resolved commands changes nothing, provided no resolved command holds a
    line terminator or consists of whitespace only. *)
Theorem rewriting_twice_changes_nothing :
  forall examples text,
    (forall name v,
        examples !! name = Some v -> newline_free v = true /\ rstrip v <> []) ->
    update_config_text examples (update_config_text examples text)
    = update_config_text examples text.
Proof.
  intros examples text Hex.
  unfold update_config_text at 1. unfold update_config_text at 1.
  rewrite !update_lines_rewritten.
  rewrite file_lines_join.
  2:{ apply newline_free_rewritten; [|apply file_lines_clean].
      intros name v E. now apply (Hex name v). }
  destruct (file_lines text) as [|raw rest] eqn:E.
  - unfold update_config_text. rewrite update_lines_rewritten, E. reflexivity.
  - unfold update_config_text. rewrite update_lines_rewritten, E.
    cbn [rewritten].
    change (rewrite_line examples None raw
            :: rewritten examples (next_section None raw) rest)
      with (rewritten examples None (raw :: rest)).
    rewrite rewritten_again; [reflexivity|].
    intros name v Hv. now apply (Hex name v).
Qed.

(** *** Invariants of a run *)

Lemma kept_ret (Inv : world -> Prop) {A : Type} (a : A) : kept Inv (ret a).
Proof. apply holds_ret. auto. Qed.

Lemma kept_bind (Inv : world -> Prop) {A B : Type} (m : M A) (k : A -> M B) :
  kept Inv m -> (forall a, kept Inv (k a)) -> kept Inv (m ≫= k).
Proof. intros Hm Hk. eapply holds_bind; [exact Hm|exact Hk]. Qed.

Lemma kept_when (Inv : world -> Prop) b (m : M unit) :
  kept Inv m -> kept Inv (when b m).
Proof. apply holds_when. Qed.

Lemma kept_for_each (Inv : world -> Prop) {A : Type} (f : A -> M unit) l :
  (forall x, kept Inv (f x)) -> kept Inv (for_each f l).
Proof. apply holds_for_each. Qed.

Lemma kept_getitem (Inv : world -> Prop) {A : Type} key (v : option A) :
  kept Inv (getitem key v).
Proof. intros w Hw. destruct v; exact Hw. Qed.

Lemma kept_contents (Inv : world -> Prop) path : kept Inv (contents path).
Proof. intros w Hw. unfold contents. destruct (fs w !! path); exact Hw. Qed.

Lemma kept_get_examples (Inv : world -> Prop) : kept Inv get_examples.
Proof. intros w Hw. exact Hw. Qed.

Section Invariant.

(** An assertion that the steps of a scan keep. *)
Variable Inv : world -> Prop.

Hypothesis Inv_mkdir : kept Inv (mkdir output_file).
Hypothesis Inv_print : verbose = true -> forall msg, kept Inv (print msg).
Hypothesis Inv_read : kept Inv (effect (EvRead config_file) id).
Hypothesis Inv_write : forall text, kept Inv (write_file output_file text).
Hypothesis Inv_append : forall text, kept Inv (append_file output_file text).
Hypothesis Inv_example : forall name value, kept Inv (set_example name value).

Lemma kept_verbose (m : M unit) :
  (verbose = true -> kept Inv m) -> kept Inv (when verbose m).
Proof. intros H. destruct verbose; [now apply H|apply kept_ret]. Qed.

Lemma kept_log message : kept Inv (log message).
Proof.
  unfold log. apply kept_bind; [|intros ?; apply Inv_append].
  apply kept_verbose. intros Hv. now apply Inv_print.
Qed.

Ltac kept_steps :=
  repeat first
    [ apply kept_log | apply kept_ret | apply Inv_example
    | apply kept_getitem
    | apply kept_when | apply kept_for_each; intros ?
    | apply kept_bind; [|intros ?; cbn beta] ].

Lemma kept_execute_section name command keywords extensions files :
  kept Inv (execute_section name command keywords extensions files).
Proof.
  unfold execute_section.
  destruct (section_search command keywords extensions files) as [results logged].
  destruct (nonempty results); kept_steps.
Qed.

Lemma kept_run_section s : kept Inv (run_section s).
Proof.
  unfold run_section. apply kept_bind; [apply kept_getitem|].
  intros command. destruct (nonempty command); [|apply kept_ret].
  repeat (apply kept_bind; [apply kept_getitem|intros ?]).
  apply kept_execute_section.
Qed.

Lemma kept_read_config : kept Inv (read_file config_file).
Proof.
  unfold read_file. apply kept_bind; [exact Inv_read|].
  intros ?. apply kept_contents.
Qed.

(** The run up to its last three steps keeps the assertion. *)
Lemma kept_scan_then {S : world -> Prop} {Q : unit -> world -> Prop} :
  (forall w, Inv w -> S w) ->
  holds S Inv
    (update_config_file ≫= fun _ =>
     when verbose (print (txt "Config file updated with actual commands"))
     ≫= fun _ => print (txt "Results saved to: " ++ output_file)) Q ->
  holds S Inv run Q.
Proof.
  intros HS Htail.
  assert (forall (A : Type) (m : M A),
             kept Inv m -> holds S Inv m (fun _ => Inv)) as lift.
  { intros A m H. eapply holds_weaken; [exact H|..]; auto. }
  unfold run.
  eapply holds_bind; [apply lift, Inv_mkdir|]. intros ?; cbn beta.
  eapply holds_bind; [apply lift, Inv_write|]. intros ?; cbn beta.
  eapply holds_bind.
  { apply lift, kept_verbose. intros Hv.
    repeat (apply kept_bind; [now apply Inv_print|intros ?]).
    now apply Inv_print. }
  intros ?; cbn beta.
  eapply holds_bind.
  { apply lift. unfold parse_config.
    apply kept_bind; [apply kept_read_config|]. intros ?. apply kept_ret. }
  intros sections; cbn beta.
  eapply holds_bind.
  { apply lift, kept_for_each. intros s. apply kept_run_section. }
  intros ?; cbn beta.
  eapply holds_bind; [apply lift, kept_log|]. intros ?; cbn beta.
  eapply holds_bind; [apply lift, kept_log|]. intros ?; cbn beta.
  exact Htail.
Qed.

End Invariant.

Lemma effect_touches_own_files files0 e f :
  own_event e = true ->
  (forall (m : gmap str str) path,
      path <> output_file -> path <> config_file -> f m !! path = m !! path) ->
  kept (touched_own_files_only files0) (effect e f).
Proof.
  intros He Hf w [Htr Hfs]. unfold effect.
  destruct (budget w) as [|n]; [now split|].
  split; cbn.
  - now rewrite forallb_app, Htr, andb_true_l; cbn; rewrite He.
  - intros path H1 H2. rewrite Hf by assumption. now apply Hfs.
Qed.


Section Quiet.

(** The scanner runs without [--verbose]. *)
Hypothesis quiet_mode : verbose = false.

Lemma effect_prints_nothing printed_so_far e f :
  is_print e = false ->
  kept (fun w => printed w = printed_so_far) (effect e f).
Proof.
  intros He w Hw. unfold effect.
  destruct (budget w) as [|n]; [exact Hw|].
  unfold printed in *. cbn. rewrite List.filter_app, Hw. cbn.
  rewrite He. apply app_nil_r.
Qed.

(** X13: without [--verbose] a run prints one line, the final
    [Results saved to: ] followed by the report path, and it prints that
    line last; a run that fails or is interrupted has printed nothing. *)
Theorem quiet_run_prints_the_final_line_only :
  forall files0 n,
    match run (init files0 n) with
    | Done _ w =>
      exists before,
        trace w = before ++ [EvPrint (txt "Results saved to: " ++ output_file)]
        /\ List.filter is_print before = []
    | Stopped _ w => printed w = []
    end.
Proof.
  intros files0 n.
  assert (holds (fun w => printed w = []) (fun w => printed w = []) run
            (fun _ w =>
               exists before,
                 trace w
                 = before ++ [EvPrint (txt "Results saved to: " ++ output_file)]
                 /\ List.filter is_print before = [])) as H.
  { apply (kept_scan_then (fun w => printed w = [])).
    - now apply effect_prints_nothing.
    - rewrite quiet_mode. discriminate.
    - now apply effect_prints_nothing.
    - intros text. now apply effect_prints_nothing.
    - intros text. now apply effect_prints_nothing.
    - intros name value w Hw. exact Hw.
    - auto.
    - eapply holds_bind.
      { unfold update_config_file.
        apply kept_bind.
        { apply kept_read_config. now apply effect_prints_nothing. }
        intros text. apply kept_bind; [apply kept_get_examples|].
        intros examples. now apply effect_prints_nothing. }
      intros ?; cbn beta. rewrite quiet_mode. cbn [when].
      eapply holds_bind; [apply kept_ret|]. intros ?; cbn beta.
      intros w Hw. unfold print, effect.
      destruct (budget w) as [|k]; [exact Hw|].
      exists (trace w). split; [reflexivity|exact Hw]. }
  specialize (H (init files0 n) eq_refl).
  destruct (run (init files0 n)); exact H.
Qed.

End Quiet.

(** *** The content of the report *)

Lemma report_lines_app a b :
  report_lines (a ++ b) = report_lines a ++ report_lines b.
Proof. unfold report_lines. now rewrite map_app, concat_app. Qed.

Section Report.

Hypothesis distinct_paths : output_file <> config_file.

Variable files0 : gmap str str.
Variable total : list str.

Local Abbreviation adds := (writes files0 total).

Lemma cut_short_prefix done l w :
  (done ++ l) `prefix_of` total -> report_is done w -> cut_short total w.
Proof.
  intros Hp Hw. exists done. split; [|exact Hw].
  eapply prefix_app_l, Hp.
Qed.

Lemma adds_eq {A : Type} (m : M A) l l' : adds m l -> l = l' -> adds m l'.
Proof. now intros H <-. Qed.

Lemma adds_ret {A : Type} (a : A) : adds (ret a) [].
Proof.
  intros done Hp w Hw. cbn. now rewrite app_nil_r.
Qed.

Lemma adds_bind {A B : Type} (m : M A) (k : A -> M B) l1 l2 :
  adds m l1 -> (forall a, adds (k a) l2) -> adds (m ≫= k) (l1 ++ l2).
Proof.
  intros Hm Hk done Hp.
  eapply holds_bind.
  - apply Hm. rewrite app_assoc in Hp. eapply prefix_app_l, Hp.
  - intros a. cbn beta. rewrite app_assoc. apply Hk. now rewrite <- app_assoc.
Qed.

Lemma adds_effect e f :
  (forall m : gmap str str,
      f m !! output_file = m !! output_file
      /\ f m !! config_file = m !! config_file) ->
  adds (effect e f) [].
Proof.
  intros Hf done Hp w [Hr Hc]. unfold effect.
  destruct (budget w) as [|n]; [now apply (cut_short_prefix done [])|].
  rewrite app_nil_r. split.
  - unfold report_is. cbn. now rewrite (proj1 (Hf (fs w))).
  - cbn. now rewrite (proj2 (Hf (fs w))).
Qed.

Lemma adds_print msg : adds (print msg) [].
Proof. now apply adds_effect. Qed.

Lemma adds_set_example name value : adds (set_example name value) [].
Proof. intros done Hp w Hw. cbn. rewrite app_nil_r. exact Hw. Qed.

Lemma adds_when b (m : M unit) l :
  adds m l -> adds (when b m) (if b then l else []).
Proof. intros H. destruct b; [exact H|apply adds_ret]. Qed.

Lemma adds_log message : adds (log message) [message].
Proof.
  unfold log. apply (adds_bind _ _ [] [message]).
  { destruct verbose; [apply adds_print|apply adds_ret]. }
  intros ? done Hp w [Hr Hc]. unfold append_file, effect.
  destruct (budget w) as [|n]; [now apply (cut_short_prefix done [message])|].
  split.
  - unfold report_is in *. cbn. rewrite lookup_insert_eq, Hr. cbn.
    rewrite report_lines_app. unfold report_lines at 2. cbn.
    now rewrite app_nil_r, <- !app_assoc.
  - cbn. rewrite lookup_insert_ne by exact distinct_paths. exact Hc.
Qed.

Lemma adds_logs messages : adds (for_each log messages) messages.
Proof.
  induction messages as [|message rest IH]; cbn [for_each].
  - apply adds_ret.
  - apply (adds_bind _ _ [message] rest); [apply adds_log|].
    intros ?. exact IH.
Qed.

Lemma adds_execute_section name command keywords extensions files :
  adds (execute_section name command keywords extensions files)
    (section_log name command keywords extensions files).
Proof.
  unfold execute_section, section_log.
  destruct (section_search command keywords extensions files) as [results logged].
  apply adds_bind; [apply adds_log|]. intros ?; cbn beta.
  apply (adds_bind _ _ []); [apply adds_set_example|]. intros ?; cbn beta.
  apply adds_bind.
  { apply adds_when.
    apply adds_bind; [apply adds_log|]. intros ?; cbn beta.
    apply adds_bind; [apply adds_when, adds_log|]. intros ?; cbn beta.
    apply adds_bind; [apply adds_when, adds_log|]. intros ?; cbn beta.
    apply adds_when, adds_log. }
  intros ?; cbn beta.
  apply adds_bind; [apply adds_logs|]. intros ?; cbn beta.
  apply adds_bind; [apply adds_when, adds_log|]. intros ?; cbn beta.
  destruct (nonempty results); [apply adds_logs|apply adds_when, adds_log].
Qed.

Lemma adds_raise {A : Type} exc l : adds (@raise A exc) l.
Proof. intros done Hp w [Hr Hc]. now apply (cut_short_prefix done l). Qed.

Lemma adds_run_section s : adds (run_section s) (section_report s).
Proof.
  unfold run_section, section_report.
  destruct (s_command s) as [command|]; [|apply adds_raise].
  intros done Hp w Hw. revert done Hp w Hw.
  change (adds (if nonempty command
                then getitem "name" (s_name s) ≫= fun name =>
                     getitem "keywords" (s_keywords s) ≫= fun keywords =>
                     getitem "extensions" (s_extensions s) ≫= fun extensions =>
                     getitem "files" (s_files s) ≫= fun files =>
                     execute_section name command keywords extensions files
                else ret tt)
            match s_name s, s_keywords s, s_extensions s, s_files s with
            | Some name, Some keywords, Some extensions, Some files =>
              if nonempty command
              then section_log name command keywords extensions files else []
            | _, _, _, _ => []
            end).
  destruct (nonempty command).
  2:{ destruct (s_name s), (s_keywords s), (s_extensions s), (s_files s);
        apply adds_ret. }
  destruct (s_name s) as [name|]; [|apply adds_raise].
  destruct (s_keywords s) as [keywords|]; [|apply adds_raise].
  destruct (s_extensions s) as [extensions|]; [|apply adds_raise].
  destruct (s_files s) as [files|]; [|apply adds_raise].
  apply adds_execute_section.
Qed.

Lemma adds_run_sections sections :
  adds (for_each run_section sections) (flat_map section_report sections).
Proof.
  induction sections as [|s rest IH]; cbn [for_each flat_map].
  - apply adds_ret.
  - apply adds_bind; [apply adds_run_section|]. intros ?. exact IH.
Qed.

End Report.

Section ReportContent.

Hypothesis distinct_paths : output_file <> config_file.


End ReportContent.

(** *** Sections that share a name *)

Lemma section_example_lookup examples s name :
  section_example examples s !! name
  = match recorded_for name s with
    | Some example => Some example
    | None => examples !! name
    end.
Proof.
  unfold section_example, recorded_for, recorded.
  destruct (s_command s) as [command|]; [|reflexivity].
  destruct (s_name s) as [n|]; [|reflexivity].
  destruct (s_keywords s) as [keywords|]; [|reflexivity].
  destruct (s_extensions s) as [extensions|]; [|reflexivity].
  destruct (s_files s) as [files|]; [|reflexivity].
  destruct (nonempty command); [|reflexivity].
  case_bool_decide as E.
  - subst n. apply lookup_insert_eq.
  - now apply lookup_insert_ne.
Qed.

(** X15: the resolved commands are kept by section name, so of several
    executed sections with one name the last in file order decides: the
    command the table of a finished run holds for a name is the one of
    the last section record with that name, all five keys and a non-empty
    command; a name that no such record has is not in the table. *)
Theorem last_section_of_a_name_decides_the_example :
  forall sections name,
    examples_of sections !! name = last (omap (recorded_for name) sections).
Proof.
  intros sections name. unfold examples_of.
  assert (forall examples,
             fold_left section_example sections examples !! name
             = match last (omap (recorded_for name) sections) with
               | Some example => Some example
               | None => examples !! name
               end) as H.
  { induction sections as [|s rest IH]; intros examples; [reflexivity|].
    cbn [fold_left]. rewrite IH, section_example_lookup.
    change (omap (recorded_for name) (s :: rest))
      with (match recorded_for name s with
            | Some example => example :: omap (recorded_for name) rest
            | None => omap (recorded_for name) rest
            end).
    destruct (recorded_for name s) as [example|]; [|reflexivity].
    rewrite last_cons. now destruct (last (omap (recorded_for name) rest)). }
  rewrite H. now destruct (last (omap (recorded_for name) sections)).
Qed.

(** *** A key line above the first header *)

Lemma lstrip_head s :
  lstrip s = [] \/ exists c t, lstrip s = c :: t /\ isspace c = false.
Proof.
  induction s as [|c t IH]; [now left|].
  cbn [lstrip]. destruct (isspace c) eqn:E; [exact IH|].
  right. now exists c, t.
Qed.

Lemma rstrip_last s :
  rstrip s = [] \/ exists a c, rstrip s = a ++ [c] /\ isspace c = false.
Proof.
  unfold rstrip. destruct (lstrip_head (rev s)) as [->|(c & t & -> & Hc)].
  - now left.
  - right. exists (rev t), c. now split.
Qed.

Lemma strip_nonempty a c : isspace c = false -> strip (a ++ [c]) <> [].
Proof.
  intros Hc. unfold strip.
  rewrite <- (app_nil_r (a ++ [c])), rstrip_after_nonspace by exact Hc.
  change (rstrip []) with (@nil ascii). rewrite app_nil_r, lstrip_app.
  destruct (lstrip a); cbn [lstrip]; [now rewrite Hc|discriminate].
Qed.

(** The value of a [Command: ] line is never empty: the line is read
    without its trailing whitespace, so something follows the prefix. *)
Lemma command_value_nonempty raw :
  startswith (txt "Command: ") (rstrip raw) = true ->
  nonempty (strip (skipn 9 (rstrip raw))) = true.
Proof.
  intros H. destruct (startswith_split _ _ H) as [t Ht].
  destruct (rstrip_last raw) as [E|(a & c & E & Hc)].
  { rewrite E in Ht. discriminate. }
  rewrite Ht. change (skipn 9 (txt "Command: " ++ t)) with t.
  destruct t as [|d t] using rev_ind.
  - exfalso. rewrite Ht, app_nil_r in E.
    change (txt "Command: ") with (txt "Command:" ++ [" "%char]) in E.
    apply app_inj_tail in E as [_ <-]. discriminate.
  - rewrite Ht, app_assoc in E. apply app_inj_tail in E as [_ <-].
    pose proof (strip_nonempty t d Hc) as Hs.
    now destruct (strip (t ++ [d])).
Qed.

Lemma nameless_set_command s v :
  s_name s = None -> nonempty v = true -> nameless (set_command s v).
Proof.
  intros Hn Hv. split; [exact Hn|]. split.
  - unfold dict_nonempty. cbn. now rewrite orb_true_r.
  - right. now exists v.
Qed.

Lemma parse_line_nameless st raw :
  nameless_first st -> nameless_first (parse_line st raw).
Proof.
  destruct st as [sections c]. unfold nameless_first. cbn [fst snd].
  intros [[-> Hc]|(s & rest & -> & Hs)].
  - destruct Hc as (Hn & Hd & Hcmd). unfold parse_line. rewrite Hd.
    destruct (negb (nonempty (rstrip raw)) || startswith (txt "#") (rstrip raw));
      [left; now repeat split|].
    destruct (is_header (rstrip raw)).
    { right. exists c, []. now repeat split. }
    destruct (startswith (txt "Command: ") (rstrip raw)) eqn:E.
    { left. split; [reflexivity|]. cbn [snd].
      apply nameless_set_command; [exact Hn|now apply command_value_nonempty]. }
    destruct (startswith (txt "Example: ") (rstrip raw));
      [left; now repeat split|].
    destruct (startswith (txt "Keywords: ") (rstrip raw)).
    { left. split; [reflexivity|]. split; [exact Hn|]. split; [|exact Hcmd].
      unfold dict_nonempty. cbn. now rewrite !orb_true_r. }
    destruct (startswith (txt "Extensions: ") (rstrip raw)).
    { left. split; [reflexivity|]. split; [exact Hn|]. split; [|exact Hcmd].
      unfold dict_nonempty. cbn. now rewrite !orb_true_r. }
    destruct (startswith (txt "Files: ") (rstrip raw)).
    { left. split; [reflexivity|]. split; [exact Hn|]. split; [|exact Hcmd].
      unfold dict_nonempty. cbn. now rewrite !orb_true_r. }
    left. now repeat split.
  - right. unfold parse_line.
    repeat match goal with
           | |- context [if ?b then _ else _] => destruct b
           end; cbn [fst]; eauto.
Qed.

Lemma parse_fold_nameless lines :
  forall st, nameless_first st -> nameless_first (fold_left parse_line lines st).
Proof.
  induction lines as [|raw rest IH]; intros st H; [exact H|].
  cbn [fold_left]. now apply IH, parse_line_nameless.
Qed.

Lemma parse_fold_stray lines :
  stray_free lines = false ->
  nameless_first (fold_left parse_line lines ([], empty_dict)).
Proof.
  induction lines as [|raw rest IH]; intros Hs; [discriminate Hs|].
  cbn [stray_free] in Hs. cbn [fold_left].
  destruct (is_header (rstrip raw)) eqn:Hh; [discriminate Hs|].
  unfold parse_line at 2. rewrite Hh.
  destruct (negb (nonempty (rstrip raw)) || startswith (txt "#") (rstrip raw));
    [now apply IH|].
  unfold key_line in Hs.
  destruct (startswith (txt "Command: ") (rstrip raw)) eqn:E1.
  { apply parse_fold_nameless. left. split; [reflexivity|].
    apply nameless_set_command; [reflexivity|now apply command_value_nonempty]. }
  destruct (startswith (txt "Example: ") (rstrip raw)) eqn:E2.
  { apply IH. destruct (startswith_split _ _ E2) as [t Ht]. rewrite Ht in Hs.
    change (startswith (txt "Keywords: ") (txt "Example: " ++ t))
      with false in Hs.
    change (startswith (txt "Extensions: ") (txt "Example: " ++ t))
      with false in Hs.
    change (startswith (txt "Files: ") (txt "Example: " ++ t))
      with false in Hs.
    exact Hs. }
  destruct (startswith (txt "Keywords: ") (rstrip raw)).
  { apply parse_fold_nameless. left. repeat split. now left. }
  destruct (startswith (txt "Extensions: ") (rstrip raw)).
  { apply parse_fold_nameless. left. repeat split. now left. }
  destruct (startswith (txt "Files: ") (rstrip raw)).
  { apply parse_fold_nameless. left. repeat split. now left. }
  now apply IH.
Qed.

(** A key line above the first header makes the first record a nameless
    one. *)
Lemma parse_lines_stray lines :
  stray_free lines = false ->
  exists s rest, parse_lines lines = s :: rest /\ nameless s.
Proof.
  intros Hs. unfold parse_lines.
  pose proof (parse_fold_stray lines Hs) as H.
  destruct (fold_left parse_line lines ([], empty_dict)) as [sections c].
  destruct H as [[E Hc]|(s & rest & E & Hn)]; cbn [fst snd] in *; subst.
  - destruct Hc as (Hn & Hd & Hcmd). rewrite Hd. exists c, []. now repeat split.
  - exists s. destruct (dict_nonempty c); eexists; split; try reflexivity; exact Hn.
Qed.

Lemma run_section_nameless s w :
  nameless s ->
  exists key,
    (key = "command"%string \/ key = "name"%string)
    /\ run_section s w = Stopped (Raised (txt ("KeyError: " ++ key))) w.
Proof.
  intros (Hn & _ & [Hc|(command & Hc & Hne)]); unfold run_section.
  - exists "command"%string. rewrite Hc. split; [now left|reflexivity].
  - exists "name"%string. rewrite Hc, Hn. split; [now right|].
    unfold mbind, M_bind, bind. cbn [getitem ret]. now rewrite Hne.
Qed.

(** A run whose first record is nameless stops there with a [KeyError],
    after the report header, the verbose banner and the read of the
    configuration. *)
Lemma run_fails_at_nameless_record files0 cfg n s rest :
  output_file <> config_file ->
  files0 !! config_file = Some cfg ->
  parse_config_text cfg = s :: rest ->
  nameless s ->
  7 <= n ->
  exists key w,
    run (init files0 n) = Stopped (Raised (txt ("KeyError: " ++ key))) w
    /\ (key = "command"%string \/ key = "name"%string)
    /\ fs w = <[output_file := report_header]> files0
    /\ section_examples w = ∅
    /\ n <= budget w + 7.
Proof.
  intros Hd Hcfg Hp Hnameless Hn.
  destruct n as [|[|[|[|[|[|[|m]]]]]]]; try lia.
  assert (forall k tr,
             exists key w,
               (parse_config ≫= fun sections =>
                for_each run_section sections ≫= fun _ =>
                log (LF :: rule) ≫= fun _ =>
                log (txt "Completed: " ++ now 2) ≫= fun _ =>
                update_config_file ≫= fun _ =>
                when verbose
                  (print (txt "Config file updated with actual commands"))
                ≫= fun _ => print (txt "Results saved to: " ++ output_file))
                 {| fs := <[output_file := report_header]> files0;
                    section_examples := ∅; trace := tr; budget := S k |}
               = Stopped (Raised (txt ("KeyError: " ++ key))) w
               /\ (key = "command"%string \/ key = "name"%string)
               /\ fs w = <[output_file := report_header]> files0
               /\ section_examples w = ∅
               /\ budget w = k) as Htail.
  { intros k tr.
    destruct (run_section_nameless s
                {| fs := <[output_file := report_header]> files0;
                   section_examples := ∅;
                   trace := tr ++ [EvRead config_file]; budget := k |}
                Hnameless) as (key & Hkey & Hrun).
    exists key. eexists. split.
    { unfold parse_config, read_file, contents, mbind, M_bind, bind, effect.
      cbn [budget fs trace section_examples]. unfold id.
      rewrite lookup_insert_ne by exact Hd. rewrite Hcfg.
      cbn [ret]. rewrite Hp. cbn [for_each].
      unfold mbind, M_bind, bind. now rewrite Hrun. }
    split; [exact Hkey|repeat split]. }
  unfold run, init.
  destruct verbose.
  - destruct (Htail m [EvMkdir output_file;
                       EvWrite output_file report_header;
                       EvPrint (txt "Starting search from: " ++ search_root);
                       EvPrint (txt "Config: " ++ config_file);
                       EvPrint (txt "Started: " ++ now 1);
                       EvPrint rule]) as (key & w & E & H1 & H2 & H3 & H4).
    exists key, w. split; [rewrite <- E; reflexivity|].
    repeat split; try assumption. lia.
  - destruct (Htail (S (S (S (S m))))
                [EvMkdir output_file; EvWrite output_file report_header])
      as (key & w & E & H1 & H2 & H3 & H4).
    exists key, w. split; [rewrite <- E; reflexivity|].
    repeat split; try assumption. lia.
Qed.


(** *** The exit status *)

Section ExitStatus.

Hypothesis distinct_paths : output_file <> config_file.


End ExitStatus.

(** *** Sections are parsed one by one *)

Lemma parse_line_below_header sections c raw :
  is_header (rstrip raw) = false ->
  parse_line (sections, c) raw = (sections, snd (parse_line ([], c) raw))
  /\ s_name (snd (parse_line ([], c) raw)) = s_name c.
Proof.
  intros Hh. unfold parse_line. rewrite Hh.
  repeat match goal with
         | |- context [if ?b then _ else _] => destruct b
         end; split; reflexivity.
Qed.

Lemma parse_fold_below_header body :
  forallb (fun raw => negb (is_header (rstrip raw))) body = true ->
  forall sections c,
    fold_left parse_line body (sections, c)
    = (sections, snd (fold_left parse_line body ([], c)))
    /\ s_name (snd (fold_left parse_line body ([], c))) = s_name c.
Proof.
  induction body as [|raw rest IH]; intros H sections c; [now split|].
  cbn [forallb] in H. apply andb_true_iff in H as [Hh Hrest].
  apply negb_true_iff in Hh. cbn [fold_left].
  destruct (parse_line_below_header sections c raw Hh) as [E1 _].
  destruct (parse_line_below_header [] c raw Hh) as [E2 Hn].
  set (c1 := snd (parse_line ([], c) raw)) in *.
  rewrite E1, E2.
  destruct (IH Hrest sections c1) as [-> _].
  destruct (IH Hrest [] c1) as [_ Hn'].
  split; [reflexivity|congruence].
Qed.

Lemma parse_fold_blocks :
  forall blocks sections c name,
    forallb is_block blocks = true ->
    s_name c = Some name ->
    exists sections' c' name',
      fold_left parse_line (flat_map (fun b => fst b :: snd b) blocks)
        (sections, c)
      = (sections', c')
      /\ s_name c' = Some name'
      /\ sections' ++ [c'] = sections ++ c :: map block_record blocks.
Proof.
  induction blocks as [|[header body] rest IH]; intros sections c name Hb Hn.
  - exists sections, c, name. now repeat split.
  - cbn [forallb] in Hb. apply andb_true_iff in Hb as [Hblock Hrest].
    unfold is_block in Hblock. cbn [fst snd] in Hblock.
    apply andb_true_iff in Hblock as [Hh Hbody].
    cbn [flat_map fst snd app fold_left].
    rewrite (parse_line_header _ _ _ Hh), fold_left_app.
    assert (dict_nonempty c = true) as ->.
    { unfold dict_nonempty. now rewrite Hn. }
    destruct (parse_fold_below_header body Hbody (sections ++ [c])
                (new_section (slice_1_m1 (rstrip header)))) as [-> Hname].
    destruct (IH (sections ++ [c]) (block_record (header, body))
                (slice_1_m1 (rstrip header)) Hrest Hname)
      as (s' & c' & n' & Hf & Hn' & Happ).
    exists s', c', n'. split; [exact Hf|]. split; [exact Hn'|].
    rewrite Happ, <- app_assoc. reflexivity.
Qed.

Lemma parse_fold_passed_over pre :
  forallb passed_over pre = true ->
  forall st, fold_left parse_line pre st = st.
Proof.
  induction pre as [|raw rest IH]; intros H st; [reflexivity|].
  cbn [forallb] in H. apply andb_true_iff in H as [Hraw Hrest].
  cbn [fold_left]. rewrite (parse_line_passed_over st raw Hraw). now apply IH.
Qed.

(** X20: the sections of a configuration are parsed one by one. When the
    lines above the first header are all passed over, the records parsed
    are, in file order, one for each header line, and the record of a
    header depends only on that line and the lines below it up to the next
    header: a key line changes the record of the header it stands under
    and no other. *)
Theorem sections_are_parsed_one_by_one :
  forall pre blocks,
    forallb passed_over pre = true ->
    forallb is_block blocks = true ->
    parse_lines (pre ++ flat_map (fun b => fst b :: snd b) blocks)
    = map block_record blocks.
Proof.
  intros pre blocks Hpre Hblocks. unfold parse_lines.
  rewrite fold_left_app, (parse_fold_passed_over pre Hpre).
  destruct blocks as [|[header body] rest]; [reflexivity|].
  cbn [forallb] in Hblocks. apply andb_true_iff in Hblocks as [Hblock Hrest].
  unfold is_block in Hblock. cbn [fst snd] in Hblock.
  apply andb_true_iff in Hblock as [Hh Hbody].
  cbn [flat_map fst snd app fold_left].
  rewrite (parse_line_header _ _ _ Hh), fold_left_app.
  change (dict_nonempty empty_dict) with false. cbn iota.
  destruct (parse_fold_below_header body Hbody []
              (new_section (slice_1_m1 (rstrip header)))) as [-> Hname].
  destruct (parse_fold_blocks rest [] (block_record (header, body))
              (slice_1_m1 (rstrip header)) Hrest Hname)
    as (s' & c' & n' & Hf & Hn' & Happ).
  unfold block_record in Hf at 1. cbn [fst snd] in Hf. rewrite Hf.
  assert (dict_nonempty c' = true) as ->.
  { unfold dict_nonempty. now rewrite Hn'. }
  exact Happ.
Qed.

(** *** Keywords that are plain words *)

Lemma push_atoms k :
  forall f,
    fold_left push_atom (map Chr k) f
    = {| alts := alts f;
         cur := fold_left (fun r c => Seq r (Chr c)) k (cur f) |}.
Proof.
  induction k as [|c k IH]; intros f; [now destruct f|].
  cbn [map fold_left]. now rewrite IH.
Qed.

Lemma run_from_literal k :
  literal k = true ->
  forall f stack,
    run_from f stack k = Some (fold_left push_atom (map Chr k) f, stack).
Proof.
  induction k as [|c k IH]; intros H f stack; [reflexivity|].
  cbn [literal forallb] in H. apply andb_true_iff in H as [Hc Hk].
  unfold literal_char in Hc. apply negb_true_iff in Hc.
  apply orb_false_iff in Hc as [Hc Hb].
  change (txt "()|.") with ["("%char; ")"%char; "|"%char; "."%char] in Hc.
  cbn [existsb] in Hc.
  apply orb_false_iff in Hc as [H1 Hc]. apply orb_false_iff in Hc as [H2 Hc].
  apply orb_false_iff in Hc as [H3 Hc]. apply orb_false_iff in Hc as [H4 _].
  cbn [run_from map fold_left]. rewrite H1, H2, H3, H4, Hb. now apply IH.
Qed.

(** The alternation of literal keywords is parsed to one branch for each
    keyword. *)
Lemma parse_literal_keywords keywords :
  keywords <> [] ->
  forallb literal keywords = true ->
  forall A,
    exists F,
      parse_from {| alts := A; cur := Eps |} [] (join (txt "|") keywords)
      = PRegex (close F)
      /\ forall r,
           In r (branches F) <-> In r A \/ exists k, In k keywords /\ r = chars k.
Proof.
  induction keywords as [|k rest IH]; intros Hne Hl A; [congruence|].
  cbn [forallb] in Hl. apply andb_true_iff in Hl as [Hk Hrest].
  pose proof (run_from_literal k Hk {| alts := A; cur := Eps |} []) as Hrun.
  rewrite push_atoms in Hrun. cbn [alts cur] in Hrun. fold (chars k) in Hrun.
  destruct rest as [|k2 rest'].
  - exists {| alts := A; cur := chars k |}. cbn [join].
    pose proof (parse_from_app k _ _ [] _ _ Hrun) as E.
    rewrite List.app_nil_r in E. rewrite E. split; [reflexivity|].
    intros r. unfold branches. cbn [alts cur In]. split.
    + intros [<-|H]; [right; exists k; split; [now left|reflexivity]|now left].
    + intros [H|(k' & [<-|[]] & ->)]; [now right|now left].
  - destruct (IH ltac:(discriminate) Hrest (chars k :: A)) as (F & HF & HB).
    exists F. cbn [join].
    rewrite (parse_from_app k _ _ _ _ _ Hrun).
    change (txt "|" ++ join (txt "|") (k2 :: rest'))
      with ("|"%char :: join (txt "|") (k2 :: rest')).
    cbn [parse_from Ascii.eqb Bool.eqb].
    split; [exact HF|].
    intros r. rewrite HB. cbn [In]. split.
    + intros [[<-|H]|(k' & Hin & ->)].
      * right. exists k. split; [now left|reflexivity].
      * now left.
      * right. exists k'. split; [now right|reflexivity].
    + intros [H|(k' & [<-|Hin] & ->)].
      * left. now right.
      * left. now left.
      * right. exists k'. now split.
Qed.

Lemma flat_map_flat_map {A B C : Type} (g : B -> list C) (h : A -> list B) l :
  flat_map g (flat_map h l) = flat_map (fun x => flat_map g (h x)) l.
Proof.
  induction l as [|x l IH]; [reflexivity|].
  cbn [flat_map]. now rewrite flat_map_app, IH.
Qed.

Lemma rests_chars k :
  forall acc s,
    rests (fold_left (fun r c => Seq r (Chr c)) k acc) s
    = flat_map
        (fun t => if startswith (lower k) (lower t)
                  then [skipn (length k) t] else [])
        (rests acc s).
Proof.
  induction k as [|c k IH]; intros acc s.
  - cbn [fold_left lower map startswith length skipn].
    induction (rests acc s) as [|t l IHl]; [reflexivity|].
    cbn [flat_map app]. now rewrite <- IHl.
  - cbn [fold_left]. rewrite IH. cbn [rests]. rewrite flat_map_flat_map.
    apply flat_map_ext. intros [|x t]; [reflexivity|].
    cbn [rests lower map startswith length skipn].
    destruct (Ascii.eqb (lower_char c) (lower_char x)); cbn [flat_map andb];
      [apply app_nil_r|reflexivity].
Qed.

Lemma match_at_chars k s : match_at (chars k) s = startswith (lower k) (lower s).
Proof.
  unfold match_at, chars. rewrite rests_chars. cbn [rests flat_map].
  now destruct (startswith (lower k) (lower s)).
Qed.

Lemma match_at_alt a b s : match_at (Alt a b) s = match_at a s || match_at b s.
Proof. unfold match_at. cbn [rests]. now destruct (rests a s), (rests b s). Qed.

Lemma match_at_close s :
  forall branch_list acc,
    match_at (fold_left (fun acc r => Alt r acc) branch_list acc) s
    = match_at acc s || existsb (fun r => match_at r s) branch_list.
Proof.
  induction branch_list as [|a rest IH]; intros acc; cbn [fold_left existsb].
  - now rewrite orb_false_r.
  - rewrite IH, match_at_alt.
    now destruct (match_at a s), (match_at acc s).
Qed.

Lemma existsb_orb {A : Type} (f g : A -> bool) l :
  existsb f l || existsb g l = existsb (fun x => f x || g x) l.
Proof.
  induction l as [|x l IH]; [reflexivity|].
  cbn [existsb]. rewrite <- IH.
  now destruct (f x), (g x), (existsb f l), (existsb g l).
Qed.

Lemma existsb_same {A : Type} (f g : A -> bool) l :
  (forall x, f x = g x) -> existsb f l = existsb g l.
Proof.
  intros H. induction l as [|x l IH]; [reflexivity|].
  cbn [existsb]. now rewrite H, IH.
Qed.

(** Searching for an alternation of literal keywords finds the lines in
    which one of them occurs. *)
Lemma search_literal_keywords keywords :
  keywords <> [] ->
  forallb literal keywords = true ->
  forall line,
    search_fragment (join (txt "|") keywords) line
    = Some (if existsb (occurs_in line) keywords then Matched else NoMatch).
Proof.
  intros Hne Hl line.
  destruct (parse_literal_keywords keywords Hne Hl []) as (F & HF & HB).
  unfold search_fragment, parse. change empty_frame with {| alts := []; cur := Eps |}.
  rewrite HF.
  assert (forall s,
             match_at (close F) s
             = existsb (fun k => startswith (lower k) (lower s)) keywords) as Hm.
  { intros s. unfold close. rewrite match_at_close.
    change (match_at (cur F) s || existsb (fun r => match_at r s) (alts F))
      with (existsb (fun r => match_at r s) (branches F)).
    apply eq_true_iff_eq. rewrite !existsb_exists. split.
    - intros (r & Hr & Hs). apply HB in Hr as [[]|(k & Hk & ->)].
      exists k. split; [exact Hk|]. now rewrite <- match_at_chars.
    - intros (k & Hk & Hs). exists (chars k). split.
      + apply HB. right. now exists k.
      + now rewrite match_at_chars. }
  assert (search_regex (close F) line = existsb (occurs_in line) keywords)
    as ->; [|reflexivity].
  unfold occurs_in.
  induction line as [|x t IH]; cbn [search_regex lower map contains].
  - rewrite Hm, orb_false_r. apply existsb_same. intros k.
    now rewrite orb_false_r.
  - rewrite Hm, IH. apply existsb_orb.
Qed.

Section LiteralKeywords.

(** The search function agrees with the reference semantics on the
    patterns of the fragment. *)
Hypothesis re_search_on_fragment :
  forall pattern line o,
    search_fragment pattern line = Some o -> re_search pattern line = o.


End LiteralKeywords.

End Scanner.

(** *** What [--verbose] changes *)

(** X18: [--verbose] changes what a search logs, never what it finds:
    for the same tree, configuration values and command, the results of
    the search of a section are the same with and without it. *)
Theorem verbose_does_not_change_the_results :
  forall pf path_join re_compile walk open_read command keywords extensions
         files,
    fst (section_search pf path_join re_compile walk open_read true
           command keywords extensions files)
    = fst (section_search pf path_join re_compile walk open_read false
             command keywords extensions files).
Proof.
  intros. unfold section_search.
  destruct (contains (txt "grep") command).
  { destruct (nonempty keywords); [|reflexivity].
    now rewrite !fst_grep_files_hits. }
  destruct (contains (txt "find") command && contains (txt "-exec cat") command).
  { now rewrite !fst_find_and_cat_files. }
  destruct (contains (txt "find") command); [|reflexivity].
  destruct (nonempty extensions); [now rewrite !fst_find_files_patterns|].
  destruct (nonempty files); [now rewrite !fst_find_files_names|reflexivity].
Qed.

Lemma quiet_search_logs_nothing pf path_join re_compile walk open_read
    command keywords extensions files :
  snd (section_search pf path_join re_compile walk open_read false
         command keywords extensions files) = [].
Proof.
  unfold section_search, grep_files, find_and_cat_files, find_files.
  repeat match goal with
         | |- context [if ?b then _ else _] => destruct b
         | |- context [grep_walk ?a ?b ?c ?d ?e ?f ?g ?h] =>
           destruct (grep_walk a b c d e f g h) as [? [?|]]
         | |- context [find_walk ?a ?b ?c ?d ?e ?f] =>
           destruct (find_walk a b c d e f) as [? [?|]]
         end; reflexivity.
Qed.

(** X19: without [--verbose] a section adds to the report its
    [=== name ===] line and its results, and nothing else: an exception
    that ended its search (a failing walk, a pattern that does not
    compile) leaves no line, and a section without results leaves only
    its name. *)
Theorem quiet_section_reports_name_and_results :
  forall pf path_join re_compile walk open_read name command keywords
         extensions files,
    section_log pf path_join re_compile walk open_read false
      name command keywords extensions files
    = (LF :: txt "=== " ++ name ++ txt " ===")
      :: fst (section_search pf path_join re_compile walk open_read false
                command keywords extensions files).
Proof.
  intros. unfold section_log.
  pose proof (quiet_search_logs_nothing pf path_join re_compile walk open_read
                command keywords extensions files) as H.
  destruct (section_search pf path_join re_compile walk open_read false
              command keywords extensions files) as [results logged].
  cbn [fst snd] in *. subst logged. now destruct results.
Qed.

(** *** Name matching and the platform *)

Lemma lower_char_normcase (c : ascii) :
  lower_char (slash_to_backslash (lower_char c))
  = lower_char (slash_to_backslash c).
Proof.
  destruct c as [[] [] [] [] [] [] [] []]; vm_compute; reflexivity.
Qed.

Lemma normcase_windows_lower (s : str) :
  normcase Windows (lower s) = normcase Windows s.
Proof.
  unfold normcase, lower. rewrite !map_map.
  apply map_ext. intros c. apply lower_char_normcase.
Qed.

Lemma matches_any_windows_lower (file : str) (patterns : list str) :
  matches_any Windows file (map lower patterns)
  = matches_any Windows file patterns.
Proof.
  unfold matches_any.
  induction patterns as [|p rest IH]; cbn [map existsb]; [reflexivity|].
  rewrite IH. f_equal. unfold fnmatch. now rewrite normcase_windows_lower.
Qed.

Lemma nonempty_map {A B : Type} (f : A -> B) (l : list A) :
  nonempty (map f l) = nonempty l.
Proof. destruct l; reflexivity. Qed.

Lemma find_walk_windows_lower path_join patterns name_patterns :
  forall events results,
    find_walk Windows path_join (map lower patterns) (map lower name_patterns)
      events results
    = find_walk Windows path_join patterns name_patterns events results.
Proof.
  induction events as [|ev rest IH]; intros results; cbn; [reflexivity|].
  destruct ev as [root files|msg]; [|reflexivity].
  rewrite IH. f_equal. rewrite !find_dir_spec. do 2 f_equal.
  apply List.filter_ext. intros file.
  now rewrite !matches_any_windows_lower.
Qed.

Lemma grep_dir_windows_lower path_join re_compile open_read pattern extensions root :
  forall files results,
    grep_dir Windows path_join re_compile open_read pattern (map lower extensions)
      root files results
    = grep_dir Windows path_join re_compile open_read pattern extensions
        root files results.
Proof.
  induction files as [|file rest IH]; intros results; cbn [grep_dir];
    [reflexivity|].
  rewrite nonempty_map, matches_any_windows_lower.
  destruct (nonempty extensions && negb (matches_any Windows file extensions));
    [apply IH|].
  destruct (grep_file re_compile open_read pattern
              (path_join root file) results) as [r [e|]];
    [reflexivity|apply IH].
Qed.

Lemma grep_walk_windows_lower path_join re_compile open_read pattern extensions :
  forall events results,
    grep_walk Windows path_join re_compile open_read pattern (map lower extensions)
      events results
    = grep_walk Windows path_join re_compile open_read pattern extensions
        events results.
Proof.
  induction events as [|ev rest IH]; intros results; cbn; [reflexivity|].
  destruct ev as [root files|msg]; [|reflexivity].
  rewrite grep_dir_windows_lower.
  destruct (grep_dir Windows path_join re_compile open_read pattern extensions
              root files results) as [r [e|]];
    [reflexivity|apply IH].
Qed.

(** C1 (amended): name matching compares the file name and the glob
    pattern after [os.path.normcase]. On Windows this lowers the case of
    both, so matching is case-insensitive there (the pattern [*PASSWORD*]
    matches [my_Password.txt]), in locate mode and in the extension filter
    of content-search mode alike; on POSIX [normcase] changes nothing and
    the match is the case-sensitive [fnmatchcase]. *)
Theorem name_matching_case_follows_platform :
  (forall name pat,
      fnmatch Windows name pat = fnmatch Windows (lower name) (lower pat))
  /\ (forall name pat, fnmatch Posix name pat = fnmatchcase name pat)
  /\ fnmatch Windows (txt "my_Password.txt") (txt "*PASSWORD*") = true
  /\ (forall path_join walk verbose patterns name_patterns,
        find_files Windows path_join walk verbose
          (map lower patterns) (map lower name_patterns)
        = find_files Windows path_join walk verbose patterns name_patterns)
  /\ (forall path_join re_compile walk open_read verbose pattern extensions,
        grep_files Windows path_join re_compile walk open_read verbose pattern
          (map lower extensions)
        = grep_files Windows path_join re_compile walk open_read verbose pattern
            extensions).
Proof.
  split; [|split; [|split; [|split]]].
  - intros name pat. unfold fnmatch. now rewrite !normcase_windows_lower.
  - reflexivity.
  - vm_compute. reflexivity.
  - intros. unfold find_files. now rewrite find_walk_windows_lower.
  - intros. unfold grep_files. now rewrite grep_walk_windows_lower.
Qed.

(** C1, counterexample: on POSIX the pattern [*PASSWORD*] does not match
    [my_Password.txt]; locate mode does not report the file, and the
    extension filter [*.TXT] keeps content search away from every [.txt]
    file of the sample tree. *)
Lemma name_matching_is_case_sensitive_on_posix :
  fnmatch Posix (txt "my_Password.txt") (txt "*PASSWORD*") = false
  /\ In (txt "a", txt "my_Password.txt") (walked sample_walk)
  /\ fst (section_search Posix posix_join fragment_compile sample_walk
            sample_read false (txt "find . FILES") [] [] [txt "*PASSWORD*"])
     = []
  /\ fst (section_search Posix posix_join fragment_compile sample_walk
            sample_read false (txt "grep -ri KEYWORDS EXTENSIONS .")
            [txt "hunter"] [txt "*.TXT"] [])
     = []
  /\ fst (section_search Windows posix_join fragment_compile sample_walk
            sample_read false (txt "grep -ri KEYWORDS EXTENSIONS .")
            [txt "hunter"] [txt "*.TXT"] [])
     = [txt "a/my_Password.txt:1:hunter2"].
Proof.
  split; [vm_compute; reflexivity|].
  split; [right; left; reflexivity|].
  repeat split; vm_compute; reflexivity.
Qed.

(** *** Locate mode on the sample tree *)

(** C2, counterexample: [notes.txt] matches both patterns of [files] and
    is reported once, not twice. *)
Lemma file_matching_two_patterns_is_emitted_once :
  length (List.filter (fnmatch Posix (txt "notes.txt")) [txt "*.txt"; txt "n*"]) = 2
  /\ fst (section_search Posix posix_join fragment_compile sample_walk
            sample_read false (txt "find . FILES") [] []
            [txt "*.txt"; txt "n*"])
     = [txt "a/notes.txt"; txt "a/my_Password.txt"; txt "a/blank.txt";
        txt "a/b/locked.txt"].
Proof. split; vm_compute; reflexivity. Qed.

(** C2, witness: the amended statement on the sample tree. *)
Lemma locate_by_files_sample :
  content_marker (txt "find . FILES") = false
  /\ locate_marker (txt "find . FILES") = true
  /\ dump_marker (txt "find . FILES") = false
  /\ [txt "*.txt"; txt "n*"] <> []
  /\ fst (section_search Posix posix_join fragment_compile sample_walk
            sample_read false (txt "find . FILES") [] []
            [txt "*.txt"; txt "n*"])
     = found Posix posix_join sample_walk [txt "*.txt"; txt "n*"].
Proof.
  assert (content_marker (txt "find . FILES") = false) as H1 by reflexivity.
  assert (locate_marker (txt "find . FILES") = true) as H2 by reflexivity.
  assert (dump_marker (txt "find . FILES") = false) as H3 by reflexivity.
  assert ([txt "*.txt"; txt "n*"] <> []) as H4 by discriminate.
  split; [exact H1|]. split; [exact H2|]. split; [exact H3|]. split; [exact H4|].
  exact (proj1 (locate_by_files_emits_each_match_once Posix posix_join
                  fragment_compile sample_walk sample_read false
                  (txt "find . FILES") [] [txt "*.txt"; txt "n*"] H1 H2 H3 H4)).
Defined.

(** *** Rewriting and parsing sample configurations *)


(** C6, the failing input: a [Keywords: ] line above the first header
    makes [parse_config] return two records for a text with one header, the
    first without a name; with a [Command: ] line there, [run] then stops
    with a [KeyError]. *)
Theorem key_line_above_first_header_adds_a_record :
  header_names (file_lines (txt "Keywords: a" ++ [LF] ++ txt "[A]" ++ [LF]))
  = [txt "A"]
  /\ parse_config_text (txt "Keywords: a" ++ [LF] ++ txt "[A]" ++ [LF])
     = [set_keywords empty_dict [txt "a"]; new_section (txt "A")]
  /\ run Posix posix_join fragment_compile sample_walk sample_read false
       (txt "scan.cfg") (txt ".") (txt "out.txt") sample_now
       (init {[ txt "scan.cfg" :=
                  txt "Command: grep x ." ++ [LF] ++ txt "[A]" ++ [LF] ]} 100)
     = Stopped (Raised (txt "KeyError: name"))
         (world_of
            (run Posix posix_join fragment_compile sample_walk sample_read false
               (txt "scan.cfg") (txt ".") (txt "out.txt") sample_now
               (init {[ txt "scan.cfg" :=
                          txt "Command: grep x ." ++ [LF] ++ txt "[A]" ++ [LF] ]}
                  100))).
Proof. repeat split; vm_compute; reflexivity. Qed.

(** *** Content search and dump mode on the sample tree *)



(** C7, witness: dump mode over the sample tree with [files] set emits the
    two readable [.txt] files that are not blank, and neither the blank
    one nor the one that cannot be read. *)
Lemma dump_mode_sample :
  content_marker (txt "find . FILES -exec cat {} +") = false
  /\ locate_marker (txt "find . FILES -exec cat {} +") = true
  /\ dump_marker (txt "find . FILES -exec cat {} +") = true
  /\ fst (section_search Posix posix_join fragment_compile sample_walk
            sample_read false (txt "find . FILES -exec cat {} +")
            [] [txt "*.bak"] [txt "*.txt"])
     = [txt "=== a/notes.txt ===";
        txt "hello" ++ [LF] ++ txt "export TOKEN=abc  " ++ [LF] ++ txt "xyz";
        txt "=== a/my_Password.txt ===";
        txt "hunter2" ++ [LF]].
Proof.
  split; [reflexivity|]. split; [reflexivity|]. split; [reflexivity|].
  rewrite (proj1 (dump_mode_results Posix posix_join fragment_compile
                    sample_walk sample_read false
                    (txt "find . FILES -exec cat {} +")
                    [] [txt "*.bak"] [txt "*.txt"] eq_refl eq_refl eq_refl)).
  vm_compute. reflexivity.
Defined.

(** C9, witness: [a/b/locked.txt] cannot be opened; the content search of
    its directory gives what it gives without that file. *)
Lemma unreadable_file_sample :
  sample_read (posix_join (txt "a/b") (txt "locked.txt")) = ReadFails []
  /\ grep_dir Posix posix_join fragment_compile sample_read (txt "secret") []
       (txt "a/b") [txt "locked.txt"; txt "config.bak"] []
     = grep_dir Posix posix_join fragment_compile sample_read (txt "secret") []
         (txt "a/b") [txt "config.bak"] [].
Proof.
  split; [reflexivity|].
  exact (proj1 (io_errors_skip_the_file_only Posix posix_join fragment_compile
                  sample_read (txt "secret") [] (txt "a/b") (txt "locked.txt")
                  [txt "config.bak"] [] [] eq_refl) eq_refl).
Defined.

(** *** Interrupting sample runs *)



(** *** Keyword lists with an empty element, on the sample tree *)

Lemma fragment_compile_agrees :
  forall pattern line o,
    search_fragment pattern line = Some o ->
    re_search fragment_compile pattern line = o.
Proof.
  intros pattern line o H. unfold search_fragment in H.
  unfold re_search, fragment_compile.
  destruct (parse pattern); inversion H; reflexivity.
Qed.



(** *** Sample name patterns *)

(** X1, witness: the names [id_rsa] and [.env] on POSIX. *)
Lemma plain_pattern_sample :
  forallb plain [txt "id_rsa"; txt ".env"] = true
  /\ matches_any Posix (txt ".env") [txt "id_rsa"; txt ".env"]
     = existsb (fun name => bool_decide (txt ".env" = name))
         [txt "id_rsa"; txt ".env"].
Proof.
  assert (forallb plain [txt "id_rsa"; txt ".env"] = true) as H by reflexivity.
  split; [exact H|].
  exact (plain_pattern_matches_equal_names Posix (txt ".env")
           [txt "id_rsa"; txt ".env"] H).
Defined.

(** X2, witness: the extensions [*.txt] and [*.bak] on Windows. *)
Lemma star_suffix_pattern_sample :
  forallb plain [txt ".txt"; txt ".bak"] = true
  /\ matches_any Windows (txt "NOTES.TXT") [txt "*.txt"; txt "*.bak"]
     = existsb (fun suffix =>
                  endswith (normcase Windows suffix) (txt "notes.txt"))
         [txt ".txt"; txt ".bak"].
Proof.
  assert (forallb plain [txt ".txt"; txt ".bak"] = true) as H by reflexivity.
  split; [exact H|].
  exact (star_suffix_pattern_matches_endings Windows (txt "NOTES.TXT")
           [txt ".txt"; txt ".bak"] H).
Defined.

(** X3, witness: the pattern [*password*] on POSIX. *)
Lemma star_word_star_pattern_sample :
  forallb plain [txt "password"] = true
  /\ matches_any Posix (txt "my_password.txt") [txt "*password*"]
     = existsb (fun word => contains word (txt "my_password.txt"))
         [txt "password"].
Proof.
  assert (forallb plain [txt "password"] = true) as H by reflexivity.
  split; [exact H|].
  exact (star_word_star_pattern_matches_substrings Posix
           (txt "my_password.txt") [txt "password"] H).
Defined.

(** X5, witness: the keywords [secret] and [api key]. *)
Lemma parse_list_joined_sample :
  Forall (fun item => strip item = item /\ ~ In ","%char item)
    [txt "secret"; txt "api key"]
  /\ parse_list (join (txt ", ") [txt "secret"; txt "api key"])
     = [txt "secret"; txt "api key"].
Proof.
  assert (Forall (fun item => strip item = item /\ ~ In ","%char item)
            [txt "secret"; txt "api key"]) as H.
  { repeat constructor; cbn; intros E;
      repeat (destruct E as [E|E]; [discriminate E|]); exact E. }
  split; [exact H|].
  exact (proj1 (parse_list_reads_back_a_joined_list
                  [txt "secret"; txt "api key"] H)
           ltac:(discriminate)).
Defined.

(** *** Sample searches *)

(** X7, witness: the keyword [(] does not compile; the first file of the
    sample tree yields a line, so the search stops there. *)
Lemma broken_pattern_sample :
  fragment_compile (txt "(") = inl (txt "missing ), unterminated subpattern")
  /\ grep_files Posix posix_join fragment_compile sample_walk sample_read true
       (txt "(") []
     = ([], [txt "Error during grep: missing ), unterminated subpattern"]).
Proof.
  assert (fragment_compile (txt "(") = inl (txt "missing ), unterminated subpattern")) as H by reflexivity.
  split; [exact H|].
  exact (broken_pattern_gives_no_result Posix posix_join fragment_compile
           sample_walk sample_read true (txt "(")
           (txt "missing ), unterminated subpattern") [] H).
Defined.

(** X8, witness: a section with [Extensions: *.bak] and [Files: n*]. *)
Lemma locate_mode_sample :
  content_marker (txt "find . EXTENSIONS FILES") = false
  /\ locate_marker (txt "find . EXTENSIONS FILES") = true
  /\ dump_marker (txt "find . EXTENSIONS FILES") = false
  /\ fst (section_search Posix posix_join fragment_compile sample_walk
            sample_read false (txt "find . EXTENSIONS FILES") []
            [txt "*.bak"] [txt "n*"])
     = found Posix posix_join sample_walk [txt "*.bak"].
Proof.
  assert (content_marker (txt "find . EXTENSIONS FILES") = false) as H1
    by reflexivity.
  assert (locate_marker (txt "find . EXTENSIONS FILES") = true) as H2
    by reflexivity.
  assert (dump_marker (txt "find . EXTENSIONS FILES") = false) as H3
    by reflexivity.
  split; [exact H1|]. split; [exact H2|]. split; [exact H3|].
  exact (proj2 (proj1 (locate_mode_prefers_extensions Posix posix_join
                         fragment_compile sample_walk sample_read false
                         (txt "find . EXTENSIONS FILES") []
                         [txt "*.bak"] [txt "n*"] H1 H2 H3)
                  ltac:(discriminate))).
Defined.

(** *** Sample rewrites *)

(** X11, witness: one section with a resolved command. *)
Lemma rewriting_twice_sample :
  (forall name v,
      ({[ txt "A" := txt "grep -riE x ." ]} : gmap str str) !! name = Some v ->
      newline_free v = true /\ rstrip v <> [])
  /\ update_config_text {[ txt "A" := txt "grep -riE x ." ]}
       (update_config_text {[ txt "A" := txt "grep -riE x ." ]}
          (txt "[A]" ++ [LF] ++ txt "Example: old  " ++ [LF]))
     = update_config_text {[ txt "A" := txt "grep -riE x ." ]}
         (txt "[A]" ++ [LF] ++ txt "Example: old  " ++ [LF]).
Proof.
  assert (forall name v,
             ({[ txt "A" := txt "grep -riE x ." ]} : gmap str str) !! name
             = Some v ->
             newline_free v = true /\ rstrip v <> []) as H.
  { intros name v E. apply lookup_singleton_Some in E as [_ <-].
    split; [reflexivity|]. vm_compute. discriminate. }
  split; [exact H|].
  exact (rewriting_twice_changes_nothing {[ txt "A" := txt "grep -riE x ." ]}
           (txt "[A]" ++ [LF] ++ txt "Example: old  " ++ [LF]) H).
Defined.

(** *** Sample runs *)

(** X13, witness: the sample configuration, run without [--verbose]. *)
Lemma quiet_run_sample :
  match run Posix posix_join fragment_compile sample_walk sample_read false
          (txt "scan.cfg") (txt ".") (txt "out.txt") sample_now
          (init sample_files 200) with
  | Done _ w =>
    exists before,
      trace w = before ++ [EvPrint (txt "Results saved to: " ++ txt "out.txt")]
      /\ List.filter is_print before = []
  | Stopped _ w => printed w = []
  end.
Proof.
  exact (quiet_run_prints_the_final_line_only Posix posix_join fragment_compile
           sample_walk sample_read false (txt "scan.cfg") (txt ".")
           (txt "out.txt") sample_now eq_refl sample_files 200).
Defined.




(** X20, witness: a comment and two sections. *)
Lemma sections_one_by_one_sample :
  forallb passed_over [txt "# rules" ++ [LF]] = true
  /\ forallb is_block
       [ (txt "[A]" ++ [LF], [txt "Command: grep -riE KEYWORDS ." ++ [LF];
                              txt "Keywords: a, b" ++ [LF]]);
         (txt "[B]" ++ [LF], [txt "Command: find . FILES" ++ [LF]]) ] = true
  /\ parse_lines
       ([txt "# rules" ++ [LF]]
        ++ flat_map (fun b : str * list str => fst b :: snd b)
             [ (txt "[A]" ++ [LF], [txt "Command: grep -riE KEYWORDS ." ++ [LF];
                                    txt "Keywords: a, b" ++ [LF]]);
               (txt "[B]" ++ [LF], [txt "Command: find . FILES" ++ [LF]]) ])
     = map block_record
         [ (txt "[A]" ++ [LF], [txt "Command: grep -riE KEYWORDS ." ++ [LF];
                                txt "Keywords: a, b" ++ [LF]]);
           (txt "[B]" ++ [LF], [txt "Command: find . FILES" ++ [LF]]) ].
Proof.
  assert (forallb passed_over [txt "# rules" ++ [LF]] = true) as H1
    by reflexivity.
  assert (forallb is_block
            [ (txt "[A]" ++ [LF], [txt "Command: grep -riE KEYWORDS ." ++ [LF];
                                   txt "Keywords: a, b" ++ [LF]]);
              (txt "[B]" ++ [LF], [txt "Command: find . FILES" ++ [LF]]) ]
          = true) as H2 by reflexivity.
  split; [exact H1|]. split; [exact H2|].
  exact (sections_are_parsed_one_by_one _ _ H1 H2).
Defined.


End FileScanner.
